(** * LokiExecutor: the worker-side executor of the LokiJS adapter

    A shallow embedding of [src/adapters/lokijs/worker/executor.js].

    The executor owns two pieces of mutable state: the Loki database
    ([this.loki]) and the record cache ([this.cachedRecords]).  Every
    method is a computation over that state which either returns or
    throws; a throw keeps whatever was mutated before it.

    Calls to [logger] only write diagnostics and are left out, and
    with them [_warnAboutLackingFTSSupport].  [query] and [count] hand
    the query to [executeQuery], which is another file and is taken as
    a parameter. *)

From Stdlib Require Import ZArith Lia Ascii.
From Stdlib Require Import Decimal DecimalString DecimalPos DecimalZ.
From stdpp Require Import gmap strings list fin_maps.

Local Open Scope string_scope.
Local Open Scope Z_scope.

(** ** JavaScript values and objects *)

(** The scalars a record field can hold.  A missing property
    ([undefined]) is a failed lookup in the object. *)
Inductive Value : Type :=
  | VNull
  | VStr (s : string)
  | VNum (n : Z)
  | VBool (b : bool).

#[global] Instance Value_eq_dec : EqDecision Value.
Proof. solve_decision. Defined.

(** A [DirtyRaw]: a plain JS object, property name to value. *)
Abbreviation DirtyRaw := (gmap string Value).

(** What a JS computation can throw. *)
Inductive Exn : Type :=
  | TypeError (msg : string)
  | Error (msg : string).

(** A computation over a state [S] returns a value or throws; both
    outcomes carry the state reached. *)
Inductive Outcome (S A : Type) : Type :=
  | Returned (a : A) (s : S)
  | Thrown (e : Exn) (s : S).
Arguments Returned {S A} a s.
Arguments Thrown {S A} e s.

Definition outcome_state {S A} (o : Outcome S A) : S :=
  match o with Returned _ s => s | Thrown _ s => s end.

Definition returns {S A} (o : Outcome S A) : bool :=
  match o with Returned _ _ => true | Thrown _ _ => false end.

(** ** The store: LokiJS collections

    LokiJS is an external library; this module models the part of its
    API the executor calls, on collections created the way the executor
    creates them (no cloning, no transactions, [disableMeta]). *)
Module Loki.

Record Collection : Type := mkCollection {
  name : string;
  data : list DirtyRaw;          (* documents, in insertion order *)
  maxId : Z;                     (* last [$loki] handed out *)
  uniqueNames : list string;     (* fields with a unique constraint *)
  binaryIndices : list string;   (* fields with a binary index *)
}.

Definition set_data (c : Collection) (d : list DirtyRaw) : Collection :=
  mkCollection (name c) d (maxId c) (uniqueNames c) (binaryIndices c).

(** [collection.ensureIndex(property)]: builds the index unless the
    collection already has one on that property. *)
Definition ensureIndex (property : string) (c : Collection) : Collection :=
  if decide (property ∈ binaryIndices c) then c
  else mkCollection (name c) (data c) (maxId c) (uniqueNames c)
                    (binaryIndices c ++ [property]).

(** [new Collection(name, { unique, indices, disableMeta: true })]. *)
Definition newCollection (nm : string) (unique indices : list string)
  : Collection :=
  foldl (λ c p, ensureIndex p c) (mkCollection nm [] 0 unique []) indices.

(** Does document [d] carry the key [key] in [field]?  A unique index
    holds the documents whose field is neither null nor undefined. *)
Definition has_key (field key : string) (d : DirtyRaw) : bool :=
  bool_decide (d !! field = Some (VStr key)).

(** [collection.by(field, key)]: the document the unique index of
    [field] holds under [key], [undefined] ([None]) when there is
    none.  The result is a reference to the stored object: its place
    in [data] and what it holds now.

    On a field without unique index the releases of LokiJS differ.  Up
    to 1.5.10 there is no index object to ask
    ([this.constraints.unique[field].get(key)]) and the call throws a
    TypeError, which is what this definition does; from 1.5.11 on the
    call builds the missing index and answers from it.  The executor
    creates every table with the unique index on [id] and the local
    storage with the one on [key]; a property that depends on the
    outcome of [by] is stated for a collection that has the index,
    where the releases agree. *)
Definition by_ (field key : string) (c : Collection)
  : Exn + option (nat * DirtyRaw) :=
  if decide (field ∈ uniqueNames c)
  then inr (list_find (λ d, has_key field key d = true) (data c))
  else inl (TypeError "Cannot read property 'get' of undefined").

(** The internal identity of a document. *)
Definition loki_id (d : DirtyRaw) : option Z :=
  match d !! "$loki" with
  | Some (VNum n) => Some n
  | _ => None
  end.

Definition has_loki_id (n : Z) (d : DirtyRaw) : bool :=
  bool_decide (loki_id d = Some n).

(** Position of the document with internal identity [n]
    ([collection.get(n, true)]). *)
Fixpoint position (n : Z) (l : list DirtyRaw) : option nat :=
  match l with
  | [] => None
  | d :: l' => if has_loki_id n d then Some 0%nat
               else S <$> position n l'
  end.

(** A unique index refuses a key one of the [others] already holds;
    null and undefined keys are not indexed. *)
Definition key_clash (field : string) (d : DirtyRaw)
    (others : list DirtyRaw) : bool :=
  match d !! field with
  | Some (VStr key) => existsb (has_key field key) others
  | _ => false
  end.

Definition any_key_clash (c : Collection) (d : DirtyRaw)
    (others : list DirtyRaw) : bool :=
  existsb (λ field, key_clash field d others) (uniqueNames c).

(** [collection.insert(doc)]: hands out the next [$loki], registers
    the document with the unique indices and appends it.  The counter
    is bumped before the indices can refuse the document. *)
Definition insert (doc : DirtyRaw) (c : Collection)
  : Outcome Collection DirtyRaw :=
  if decide (is_Some (doc !! "$loki")) then
    Thrown (Error "Document is already in collection, please use update()") c
  else
    let c1 := mkCollection (name c) (data c) (maxId c + 1)
                           (uniqueNames c) (binaryIndices c) in
    let obj := <["$loki" := VNum (maxId c + 1)]> doc in
    if any_key_clash c obj (data c) then
      Thrown (Error "Duplicate key for property") c1
    else Returned obj (set_data c1 (data c ++ [obj])).

(** [collection.update(doc)]: finds the stored document by [$loki],
    lets the unique indices check the new keys and replaces it. *)
Definition update (doc : DirtyRaw) (c : Collection)
  : Outcome Collection DirtyRaw :=
  match doc !! "$loki" with
  | None => Thrown (Error "Trying to update unsynced document. Please save the document first by using insert() or addMany()") c
  | Some v =>
      match (match v with VNum n => position n (data c) | _ => None end) with
      | None => Thrown (Error "Trying to update a document not in collection.") c
      | Some pos =>
          if any_key_clash c doc (delete pos (data c)) then
            Thrown (Error "Duplicate key for property") c
          else Returned doc (set_data c (<[pos := doc]> (data c)))
      end
  end.

(** The caller changed the stored object at [pos] in place (it is the
    very object [by] or a result set handed out) and then calls
    [collection.update] with it: the change is in the collection
    whether or not the update goes through. *)
Definition update_in_place (pos : nat) (doc : DirtyRaw) (c : Collection)
  : Outcome Collection DirtyRaw :=
  update doc (set_data c (<[pos := doc]> (data c))).

(** [collection.remove(doc)]: an [undefined] argument, or an object
    without [$loki], is refused with an error; a failure while
    removing is caught inside and [null] comes back. *)
Definition remove (doc : option DirtyRaw) (c : Collection)
  : Outcome Collection (option DirtyRaw) :=
  match doc with
  | None => Thrown (Error "Parameter is not an object") c
  | Some d =>
      match d !! "$loki" with
      | None => Thrown (Error "Object is not a document stored in the collection") c
      | Some v =>
          match (match v with VNum n => position n (data c) | _ => None end) with
          | None => Returned None c
          | Some pos =>
              Returned (Some (base.delete "$loki" d))
                       (set_data c (delete pos (data c)))
          end
      end
  end.

(** [collection.findAndUpdate({}, f)]: the empty filter selects every
    document; each is changed in place by [f] and then updated, in
    the order of [data].  The first update that throws ends the
    loop. *)
Fixpoint updateEach (f : DirtyRaw → DirtyRaw) (rows : list nat)
    (c : Collection) : Outcome Collection unit :=
  match rows with
  | [] => Returned () c
  | i :: rows' =>
      match data c !! i with
      | None => updateEach f rows' c
      | Some d =>
          match update_in_place i (f d) c with
          | Returned _ c' => updateEach f rows' c'
          | Thrown e c' => Thrown e c'
          end
      end
  end.

Definition findAndUpdate (f : DirtyRaw → DirtyRaw) (c : Collection)
  : Outcome Collection unit :=
  updateEach f (seq 0 (length (data c))) c.

(** [collection.find({ field: { $eq: v } })]: the documents whose
    [field] is [v].  They are listed here in the order of [data];
    LokiJS lists them in the order of the binary index of [field] when
    the collection has one, which can differ.  The properties speak of
    which documents are found, not of their order. *)
Definition find_eq (field : string) (v : Value) (c : Collection)
  : list DirtyRaw :=
  filter (λ d, d !! field = Some v) (data c).

(** The key the unique index of [field] files a document under. *)
Definition key_of (field : string) (d : DirtyRaw) : option string :=
  match d !! field with
  | Some (VStr key) => Some key
  | _ => None
  end.

Definition issued (c : Collection) (d : DirtyRaw) : Prop :=
  match loki_id d with
  | Some n => n ≤ maxId c
  | None => False
  end.

#[global] Instance issued_dec c d : Decision (issued c d).
Proof. unfold issued. destruct (loki_id d); apply _. Defined.

(** What LokiJS keeps true of a collection: every document carries a
    [$loki] the collection has handed out, no two documents share
    one, and no two share a key of a unique index. *)
Definition wf (c : Collection) : Prop :=
  Forall (issued c) (data c)
  ∧ NoDup (omap loki_id (data c))
  ∧ Forall (λ field, NoDup (omap (key_of field) (data c))) (uniqueNames c).

#[global] Instance wf_dec c : Decision (wf c).
Proof. unfold wf. apply _. Defined.

(** A collection of records as [_addCollection] creates it. *)
Definition is_table (c : Collection) : Prop :=
  wf c ∧ uniqueNames c = ["id"].

#[global] Instance is_table_dec c : Decision (is_table c).
Proof. unfold is_table. apply _. Defined.

(** A change of documents that leaves [$loki] and the keys of the
    unique indices of [c] alone. *)
Definition keeps_identity (c : Collection) (f : DirtyRaw → DirtyRaw) : Prop :=
  ∀ d, f d !! "$loki" = d !! "$loki"
       ∧ Forall (λ field, key_of field (f d) = key_of field d)
                (uniqueNames c).

(** The database: its collections by name. *)
Abbreviation Db := (gmap string Collection).

(** [loki.getCollection(name)]; [null] is [None]. *)
Definition getCollection (nm : string) (db : Db) : option Collection :=
  db !! nm.

(** [loki.addCollection(name, options)]: an existing collection of
    that name is returned as it is. *)
Definition addCollection (nm : string) (unique indices : list string)
    (db : Db) : Db :=
  match db !! nm with
  | Some _ => db
  | None => <[nm := newCollection nm unique indices]> db
  end.

End Loki.

(** ** Schema and records *)

Record ColumnSchema : Type := mkColumn {
  column_name : string;
  column_type : string;
  isOptional : bool;
  isIndexed : bool;
  isSearchable : bool;
}.

(** A [TableSchema]; [columns] lists the column schemas in the order
    [values(columns)] yields them. *)
Record TableSchema : Type := mkTable {
  table_name : string;
  columns : list ColumnSchema;
}.

(** The [AppSchema]; [tables] maps a table name to its schema, listed in
    the order [values(schema.tables)] yields them.  The [version] is a
    JS number, held as the integer it is (see [JS.toNumber]). *)
Record AppSchema : Type := mkSchema {
  version : Z;
  tables : list (string * TableSchema);
}.

(** [schema.tables[table]]. *)
Definition table_schema (schema : AppSchema) (table : string)
  : option TableSchema :=
  snd <$> List.find (λ kv, bool_decide (fst kv = table)) (tables schema).

(** A [RawRecord]: a record that went through sanitization, so that it
    has its [id] and [_status]; [raw_columns] are its other fields. *)
Record RawRecord : Type := mkRaw {
  raw_id : string;
  raw_status : string;
  raw_columns : gmap string Value;
}.

(** The JS object a [RawRecord] is. *)
Definition raw_object (r : RawRecord) : DirtyRaw :=
  <["id" := VStr (raw_id r)]>
    (<["_status" := VStr (raw_status r)]> (raw_columns r)).

(** A [MigrationStep] object: [type] tags it, a [create_table] step
    reads [name], an [add_columns] step reads [table]. *)
Record MigrationStep : Type := mkStep {
  step_type : string;
  step_name : string;
  step_table : string;
  step_columns : list ColumnSchema;
}.

(** [CachedFindResult = RecordId | ?RawRecord]. *)
Inductive CachedFindResult : Type :=
  | FoundId (id : string)
  | FoundRaw (raw : RawRecord)
  | FoundNull.

(** A [WorkerBatchOperation]: [[type, table, raw]]. *)
Definition WorkerBatchOperation : Type := string * string * RawRecord.

Definition SCHEMA_VERSION_KEY : string := "_loki_schema_version".

(** ** Numbers and strings *)

Module JS.

(** A JS number is a double.  The integers among the doubles are held
    as [Z]: every integer up to 2^53 in absolute value is one, beyond
    it they are the multiples of a power of two, and past the largest
    one, which is below 2^1024, comes [Infinity], held here as
    2^1024: it compares with the doubles as [Infinity] does. *)
Definition MAX_SAFE_INTEGER : Z := 9007199254740991.

(** [Number.isSafeInteger(n)]. *)
Definition isSafeInteger (n : Z) : Prop :=
  - MAX_SAFE_INTEGER ≤ n ≤ MAX_SAFE_INTEGER.

#[global] Instance isSafeInteger_dec n : Decision (isSafeInteger n).
Proof. unfold isSafeInteger. apply _. Defined.

(** The double nearest to an integer, ties going to the even
    mantissa. *)
Definition toNumber (n : Z) : Z :=
  let a := Z.abs n in
  if a <=? MAX_SAFE_INTEGER then n
  else
    let e := Z.log2 a - 52 in
    let q := Z.shiftr a e in
    let r := a - Z.shiftl q e in
    let half := Z.shiftl 1 (e - 1) in
    let q' := if r <? half then q
              else if half <? r then q + 1
              else if Z.even q then q else q + 1 in
    let v := Z.shiftl q' e in
    Z.sgn n * (if 2 ^ 1024 <=? v then 2 ^ 1024 else v).

(** The decimal digits of an integer, with a minus sign when it is
    negative. *)
Definition decimal (n : Z) : string :=
  NilZero.string_of_int (Z.to_int n).

(** The number with the fewest significant digits that still rounds
    to the double [a], at least 2^53: the digits [Number::toString]
    prints.  The numbers that round to [a] lie between the midpoints
    to its neighbours, which count when the mantissa of [a] is even;
    [lo] and [hi] are four times these midpoints.  With [k] digits the
    candidates are the two multiples of 10^(n-k) around [a]. *)
Fixpoint shortest_from (fuel : nat) (k : Z) (a n lo hi : Z) (closed : bool)
  : Z :=
  match fuel with
  | O => a
  | S fuel' =>
      let p := 10 ^ (n - k) in
      let c1 := a / p * p in
      let c2 := c1 + p in
      let rounds_to_a c :=
        if closed then (lo <=? 4 * c) && (4 * c <=? hi)
        else (lo <? 4 * c) && (4 * c <? hi) in
      match rounds_to_a c1, rounds_to_a c2 with
      | true, true =>
          if a - c1 <? c2 - a then c1
          else if c2 - a <? a - c1 then c2
          else if Z.even (a / p) then c1 else c2
      | true, false => c1
      | false, true => c2
      | false, false =>
          if k <? n then shortest_from fuel' (k + 1) a n lo hi closed else a
      end
  end.

Definition shortest (a : Z) : Z :=
  let e := Z.log2 a - 52 in
  let m := Z.shiftr a e in
  let ulp := Z.shiftl 1 e in
  let lo := 4 * a - (if m =? 2 ^ 52 then ulp else 2 * ulp) in
  let hi := 4 * a + 2 * ulp in
  let n := Z.of_nat (String.length (decimal a)) in
  shortest_from 17 1 a n lo hi (Z.even m).

Fixpoint dropZeros (s : string) : string :=
  match s with
  | String "0" s' => dropZeros s'
  | _ => s
  end.

(** Exponential notation, which [Number::toString] uses from 10^21
    on: the significant digits with a point after the first, and the
    exponent. *)
Definition exponential (c : Z) : string :=
  let exponent := decimal (Z.of_nat (String.length (decimal c)) - 1) in
  match String.rev (dropZeros (String.rev (decimal c))) with
  | EmptyString => "0"
  | String d EmptyString => String d ("e+" +:+ exponent)
  | String d more => String d ("." +:+ more +:+ "e+" +:+ exponent)
  end.

(** [`${n}`], that is [Number::toString], for an integer [n]. *)
Definition toString (n : Z) : string :=
  let x := toNumber n in
  let a := Z.abs x in
  if a <=? MAX_SAFE_INTEGER then decimal x
  else
    let sign := if x <? 0 then "-" else "" in
    if 2 ^ 1024 <=? a then sign +:+ "Infinity"
    else
      let c := shortest a in
      sign +:+ (if c <? 10 ^ 21 then decimal c else exponential c).

Definition digit_of (a : ascii) : option N :=
  let n := N_of_ascii a in
  if ((48 <=? n) && (n <=? 57))%N then Some (n - 48)%N else None.

(** The white space and line terminators [parseInt] skips.  A string
    is held as its UTF-8 bytes: the ASCII ones are one byte, U+00A0 is
    two bytes, and U+1680, U+2000 to U+200A, U+2028, U+2029, U+202F,
    U+205F, U+3000 and U+FEFF are three. *)
Definition is_space (a : ascii) : bool :=
  let n := N_of_ascii a in
  ((9 <=? n) && (n <=? 13) || (n =? 32))%N.

Definition is_space2 (a b : ascii) : bool :=
  ((N_of_ascii a =? 194) && (N_of_ascii b =? 160))%N.

Definition is_space3 (a b c : ascii) : bool :=
  let '(x, y, z) := (N_of_ascii a, N_of_ascii b, N_of_ascii c) in
  ((x =? 225) && (y =? 154) && (z =? 128)
   || (x =? 226) && (y =? 128)
      && ((128 <=? z) && (z <=? 138) || (z =? 168) || (z =? 169) || (z =? 175))
   || (x =? 226) && (y =? 129) && (z =? 159)
   || (x =? 227) && (y =? 128) && (z =? 128)
   || (x =? 239) && (y =? 187) && (z =? 191))%N.

Fixpoint trimStart (s : string) : string :=
  match s with
  | String a s1 =>
      if is_space a then trimStart s1
      else
        match s1 with
        | String b s2 =>
            if is_space2 a b then trimStart s2
            else
              match s2 with
              | String c s3 => if is_space3 a b c then trimStart s3 else s
              | EmptyString => s
              end
        | EmptyString => s
        end
  | EmptyString => s
  end.

(** Value of the longest prefix of decimal digits, continuing [acc]. *)
Fixpoint digits (s : string) (acc : N) : N :=
  match s with
  | String a s' =>
      match digit_of a with
      | Some d => digits s' (10 * acc + d)%N
      | None => acc
      end
  | EmptyString => acc
  end.

Definition starts_with_digit (s : string) : bool :=
  match s with
  | String a _ => bool_decide (is_Some (digit_of a))
  | EmptyString => false
  end.

(** The sign [parseInt] reads after the white space, and what follows
    it. *)
Definition sign_and_rest (s : string) : Z * string :=
  match trimStart s with
  | String "-" s' => (-1, s')
  | String "+" s' => (1, s')
  | s1 => (1, s1)
  end.

(** The integer the leading decimal digits stand for; [None] when
    there is no digit to read. *)
Definition mathInt (s : string) : option Z :=
  let '(sign, s2) := sign_and_rest s in
  if starts_with_digit s2 then Some (sign * Z.of_N (digits s2 0))
  else None.

(** [parseInt(s, 10)]: the number for that integer; [None] is
    [NaN]. *)
Definition parseInt (s : string) : option Z :=
  toNumber <$> mathInt s.

(** [ToString] of a value, as [parseInt] and template strings apply
    it. *)
Definition valueToString (v : Value) : string :=
  match v with
  | VNull => "null"
  | VStr s => s
  | VNum n => toString n
  | VBool true => "true"
  | VBool false => "false"
  end.

(** Truthiness; [None] is [undefined] or [null]. *)
Definition truthy (v : option Value) : bool :=
  match v with
  | None | Some VNull => false
  | Some (VStr s) => negb (bool_decide (s = ""))
  | Some (VNum n) => negb (n =? 0)%Z
  | Some (VBool b) => b
  end.

End JS.

(** ** The executor *)

Section Executor.

(** Helpers of the repository that live outside [executor.js]. *)

(** The type [SchemaMigrations] of [Schema/migrations]. *)
Context {SchemaMigrations : Type}.

(** [stepsForMigration({ migrations, fromVersion, toVersion })] of
    [Schema/migrations/helpers]; [None] is its [null]. *)
Variable stepsForMigration :
  SchemaMigrations → Z → Z → option (list MigrationStep).

(** [sanitizedRaw(dirtyRaw, tableSchema)] of [RawRecord]. *)
Variable sanitizedRaw : DirtyRaw → option TableSchema → RawRecord.

(** The value [RawRecord] stores in a column when it is given
    [value]: the value itself when it has the column's type, the
    column's default otherwise. *)
Variable sanitizedValue : Value → ColumnSchema → Value.

(** Modelled from the spec: [setRawSanitized(raw, columnName, value,
    columnSchema)] of [RawRecord], which is not in this file; it sets
    the one field [columnName] of [raw] to the sanitized value and
    leaves the other fields alone. *)
Definition setRawSanitized (raw : DirtyRaw) (columnName : string)
    (value : Value) (columnSchema : ColumnSchema) : DirtyRaw :=
  <[columnName := sanitizedValue value columnSchema]> raw.

(** The fields of a [LokiExecutor].  [dbName] and [_testLokiAdapter]
    only select where the database is kept; [persisted] stands for
    what is kept there. *)
Record LokiExecutor : Type := mkExecutor {
  schema : AppSchema;
  migrations : option SchemaMigrations;
  loki : Loki.Db;
  cachedRecords : gmap string (gset string);
  persisted : Loki.Db;
}.

Definition with_loki (db : Loki.Db) (s : LokiExecutor) : LokiExecutor :=
  mkExecutor (schema s) (migrations s) db (cachedRecords s) (persisted s).

Definition with_cachedRecords (m : gmap string (gset string))
    (s : LokiExecutor) : LokiExecutor :=
  mkExecutor (schema s) (migrations s) (loki s) m (persisted s).

Definition with_persisted (db : Loki.Db) (s : LokiExecutor)
  : LokiExecutor :=
  mkExecutor (schema s) (migrations s) (loki s) (cachedRecords s) db.

(** A method of the executor. *)
Definition M (A : Type) : Type := LokiExecutor → Outcome LokiExecutor A.

#[global] Instance M_ret : MRet M := λ A a s, Returned a s.

#[global] Instance M_bind : MBind M := λ A B f m s,
  match m s with
  | Returned a s' => f a s'
  | Thrown e s' => Thrown e s'
  end.

Definition throw {A} (e : Exn) : M A := λ s, Thrown e s.

Definition gets {A} (f : LokiExecutor → A) : M A := λ s, Returned (f s) s.

Definition modify (f : LokiExecutor → LokiExecutor) : M unit :=
  λ s, Returned () (f s).

(** A method call on [this.loki.getCollection(table)] that only
    reads.  [getCollection] yields [null] for a missing collection,
    and the call on it is a TypeError. *)
Definition collection_read {A} (table : string)
    (op : Loki.Collection → Exn + A) : M A := λ s,
  match Loki.getCollection table (loki s) with
  | None => Thrown (TypeError "Cannot read property of null") s
  | Some c =>
      match op c with
      | inr a => Returned a s
      | inl e => Thrown e s
      end
  end.

(** A method call on [this.loki.getCollection(table)] that changes
    the collection; the collection is part of the database, which
    sees the change also when the call throws. *)
Definition collection_call {A} (table : string)
    (op : Loki.Collection → Outcome Loki.Collection A) : M A := λ s,
  match Loki.getCollection table (loki s) with
  | None => Thrown (TypeError "Cannot read property of null") s
  | Some c =>
      match op c with
      | Returned a c' => Returned a (with_loki (<[table := c']> (loki s)) s)
      | Thrown e c' => Thrown e (with_loki (<[table := c']> (loki s)) s)
      end
  end.

(** *** The record cache *)

Definition isCached (table id : string) : M bool :=
  gets (λ s, match cachedRecords s !! table with
             | Some cachedSet => bool_decide (id ∈ cachedSet)
             | None => false
             end).

Definition markAsCached (table id : string) : M unit :=
  modify (λ s, match cachedRecords s !! table with
               | Some cachedSet =>
                   with_cachedRecords
                     (<[table := cachedSet ∪ {[id]}]> (cachedRecords s)) s
               | None =>
                   with_cachedRecords
                     (<[table := {[id]}]> (cachedRecords s)) s
               end).

Definition removeFromCache (table id : string) : M unit :=
  modify (λ s, match cachedRecords s !! table with
               | Some cachedSet =>
                   with_cachedRecords
                     (<[table := cachedSet ∖ {[id]}]> (cachedRecords s)) s
               | None => s
               end).

(** *** Records *)

Definition find (table id : string) : M CachedFindResult :=
  cached ← isCached table id;
  if (cached : bool) then mret (FoundId id)
  else
    raw ← collection_read table (Loki.by_ "id" id);
    match raw with
    | None => mret FoundNull
    | Some (_, raw) =>
        markAsCached table id;;
        tableSchema ← gets (λ s, table_schema (schema s) table);
        mret (FoundRaw (sanitizedRaw raw tableSchema))
    end.

Definition create (table : string) (raw : RawRecord) : M unit :=
  collection_call table (Loki.insert (raw_object raw));;
  markAsCached table (raw_id raw).

(** [collection.by('id', rawRecord.id).$loki] is a TypeError when
    [by] found nothing.  A found document always has its [$loki]; the
    copy made here of a missing one is an identity no document has. *)
Definition update (table : string) (rawRecord : RawRecord) : M unit :=
  found ← collection_read table (Loki.by_ "id" (raw_id rawRecord));
  match found with
  | None => throw (TypeError "Cannot read property '$loki' of undefined")
  | Some (_, saved) =>
      match saved !! "$loki" with
      | Some lokiId =>
          collection_call table
            (Loki.update (<["$loki" := lokiId]> (raw_object rawRecord)));;
          mret ()
      | None => throw (Error "Trying to update a document not in collection.")
      end
  end.

Definition destroyPermanently (table id : string) : M unit :=
  record ← collection_read table (Loki.by_ "id" id);
  collection_call table (Loki.remove (snd <$> record));;
  removeFromCache table id.

Definition markAsDeleted (table id : string) : M unit :=
  record ← collection_read table (Loki.by_ "id" id);
  match record with
  | Some (pos, record) =>
      collection_call table
        (Loki.update_in_place pos (<["_status" := VStr "deleted"]> record));;
      removeFromCache table id
  | None => mret ()
  end.

Definition batch_operation (operation : WorkerBatchOperation) : M unit :=
  let '(type, table, raw) := operation in
  if decide (type = "create") then create table raw
  else if decide (type = "update") then update table raw
  else if decide (type = "markAsDeleted") then markAsDeleted table (raw_id raw)
  else if decide (type = "destroyPermanently")
       then destroyPermanently table (raw_id raw)
  else mret ().

(** [list.forEach(f)]: in order, until one call throws. *)
Fixpoint forEach {A} (f : A → M unit) (l : list A) : M unit :=
  match l with
  | [] => mret ()
  | x :: l' => f x;; forEach f l'
  end.

Definition batch (operations : list WorkerBatchOperation) : M unit :=
  forEach batch_operation operations.

Definition getDeletedRecords (table : string) : M (list (option Value)) :=
  collection_read table
    (λ c, inr ((λ d : DirtyRaw, d !! "id")
                 <$> Loki.find_eq "_status" (VStr "deleted") c)).

(** The callback [destroyDeletedRecords] runs on each id. *)
Definition destroyDeletedRecord (table recordId : string) : M unit :=
  record ← collection_read table (Loki.by_ "id" recordId);
  match record with
  | Some (_, record) =>
      collection_call table (Loki.remove (Some record));; mret ()
  | None => mret ()
  end.

Definition destroyDeletedRecords (table : string) (records : list string)
  : M unit :=
  forEach (destroyDeletedRecord table) records.

(** *** LocalStorage *)

(** [this._localStorage && this._localStorage.by('key', key)]. *)
Definition _findLocal (key : string) : M (option (nat * DirtyRaw)) := λ s,
  match Loki.getCollection "local_storage" (loki s) with
  | None => Returned None s
  | Some localStorage =>
      match Loki.by_ "key" key localStorage with
      | inr record => Returned record s
      | inl e => Thrown e s
      end
  end.

(** [None] is [null] or a record without [value]. *)
Definition getLocal (key : string) : M (option Value) :=
  record ← _findLocal key;
  match record with
  | Some (_, record) => mret (record !! "value")
  | None => mret None
  end.

Definition setLocal (key value : string) : M unit :=
  record ← _findLocal key;
  match record with
  | Some (pos, record) =>
      collection_call "local_storage"
        (Loki.update_in_place pos (<["value" := VStr value]> record));;
      mret ()
  | None =>
      let newRecord : DirtyRaw :=
        <["key" := VStr key]> (<["value" := VStr value]> ∅) in
      collection_call "local_storage" (Loki.insert newRecord);;
      mret ()
  end.

Definition removeLocal (key : string) : M unit :=
  record ← _findLocal key;
  match record with
  | Some (_, record) =>
      collection_call "local_storage" (Loki.remove (Some record));;
      mret ()
  | None => mret ()
  end.

(** *** Internals *)

(** Modelled from the spec: [newLoki] and [loadDatabase] of
    [lokiExtensions], which are not in this file; opening yields the
    database as it is kept under [dbName]. *)
Definition _openDatabase : M unit :=
  modify (λ s, with_loki (persisted s) s).

(** Modelled from the spec: [deleteDatabase] of [lokiExtensions],
    which is not in this file; nothing is kept under [dbName]
    afterwards. *)
Definition deleteDatabase : M unit :=
  modify (with_persisted ∅).

Definition _addCollection (tableSchema : TableSchema) : M unit :=
  let indexedColumns :=
    foldl (λ (indexes : list string) column,
             if isIndexed column then (indexes ++ [column_name column])%list
             else indexes)
          [] (columns tableSchema) in
  modify (λ s, with_loki
                 (Loki.addCollection (table_name tableSchema) ["id"]
                    ("_status" :: indexedColumns) (loki s)) s).

(** The getter of [_databaseVersion]. *)
Definition get_databaseVersion : M Z :=
  local ← getLocal SCHEMA_VERSION_KEY;
  let databaseVersionRaw :=
    if JS.truthy local then default "" (JS.valueToString <$> local)
    else "" in
  mret (default 0 (JS.parseInt databaseVersionRaw)).

(** The setter of [_databaseVersion]. *)
Definition set_databaseVersion (version : Z) : M unit :=
  setLocal SCHEMA_VERSION_KEY (JS.toString version).

Definition _setUpSchema : M unit :=
  tableSchemas ← gets (λ s, snd <$> tables (schema s));
  forEach _addCollection tableSchemas;;
  modify (λ s, with_loki
                 (Loki.addCollection "local_storage" ["key"] [] (loki s)) s);;
  schemaVersion ← gets (λ s, version (schema s));
  set_databaseVersion schemaVersion.

Definition unsafeResetDatabase : M unit :=
  deleteDatabase;;
  modify (with_cachedRecords ∅);;
  _openDatabase;;
  _setUpSchema.

Definition _getMigrationSteps (fromVersion : Z)
  : M (option (list MigrationStep)) :=
  gets (λ s, match migrations s with
             | None => None
             | Some migrations =>
                 stepsForMigration migrations fromVersion
                                   (version (schema s))
             end).

Definition _executeCreateTableMigration (step : MigrationStep) : M unit :=
  _addCollection (mkTable (step_name step) (step_columns step)).

(** The callback [_executeAddColumnsMigration] gives to
    [findAndUpdate]: it sets every new column of the record. *)
Definition setNewColumns (columns : list ColumnSchema) (record : DirtyRaw)
  : DirtyRaw :=
  foldl (λ record column,
           setRawSanitized record (column_name column) VNull column)
        record columns.

(** The callback that adds the index of a new column, if needed. *)
Definition ensureColumnIndex (table : string) (column : ColumnSchema)
  : M unit :=
  if isIndexed column
  then collection_call table
         (λ c, Returned () (Loki.ensureIndex (column_name column) c))
  else mret ().

Definition _executeAddColumnsMigration (step : MigrationStep) : M unit :=
  let columns := step_columns step in
  collection_call (step_table step)
    (Loki.findAndUpdate (setNewColumns columns));;
  forEach (ensureColumnIndex (step_table step)) columns.

Definition _migrate_step (step : MigrationStep) : M unit :=
  if decide (step_type step = "create_table")
  then _executeCreateTableMigration step
  else if decide (step_type step = "add_columns")
  then _executeAddColumnsMigration step
  else throw (Error ("Unsupported migration step " +:+ step_type step)).

Definition _migrate (steps : list MigrationStep) : M unit :=
  forEach _migrate_step steps;;
  schemaVersion ← gets (λ s, version (schema s));
  set_databaseVersion schemaVersion.

Definition _migrateIfNeeded : M unit :=
  dbVersion ← get_databaseVersion;
  schemaVersion ← gets (λ s, version (schema s));
  if decide (dbVersion = schemaVersion) then mret ()
  else if decide (dbVersion = 0) then unsafeResetDatabase
  else if decide (dbVersion > 0 ∧ dbVersion < schemaVersion) then
    migrationSteps ← _getMigrationSteps dbVersion;
    match migrationSteps with
    | Some migrationSteps => _migrate migrationSteps
    | None => unsafeResetDatabase
    end
  else unsafeResetDatabase.

Definition setUp : M unit :=
  _openDatabase;;
  _migrateIfNeeded.

End Executor.

(** ** Vocabulary of the properties *)

(** A migration step [_migrate] knows how to execute. *)
Definition supported (step : MigrationStep) : Prop :=
  step_type step = "create_table" ∨ step_type step = "add_columns".

#[global] Instance supported_dec step : Decision (supported step).
Proof. unfold supported. apply _. Defined.

(** The collection a supported step works on. *)
Definition step_collection (step : MigrationStep) : string :=
  if decide (step_type step = "create_table") then step_name step
  else step_table step.

(** A collection of the local storage as [_setUpSchema] creates it. *)
Definition is_local_storage (c : Loki.Collection) : Prop :=
  Loki.wf c ∧ Loki.uniqueNames c = ["key"].

#[global] Instance is_local_storage_dec c : Decision (is_local_storage c).
Proof. unfold is_local_storage. apply _. Defined.

(** A string that begins with an integer as [parseInt] reads one:
    after the leading white space and an optional sign comes a decimal
    digit.  What follows the digits does not matter: ["12abc"] and
    ["4.9"] begin with an integer, ["abc"], ["-"] and [""] do not. *)
Definition begins_with_integer (text : string) : bool :=
  JS.starts_with_digit (JS.sign_and_rest text).2.

(** The collection after the indices of the new columns were
    ensured. *)
Definition with_column_indices (columns : list ColumnSchema)
    (c : Loki.Collection) : Loki.Collection :=
  foldl (λ c column,
           if isIndexed column then Loki.ensureIndex (column_name column) c
           else c) c columns.


(** Every collection of the database is a table without documents. *)
Definition empty_tables (db : Loki.Db) : Prop :=
  ∀ table c, db !! table = Some c → Loki.is_table c ∧ Loki.data c = [].

Section Vocabulary.
Context {SchemaMigrations : Type}.

(** The document [by(field, key)] finds in a collection of the
    database, if the collection and the document are there. *)
Definition stored (table field key : string)
    (s : @LokiExecutor SchemaMigrations) : option DirtyRaw :=
  c ← loki s !! table;
  snd <$> list_find (λ d, Loki.has_key field key d = true) (Loki.data c).

(** [id] is in the set the cache has for [table]. *)
Definition cached (table id : string)
    (s : @LokiExecutor SchemaMigrations) : Prop :=
  match cachedRecords s !! table with
  | Some cachedSet => id ∈ cachedSet
  | None => False
  end.

#[global] Instance cached_dec table id s : Decision (cached table id s).
Proof. unfold cached. destruct (cachedRecords s !! table); apply _. Defined.

(** Two states that differ in the database only. *)
Definition same_but_loki (s s' : @LokiExecutor SchemaMigrations) : Prop :=
  schema s' = schema s ∧ migrations s' = migrations s
  ∧ cachedRecords s' = cachedRecords s ∧ persisted s' = persisted s.

(** Two states with the same local storage. *)
Definition same_local_storage (s s' : @LokiExecutor SchemaMigrations)
  : Prop :=
  loki s' !! "local_storage" = loki s !! "local_storage".

(** Every collection of the database is as LokiJS maintains it, with
    the unique index of a table or of the local storage. *)
Definition maintained (s : @LokiExecutor SchemaMigrations) : Prop :=
  ∀ table c, loki s !! table = Some c →
    Loki.wf c ∧ (Loki.uniqueNames c = ["id"] ∨ Loki.uniqueNames c = ["key"]).

(** [maintained] is not lost from the first state to the second. *)
Definition stays_maintained (s s' : @LokiExecutor SchemaMigrations) : Prop :=
  maintained s → maintained s'.

(** [m] keeps its state within [R] of the one it started from,
    whether it returns or throws. *)
Definition preserves {A} (R : relation (@LokiExecutor SchemaMigrations))
    (m : M A) : Prop :=
  ∀ s, R s (outcome_state (m s)).

End Vocabulary.

(** ** A small database for the examples *)

Module Example.

(** Modelled from the spec: the value sanitizer of [RawRecord], which
    is not in this file; a value of the type of the column is kept,
    anything else becomes the default of the column: null when the
    column is optional, the empty value of its type otherwise. *)
Definition sanitizedValue (value : Value) (column : ColumnSchema) : Value :=
  let empty :=
    if isOptional column then VNull
    else if decide (column_type column = "string") then VStr ""
    else if decide (column_type column = "boolean") then VBool false
    else VNum 0 in
  match value with
  | VStr _ => if decide (column_type column = "string") then value else empty
  | VBool _ => if decide (column_type column = "boolean") then value else empty
  | VNum _ => if decide (column_type column = "number") then value else empty
  | VNull => empty
  end.

(** Modelled from the spec: [sanitizedRaw] of [RawRecord], which is
    not in this file; the record keeps its id and status and has
    every column of the table, sanitized. *)
Definition sanitizedRaw (dirtyRaw : DirtyRaw)
    (tableSchema : option TableSchema) : RawRecord :=
  mkRaw (default "" (Loki.key_of "id" dirtyRaw))
        (default "created" (Loki.key_of "_status" dirtyRaw))
        (list_to_map
           ((λ column,
               (column_name column,
                sanitizedValue (default VNull (dirtyRaw !! column_name column))
                               column))
              <$> from_option columns [] tableSchema)).

(** Modelled from the spec: [SchemaMigrations] and
    [stepsForMigration] of [Schema/migrations], which are not in this
    file; the declared migrations are looked up by their exact range
    of versions. *)
Definition SchemaMigrations : Type := list (Z * Z * list MigrationStep).

Definition stepsForMigration (migrations : SchemaMigrations)
    (fromVersion toVersion : Z) : option (list MigrationStep) :=
  snd <$> List.find (λ m, bool_decide (m.1 = (fromVersion, toVersion)))
                    migrations.

Definition title : ColumnSchema := mkColumn "title" "string" false true false.
Definition body : ColumnSchema := mkColumn "body" "string" true false false.
Definition likes : ColumnSchema := mkColumn "likes" "number" false true false.

(** Version 1 of the schema, and version 2 with two more columns. *)
Definition schema1 : AppSchema :=
  mkSchema 1 [("posts", mkTable "posts" [title])].
Definition schema2 : AppSchema :=
  mkSchema 2 [("posts", mkTable "posts" [title; body; likes])].

Definition addPostColumns : MigrationStep :=
  mkStep "add_columns" "" "posts" [body; likes].

Definition migrations : SchemaMigrations := [(1, 2, [addPostColumns])].

(** A new executor on an empty disk, and the state its [setUp]
    leaves. *)
Definition fresh : @LokiExecutor SchemaMigrations := mkExecutor schema1 None ∅ ∅ ∅.

Definition ready : @LokiExecutor SchemaMigrations :=
  outcome_state (setUp stepsForMigration sanitizedValue fresh).

Definition post1 : RawRecord :=
  mkRaw "p1" "created" {[ "title" := VStr "Hello" ]}.
Definition post1' : RawRecord :=
  mkRaw "p1" "updated" {[ "title" := VStr "Hello again" ]}.
Definition post2 : RawRecord :=
  mkRaw "p2" "created" {[ "title" := VStr "World" ]}.

(** The executor after two records were created. *)
Definition two_posts : @LokiExecutor SchemaMigrations :=
  outcome_state (batch [("create", "posts", post1);
                        ("create", "posts", post2)] ready).

(** The same database opened by a new executor: nothing is cached. *)
Definition reopened : @LokiExecutor SchemaMigrations :=
  mkExecutor schema1 None (loki two_posts) ∅ (loki two_posts).

(** The same database found by an executor built with version 2 of
    the schema and the migration to it. *)
Definition upgrading : @LokiExecutor SchemaMigrations :=
  mkExecutor schema2 (Some migrations) ∅ ∅ (loki two_posts).

(** The executor after the records of [p1] was destroyed by
    [destroyDeletedRecords]. *)
Definition p1_destroyed : @LokiExecutor SchemaMigrations :=
  outcome_state (destroyDeletedRecords "posts" ["p1"] two_posts).

(** A migration that rewrites the local storage and then has a step
    of a type [_migrate] does not know. *)
Definition bad_steps : list MigrationStep :=
  [mkStep "add_columns" "" "local_storage"
     [mkColumn "value" "string" false false false];
   mkStep "rename_column" "" "posts" []].

(** A migration with a step of a type [_migrate] does not know after
    a step on a table. *)
Definition failing_steps : list MigrationStep :=
  [addPostColumns; mkStep "rename_column" "" "posts" []].

Definition opened_for_upgrade : @LokiExecutor SchemaMigrations :=
  mkExecutor schema2 (Some migrations) (loki two_posts) ∅ (loki two_posts).

(** The state after the migration to version 2, and that database
    found by an executor built with version 1 of the schema. *)
Definition upgraded : @LokiExecutor SchemaMigrations :=
  outcome_state (setUp stepsForMigration sanitizedValue upgrading).

Definition downgrading : @LokiExecutor SchemaMigrations :=
  mkExecutor schema1 None ∅ ∅ (loki upgraded).

(** A new executor, on an empty disk, whose schema has the version
    10^21: a number JavaScript holds exactly and prints as [1e+21]. *)
Definition schema_1e21 : AppSchema :=
  mkSchema (10 ^ 21) [("posts", mkTable "posts" [title])].

Definition fresh_1e21 : @LokiExecutor SchemaMigrations :=
  mkExecutor schema_1e21 None ∅ ∅ ∅.


Definition marker_abc : @LokiExecutor SchemaMigrations :=
  outcome_state (setLocal SCHEMA_VERSION_KEY "abc" ready).

(** The collection of a name in a state, and the document under an
    id in the table of the posts. *)
Definition collection (name : string) (s : @LokiExecutor SchemaMigrations)
  : Loki.Collection :=
  default (Loki.newCollection name [] []) (loki s !! name).

Definition post (id : string) (s : @LokiExecutor SchemaMigrations)
  : DirtyRaw :=
  default ∅ (stored "posts" "id" id s).

End Example.

(** ** Queries *)

Section Queries.
Context {SchemaMigrations : Type}.

(** [sanitizedRaw(dirtyRaw, tableSchema)] of [RawRecord]. *)
Variable sanitizedRaw : DirtyRaw → option TableSchema → RawRecord.

(** [SerializedQuery] of [Query], of which the executor reads
    [table]. *)
Context {SerializedQuery : Type}.
Variable query_table : SerializedQuery → string.

(** [executeQuery(query, loki)] of [executeQuery.js], which is another
    file: the LokiJS result set of the query, held as the documents its
    [data()] yields, or what the call throws.  [count()] of a result
    set is the number of these documents. *)
Variable executeQuery : SerializedQuery → Loki.Db → Exn + list DirtyRaw.

(** [CachedQueryResult = Array<RecordId | RawRecord>]. *)
Definition CachedQueryResult : Type := list CachedFindResult.

(** The callback [_compactQueryResults] maps over the records.  The
    cache holds ids that are strings, as a [RecordId] is, and so is the
    [id] of every document [create] inserts.  For a document whose
    [id] is no string the model is right only the first time that id
    is met: the document is sent in full, and no string id gets
    cached. *)
Definition compactQueryResult (table : string) (raw : DirtyRaw)
  : M (SchemaMigrations := SchemaMigrations) CachedFindResult :=
  match raw !! "id" with
  | Some (VStr id) =>
      cached ← isCached table id;
      if (cached : bool) then mret (FoundId id)
      else
        markAsCached table id;;
        tableSchema ← gets (λ s, table_schema (schema s) table);
        mret (FoundRaw (sanitizedRaw raw tableSchema))
  | _ =>
      tableSchema ← gets (λ s, table_schema (schema s) table);
      mret (FoundRaw (sanitizedRaw raw tableSchema))
  end.

(** [records.map(callback)]: in the order of [records]. *)
Definition _compactQueryResults (records : list DirtyRaw) (table : string)
  : M (SchemaMigrations := SchemaMigrations) CachedQueryResult :=
  mapM (compactQueryResult table) records.

Definition query (q : SerializedQuery)
  : M (SchemaMigrations := SchemaMigrations) CachedQueryResult :=
  resultset ← gets (λ s, executeQuery q (loki s));
  match resultset with
  | inr records => _compactQueryResults records (query_table q)
  | inl e => throw e
  end.

Definition count (q : SerializedQuery)
  : M (SchemaMigrations := SchemaMigrations) Z :=
  resultset ← gets (λ s, executeQuery q (loki s));
  match resultset with
  | inr records => mret (Z.of_nat (length records))
  | inl e => throw e
  end.

End Queries.

(** ** Vocabulary of the further properties *)

(** The ids, as far as they are strings, of a list of documents. *)
Definition ids_of (records : list DirtyRaw) : list string :=
  omap (Loki.key_of "id") records.

(** The record ids in what [getDeletedRecords] returns. *)
Definition record_ids (found : list (option Value)) : list string :=
  omap (λ v, match v with Some (VStr id) => Some id | _ => None end) found.

(** An operation [batch] has a case for. *)
Definition known_operation (operation : WorkerBatchOperation) : Prop :=
  operation.1.1 ∈ ["create"; "update"; "markAsDeleted"; "destroyPermanently"].

#[global] Instance known_operation_dec operation :
  Decision (known_operation operation).
Proof. unfold known_operation. apply _. Defined.

(** A record that is marked as deleted. *)
Definition is_deleted (d : DirtyRaw) : Prop :=
  d !! "_status" = Some (VStr "deleted").

#[global] Instance is_deleted_dec d : Decision (is_deleted d).
Proof. unfold is_deleted. apply _. Defined.

(** Two states with the same collection, or none, under a name. *)
Definition same_collection {SchemaMigrations : Type} (table : string)
    (s s' : @LokiExecutor SchemaMigrations) : Prop :=
  loki s' !! table = loki s !! table.

(** ** More of the example database *)

Module ExampleQueries.
Import Example.

(** Modelled from the spec: [SerializedQuery] and [executeQuery],
    which are not in this file; a query without conditions, held as the
    name of its table, selects every document of the table. *)
Definition SerializedQuery : Type := string.

Definition query_table (q : SerializedQuery) : string := q.

Definition executeQuery (q : SerializedQuery) (db : Loki.Db)
  : Exn + list DirtyRaw :=
  match db !! q with
  | Some c => inr (Loki.data c)
  | None => inl (TypeError "Cannot read property of null")
  end.

(** The executor after the first record was created, and after the
    second one was marked as deleted. *)
Definition one_post : @LokiExecutor SchemaMigrations :=
  outcome_state (create "posts" post1 ready).

Definition p2_deleted : @LokiExecutor SchemaMigrations :=
  outcome_state (markAsDeleted "posts" "p2" two_posts).

(** A migration whose second step adds a column to a table that does
    not exist. *)
Definition steps_on_missing_table : list MigrationStep :=
  [addPostColumns; mkStep "add_columns" "" "comments" [body]].

End ExampleQueries.

(** * Properties *)

(** ** Decimal strings *)

Module JSFacts.
Import JS.

Example parseInt_42 : JS.parseInt "42" = Some 42.
Proof. vm_compute. reflexivity. Qed.
Example parseInt_prefix : JS.parseInt "  -12abc" = Some (-12).
Proof. vm_compute. reflexivity. Qed.
Example parseInt_fraction : JS.parseInt "4.9" = Some 4.
Proof. vm_compute. reflexivity. Qed.
Example parseInt_word : JS.parseInt "abc" = None.
Proof. vm_compute. reflexivity. Qed.
Example parseInt_empty : JS.parseInt "" = None.
Proof. vm_compute. reflexivity. Qed.
Example parseInt_nbsp :
  JS.parseInt (String (ascii_of_N 194) (String (ascii_of_N 160) " 7")) = Some 7.
Proof. vm_compute. reflexivity. Qed.
Example parseInt_rounds :
  JS.parseInt "9007199254740993" = Some 9007199254740992.
Proof. vm_compute. reflexivity. Qed.
Example parseInt_exponent : JS.parseInt "1e+21" = Some 1.
Proof. vm_compute. reflexivity. Qed.
Example toString_1207 : JS.toString 1207 = "1207".
Proof. vm_compute. reflexivity. Qed.
Example toString_0 : JS.toString 0 = "0".
Proof. vm_compute. reflexivity. Qed.
Example toString_neg : JS.toString (-30) = "-30".
Proof. vm_compute. reflexivity. Qed.
Example toString_2_53 : JS.toString (2 ^ 53) = "9007199254740992".
Proof. vm_compute. reflexivity. Qed.
Example toString_2_60 : JS.toString (2 ^ 60) = "1152921504606847000".
Proof. vm_compute. reflexivity. Qed.
Example toString_1e21 : JS.toString (10 ^ 21) = "1e+21".
Proof. vm_compute. reflexivity. Qed.
Example toString_2_70 : JS.toString (2 ^ 70) = "1.1805916207174113e+21".
Proof. vm_compute. reflexivity. Qed.
Example toString_Infinity : JS.toString (2 ^ 1024) = "Infinity".
Proof. vm_compute. reflexivity. Qed.

(** A safe integer is a number, and prints as its decimal digits. *)
Lemma toNumber_safe (n : Z) : isSafeInteger n → toNumber n = n.
Proof.
  unfold isSafeInteger, toNumber. intros H. cbv zeta.
  by rewrite (proj2 (Z.leb_le _ _)) by lia.
Qed.

Lemma toString_safe (n : Z) : isSafeInteger n → toString n = decimal n.
Proof.
  intros H. unfold toString. rewrite (toNumber_safe n H). cbv zeta.
  unfold isSafeInteger in H. by rewrite (proj2 (Z.leb_le _ _)) by lia.
Qed.

Lemma digits_string_of_uint (d : Decimal.uint) (acc : N) :
  digits (NilEmpty.string_of_uint d) acc
  = (DecimalPos.Unsigned.of_lu (Decimal.rev d)
     + acc * 10 ^ DecimalPos.Unsigned.usize d)%N.
Proof.
  revert acc.
  induction d as [|d IH|d IH|d IH|d IH|d IH|d IH|d IH|d IH|d IH|d IH];
    intros acc; simpl NilEmpty.string_of_uint; simpl DecimalPos.Unsigned.usize.
  1: { simpl. lia. }
  all: unfold Decimal.rev; simpl Decimal.revapp;
    rewrite DecimalPos.Unsigned.of_lu_revapp;
    simpl digits; rewrite IH; simpl DecimalPos.Unsigned.of_lu;
    rewrite N.pow_succ_r'; unfold Decimal.rev; lia.
Qed.

(** The decimal digits of a positive number: they start with a digit
    and read back as that number. *)
Lemma digits_of_positive (p : positive) :
  ∃ a s, NilZero.string_of_uint (Pos.to_uint p) = String a s
         ∧ is_Some (digit_of a)
         ∧ digits (String a s) 0 = Npos p.
Proof.
  pose proof (DecimalPos.Unsigned.to_uint_nonnil p) as Hnil.
  pose proof (DecimalPos.Unsigned.of_to p) as Hof.
  rewrite DecimalPos.Unsigned.of_uint_alt in Hof.
  assert (NilZero.string_of_uint (Pos.to_uint p)
          = NilEmpty.string_of_uint (Pos.to_uint p)) as ->.
  { unfold NilZero.string_of_uint. by destruct (Pos.to_uint p). }
  pose proof (digits_string_of_uint (Pos.to_uint p) 0) as Hdig.
  rewrite Hof in Hdig.
  destruct (Pos.to_uint p) as [|d|d|d|d|d|d|d|d|d|d]; [done|..].
  all: eexists _, _; split; [reflexivity|].
  all: split; [by eexists|].
  all: etrans; [exact Hdig|lia].
Qed.

(** A digit is neither a sign nor white space. *)
Lemma digit_not_sign (a : ascii) :
  is_Some (digit_of a) → a ≠ "-"%char ∧ a ≠ "+"%char.
Proof. intros [d Hd]. split; intros ->; discriminate Hd. Qed.

(** A string that starts with an ASCII character other than white
    space has nothing to trim. *)
Lemma trimStart_ascii (a : ascii) (s : string) :
  (N_of_ascii a < 128)%N → is_space a = false →
  trimStart (String a s) = String a s.
Proof.
  intros Hlt Hsp.
  assert (E : ∀ k, (128 ≤ k)%N → (N_of_ascii a =? k)%N = false)
    by (intros; apply N.eqb_neq; lia).
  assert (H2 : ∀ b, is_space2 a b = false).
  { intros b. unfold is_space2. by rewrite E by lia. }
  assert (H3 : ∀ b c, is_space3 a b c = false).
  { intros b c. unfold is_space3. by rewrite !E by lia. }
  destruct s as [|b [|c s3]]; cbn [trimStart]; rewrite Hsp, ?H2, ?H3; done.
Qed.

Lemma digit_ascii (a : ascii) :
  is_Some (digit_of a) → (N_of_ascii a < 128)%N ∧ is_space a = false.
Proof.
  intros [d Hd]. unfold digit_of in Hd. unfold is_space.
  destruct (48 <=? N_of_ascii a)%N eqn:H1; [|done].
  destruct (N_of_ascii a <=? 57)%N eqn:H2; [|done].
  apply N.leb_le in H1, H2. split; [lia|].
  assert ((N_of_ascii a <=? 13)%N = false) as -> by (apply N.leb_gt; lia).
  assert ((N_of_ascii a =? 32)%N = false) as -> by (apply N.eqb_neq; lia).
  by rewrite andb_false_r.
Qed.

Lemma sign_and_rest_digit (a : ascii) (s : string) :
  is_Some (digit_of a) →
  sign_and_rest (String a s) = (1, String a s)
  ∧ sign_and_rest (String "-" (String a s)) = (-1, String a s).
Proof.
  intros Hd. destruct (digit_not_sign a Hd) as [Hm Hp].
  destruct (digit_ascii a Hd) as [Hlt Hsp].
  unfold sign_and_rest. split.
  - rewrite trimStart_ascii by done.
    destruct a as [[] [] [] [] [] [] [] []]; try reflexivity; done.
  - by rewrite trimStart_ascii by (by vm_compute).
Qed.

Lemma mathInt_digits (a : ascii) (s : string) :
  is_Some (digit_of a) →
  mathInt (String a s) = Some (Z.of_N (digits (String a s) 0))
  ∧ mathInt (String "-" (String a s))
    = Some (- Z.of_N (digits (String a s) 0)).
Proof.
  intros Hd. destruct (sign_and_rest_digit a s Hd) as [H1 H2].
  assert (Hst : starts_with_digit (String a s) = true).
  { simpl. by apply bool_decide_eq_true_2. }
  unfold mathInt. rewrite H1, H2, Hst. split; f_equal; lia.
Qed.

(** The decimal digits of an integer stand for that integer. *)
Lemma mathInt_decimal (v : Z) : mathInt (decimal v) = Some v.
Proof.
  unfold decimal. destruct v as [|p|p]; [reflexivity|..];
    simpl Z.to_int; unfold NilZero.string_of_int;
    destruct (digits_of_positive p) as (a & s & -> & Hd & Hv);
    destruct (mathInt_digits a s Hd) as [H1 H2].
  - rewrite H1, Hv. done.
  - rewrite H2, Hv. done.
Qed.

Lemma decimal_nonempty (v : Z) : decimal v ≠ "".
Proof.
  unfold decimal. destruct v as [|p|p]; [done|..];
    simpl Z.to_int; unfold NilZero.string_of_int;
    destruct (digits_of_positive p) as (a & s & -> & _); done.
Qed.

(** [parseInt] reads back what [toString] wrote for a safe integer.
    It does not from 10^21 on, where [toString] writes an exponent:
    see [toString_1e21] and [parseInt_exponent]. *)
Lemma parseInt_toString (v : Z) :
  isSafeInteger v → parseInt (toString v) = Some v.
Proof.
  intros H. rewrite (toString_safe v H). unfold parseInt.
  rewrite mathInt_decimal. simpl. by rewrite (toNumber_safe v H).
Qed.

Lemma toString_nonempty (v : Z) : isSafeInteger v → toString v ≠ "".
Proof. intros H. rewrite (toString_safe v H). apply decimal_nonempty. Qed.

End JSFacts.

(** ** The store *)

Module LokiFacts.
Import Loki.

Lemma has_key_key_of (field key : string) (d : DirtyRaw) :
  has_key field key d = true ↔ key_of field d = Some key.
Proof.
  unfold has_key, key_of. rewrite bool_decide_eq_true.
  destruct (d !! field) as [[]|]; naive_solver.
Qed.

Lemma omap_insert_same {A B} (g : A → option B) (l : list A) i x y :
  l !! i = Some x → g y = g x → omap g (<[i := y]> l) = omap g l.
Proof.
  revert i. induction l as [|z l IH]; intros [|i] Hi Hg; simplify_eq/=.
  - by rewrite Hg.
  - by rewrite (IH i).
Qed.

Lemma omap_delete_sublist {A B} (g : A → option B) (l : list A) i :
  omap g (delete i l) `sublist_of` omap g l.
Proof.
  revert i. induction l as [|z l IH]; intros [|i]; simpl; try done.
  - destruct (g z); [by apply sublist_cons|done].
  - destruct (g z); [by apply sublist_skip|]. apply IH.
Qed.

Lemma elem_of_omap_lookup {A B} (g : A → option B) (l : list A) i x b :
  l !! i = Some x → g x = Some b → b ∈ omap g l.
Proof.
  intros Hi Hg. apply list_elem_of_omap. exists x. split; [|done].
  by eapply list_elem_of_lookup_2.
Qed.

(** With distinct [$loki]s, a document is found where it is. *)
Lemma position_lookup (l : list DirtyRaw) i d n :
  NoDup (omap loki_id l) → l !! i = Some d → loki_id d = Some n →
  position n l = Some i.
Proof.
  revert i. induction l as [|d0 l IH]; intros i Hnd Hi Hn; [done|].
  simpl. unfold has_loki_id. case_bool_decide as Hd0.
  - destruct i as [|i]; [done|]. simpl in Hi, Hnd. rewrite Hd0 in Hnd.
    apply NoDup_cons_1_1 in Hnd. destruct Hnd.
    by eapply elem_of_omap_lookup.
  - destruct i as [|i]; simplify_eq/=.
    rewrite (IH i); try done.
    destruct (loki_id d0); [by eapply NoDup_cons_1_2|done].
Qed.


(** With distinct keys, the others do not hold the key of the
    document at [i]. *)
Lemma no_key_clash (field : string) (l : list DirtyRaw) i d d' :
  NoDup (omap (key_of field) l) → l !! i = Some d →
  key_of field d' = key_of field d →
  key_clash field d' (delete i l) = false.
Proof.
  intros Hnd Hi Hk. unfold key_clash.
  destruct (d' !! field) as [[|key| |]|] eqn:Hf; try done.
  assert (key_of field d = Some key) as Hkd.
  { rewrite <- Hk. unfold key_of. by rewrite Hf. }
  apply not_true_is_false. intros (d2 & Hin & Hk2)%existsb_exists.
  apply has_key_key_of in Hk2.
  rewrite <- (take_drop_middle l i d Hi) in Hnd.
  rewrite omap_app in Hnd. simpl in Hnd. rewrite Hkd in Hnd.
  apply NoDup_app in Hnd as (_ & Hdisj & Htl).
  apply NoDup_cons in Htl as [Hnotin _].
  apply list_elem_of_In in Hin. rewrite delete_take_drop in Hin.
  apply elem_of_app in Hin as [Hin|Hin].
  - apply (Hdisj key); [|left]. apply list_elem_of_omap. eauto.
  - apply Hnotin. apply list_elem_of_omap. eauto.
Qed.

Lemma update_Returned (doc r : DirtyRaw) (c c' : Collection) :
  update doc c = Returned r c' →
  ∃ pos, r = doc ∧ c' = set_data c (<[pos := doc]> (data c)).
Proof.
  unfold update. intros H.
  destruct (doc !! "$loki") as [v|]; [|done].
  destruct (match v with VNum n => position n (data c) | _ => None end)
    as [pos|]; [|done].
  destruct (any_key_clash c doc (delete pos (data c))); [done|].
  exists pos. by simplify_eq.
Qed.

Section find.
Context {A : Type} (P : A → Prop) `{!∀ x, Decision (P x)}.

Lemma list_find_insert_hit (l : list A) i x y :
  list_find P l = Some (i, x) → P y →
  list_find P (<[i := y]> l) = Some (i, y).
Proof.
  intros (Hi & _ & Hmin)%list_find_Some Hy.
  apply list_find_insert_Some. right; left.
  split_and!; [done..| |done|done].
  by eapply lookup_lt_Some.
Qed.

Lemma list_find_insert_again (l : list A) i j y :
  list_find P l = Some (i, y) → P y →
  ∃ k, list_find P (<[j := y]> l) = Some (k, y).
Proof.
  intros Hfind Hy. pose proof Hfind as (Hi & _ & Hmin)%list_find_Some.
  pose proof (lookup_lt_Some _ _ _ Hi) as Hlen.
  destruct (decide (j < i)%nat) as [Hlt|Hge].
  - exists j. apply list_find_insert_Some. right; left.
    split_and!; [done..|lia|done|].
    intros i' z Hz Hi'. apply (Hmin i' z Hz). lia.
  - exists i. destruct (decide (j = i)) as [->|Hne].
    + by rewrite list_insert_id.
    + apply list_find_insert_Some. left. split; [lia|done].
Qed.
End find.

(** After [record.f = v; collection.update(record)] on the record
    [by] found, [by] finds the changed record. *)
Lemma by_after_update_in_place (field key : string) (c c' : Collection)
    pos d d' r :
  list_find (λ d, has_key field key d = true) (data c) = Some (pos, d) →
  has_key field key d' = true →
  update_in_place pos d' c = Returned r c' →
  uniqueNames c' = uniqueNames c
  ∧ ∃ j, list_find (λ d, has_key field key d = true) (data c')
         = Some (j, d').
Proof.
  intros Hfind Hkey (p & -> & ->)%update_Returned. split; [done|].
  simpl. eapply list_find_insert_again; [|done].
  by eapply list_find_insert_hit.
Qed.

Lemma insert_Returned (doc r : DirtyRaw) (c c' : Collection) :
  insert doc c = Returned r c' →
  r = <["$loki" := VNum (maxId c + 1)]> doc
  ∧ c' = mkCollection (name c) (data c ++ [r]) (maxId c + 1)
                      (uniqueNames c) (binaryIndices c).
Proof.
  unfold insert. intros H. case_decide; [done|].
  destruct (any_key_clash _ _ _); [done|]. by simplify_eq.
Qed.

(** After inserting a document under a key [by] did not find, [by]
    finds that document. *)
Lemma by_after_insert (field key : string) (c c' : Collection) doc r :
  list_find (λ d, has_key field key d = true) (data c) = None →
  field ≠ "$loki" → has_key field key doc = true →
  insert doc c = Returned r c' →
  uniqueNames c' = uniqueNames c
  ∧ list_find (λ d, has_key field key d = true) (data c')
    = Some (length (data c), r)
  ∧ r = <["$loki" := VNum (maxId c + 1)]> doc.
Proof.
  intros Hnone Hf Hkey [-> ->]%insert_Returned. split; [done|].
  split; [|done]. simpl. rewrite list_find_app_r by done. simpl.
  rewrite decide_True; [done|].
  unfold has_key in *. apply bool_decide_eq_true.
  apply bool_decide_eq_true in Hkey. by rewrite lookup_insert_ne.
Qed.

Lemma loki_id_Some (d : DirtyRaw) n :
  loki_id d = Some n ↔ d !! "$loki" = Some (VNum n).
Proof.
  unfold loki_id. destruct (d !! "$loki") as [[]|]; naive_solver.
Qed.

Lemma set_data_id (c : Collection) : set_data c (data c) = c.
Proof. by destruct c. Qed.

Lemma any_key_clash_false (c : Collection) d others :
  Forall (λ field, key_clash field d others = false) (uniqueNames c) →
  any_key_clash c d others = false.
Proof.
  unfold any_key_clash. induction 1 as [|f fs Hf _ IH]; [done|].
  simpl. by rewrite Hf, IH.
Qed.

(** *** The invariant is kept *)

Lemma wf_insert_same (c : Collection) i d d' :
  wf c → data c !! i = Some d →
  d' !! "$loki" = d !! "$loki" →
  Forall (λ field, key_of field d' = key_of field d) (uniqueNames c) →
  wf (set_data c (<[i := d']> (data c))).
Proof.
  intros (Hiss & Hnd & Hkeys) Hi Hl Hk.
  assert (loki_id d' = loki_id d) as Hid by (unfold loki_id; by rewrite Hl).
  split_and!; simpl.
  - apply Forall_insert; [done|].
    unfold issued. rewrite Hid.
    by apply (Forall_lookup_1 _ _ _ _ Hiss Hi).
  - by rewrite (omap_insert_same _ _ _ d).
  - rewrite Forall_forall in Hkeys, Hk. apply Forall_forall.
    intros f Hf. rewrite (omap_insert_same _ _ _ d); auto.
Qed.

Lemma wf_delete (c : Collection) i :
  wf c → wf (set_data c (delete i (data c))).
Proof.
  intros (Hiss & Hnd & Hkeys). split_and!; simpl.
  - by apply Forall_delete.
  - eapply sublist_NoDup; [|apply omap_delete_sublist]; done.
  - eapply Forall_impl; [exact Hkeys|]. intros f Hf. simpl in Hf.
    eapply sublist_NoDup; [|apply omap_delete_sublist]; done.
Qed.

(** *** The calls go through on a collection LokiJS maintains *)

(** [collection.update(doc)] with the stored document itself. *)
Lemma update_stored (c : Collection) i d :
  wf c → data c !! i = Some d → update d c = Returned d c.
Proof.
  intros (Hiss & Hnd & Hkeys) Hi. unfold update.
  pose proof (Forall_lookup_1 _ _ _ _ Hiss Hi) as Hd. unfold issued in Hd.
  destruct (loki_id d) as [n|] eqn:Hn; [|done].
  apply loki_id_Some in Hn as Hv. rewrite Hv.
  rewrite (position_lookup _ i d n) by done.
  rewrite any_key_clash_false.
  - by rewrite list_insert_id, set_data_id.
  - eapply Forall_impl; [exact Hkeys|]. intros f Hf. simpl in Hf.
    by eapply no_key_clash.
Qed.

Lemma update_in_place_ok (c : Collection) i d d' :
  wf c → data c !! i = Some d →
  d' !! "$loki" = d !! "$loki" →
  Forall (λ field, key_of field d' = key_of field d) (uniqueNames c) →
  update_in_place i d' c
  = Returned d' (set_data c (<[i := d']> (data c))).
Proof.
  intros Hwf Hi Hl Hk. unfold update_in_place.
  apply (update_stored _ i).
  - by eapply wf_insert_same.
  - simpl. apply list_lookup_insert_eq. by eapply lookup_lt_Some.
Qed.

(** [collection.remove(doc)] with a stored document. *)
Lemma remove_stored (c : Collection) i d :
  wf c → data c !! i = Some d →
  remove (Some d) c
  = Returned (Some (base.delete "$loki" d))
             (set_data c (delete i (data c))).
Proof.
  intros (Hiss & Hnd & Hkeys) Hi. unfold remove.
  pose proof (Forall_lookup_1 _ _ _ _ Hiss Hi) as Hd. unfold issued in Hd.
  destruct (loki_id d) as [n|] eqn:Hn; [|done].
  apply loki_id_Some in Hn as Hv. rewrite Hv.
  by rewrite (position_lookup _ i d n).
Qed.

(** [collection.insert(doc)] with a new document whose keys are
    free. *)
Lemma insert_new (c : Collection) doc :
  wf c → doc !! "$loki" = None → "$loki" ∉ uniqueNames c →
  Forall (λ field, key_clash field doc (data c) = false) (uniqueNames c) →
  let obj := <["$loki" := VNum (maxId c + 1)]> doc in
  let c' := mkCollection (name c) (data c ++ [obj]) (maxId c + 1)
                         (uniqueNames c) (binaryIndices c) in
  insert doc c = Returned obj c' ∧ wf c'.
Proof.
  intros (Hiss & Hnd & Hkeys) Hl Hu Hfree obj c'.
  assert (Hko : ∀ f, f ∈ uniqueNames c → key_of f obj = key_of f doc).
  { intros f Hf. unfold key_of, obj. rewrite lookup_insert_ne; [done|].
    by intros <-. }
  assert (Hkc : ∀ f others, f ∈ uniqueNames c →
                key_clash f obj others = key_clash f doc others).
  { intros f others Hf. unfold key_clash, obj.
    rewrite lookup_insert_ne; [done|]. by intros <-. }
  split.
  - unfold insert. rewrite decide_False by (rewrite Hl; by intros [??]).
    rewrite any_key_clash_false; [done|].
    rewrite Forall_forall in Hfree. apply Forall_forall. intros f Hf.
    rewrite Hkc by done. auto.
  - split_and!; simpl.
    + apply Forall_app. split.
      * eapply Forall_impl; [exact Hiss|]. intros d. unfold issued. simpl.
        destruct (loki_id d); [lia|done].
      * apply Forall_singleton. unfold issued, loki_id, obj. simpl.
        rewrite lookup_insert_eq. lia.
    + rewrite omap_app. apply NoDup_app. split_and!; [done| |].
      * intros n (d & Hd & Hn)%list_elem_of_omap. simpl.
        unfold loki_id at 1, obj. rewrite lookup_insert_eq.
        rewrite Forall_forall in Hiss. specialize (Hiss d Hd).
        unfold issued in Hiss. rewrite Hn in Hiss.
        intros ->%list_elem_of_singleton. lia.
      * simpl. destruct (loki_id obj); [apply NoDup_singleton|apply NoDup_nil_2].
    + rewrite Forall_forall in Hkeys, Hfree. apply Forall_forall.
      intros f Hf. rewrite omap_app. apply NoDup_app.
      split_and!; [by auto| |].
      * intros k (d & Hd & Hk)%list_elem_of_omap. simpl.
        rewrite Hko by done.
        destruct (key_of f doc) as [k'|] eqn:Hk'; [|by apply not_elem_of_nil].
        intros ->%list_elem_of_singleton.
        specialize (Hfree f Hf). unfold key_clash in Hfree.
        unfold key_of in Hk'.
        destruct (doc !! f) as [[]|]; simplify_eq.
        apply not_true_iff_false in Hfree. apply Hfree.
        apply existsb_exists. exists d. split.
        -- by apply list_elem_of_In.
        -- by apply has_key_key_of.
      * simpl. destruct (key_of f obj); [apply NoDup_singleton|apply NoDup_nil_2].
Qed.

(** [collection.update(doc)] with a new version of a stored document
    that has its [$loki] and its keys. *)
Lemma update_replace (c : Collection) i d d' :
  wf c → data c !! i = Some d →
  d' !! "$loki" = d !! "$loki" →
  Forall (λ field, key_of field d' = key_of field d) (uniqueNames c) →
  update d' c = Returned d' (set_data c (<[i := d']> (data c))).
Proof.
  intros (Hiss & Hnd & Hkeys) Hi Hl Hk. unfold update.
  pose proof (Forall_lookup_1 _ _ _ _ Hiss Hi) as Hd. unfold issued in Hd.
  destruct (loki_id d) as [n|] eqn:Hn; [|done].
  apply loki_id_Some in Hn as Hv. rewrite Hl, Hv.
  rewrite (position_lookup _ i d n) by done.
  rewrite any_key_clash_false; [done|].
  rewrite Forall_forall in Hkeys, Hk. apply Forall_forall. intros f Hf.
  eapply no_key_clash; eauto.
Qed.

Lemma insert_at_end {A} (l : list A) (x y : A) :
  <[length l := y]> (l ++ [x])%list = (l ++ [y])%list.
Proof. induction l as [|z l IH]; simpl; [done|]. by rewrite IH. Qed.

Lemma delete_at_end {A} (l : list A) (x : A) :
  delete (length l) (l ++ [x])%list = l.
Proof. induction l as [|z l IH]; simpl; [done|]. by rewrite IH. Qed.

Lemma lookup_at_end {A} (l : list A) (x : A) :
  (l ++ [x])%list !! length l = Some x.
Proof. induction l as [|z l IH]; simpl; done. Qed.

(** *** Rewriting every document *)

Lemma updateEach_seq (f : DirtyRaw → DirtyRaw) (c : Collection)
    (pre suf : list DirtyRaw) :
  keeps_identity c f → wf (set_data c (pre ++ suf)) →
  updateEach f (seq (length pre) (length suf)) (set_data c (pre ++ suf))
  = Returned () (set_data c (pre ++ (f <$> suf))).
Proof.
  intros Hf. revert pre. induction suf as [|d suf IH]; intros pre Hwf.
  { done. }
  cbn [length seq updateEach]. cbn [data set_data].
  rewrite list_lookup_middle by done.
  destruct (Hf d) as [Hl Hk].
  rewrite (update_in_place_ok _ (List.length pre) d (f d));
    [|done|by apply list_lookup_middle|done|done].
  cbn [data set_data name maxId uniqueNames binaryIndices].
  assert (<[List.length pre := f d]> (pre ++ d :: suf)%list
          = ((pre ++ [f d]) ++ suf)%list) as Hins.
  { rewrite <- (Nat.add_0_r (List.length pre)), insert_app_r. simpl.
    by rewrite <- app_assoc. }
  rewrite Hins.
  replace (S (List.length pre)) with (List.length (pre ++ [f d])%list)
    by (rewrite length_app; simpl; lia).
  change (set_data (set_data c (pre ++ d :: suf)%list)
                   ((pre ++ [f d]) ++ suf)%list)
    with (set_data c ((pre ++ [f d]) ++ suf)%list).
  rewrite IH.
  - by rewrite <- app_assoc.
  - rewrite <- Hins.
    apply (wf_insert_same (set_data c (pre ++ d :: suf)%list) _ d);
      [done|by apply list_lookup_middle|done|done].
Qed.

(** On a collection LokiJS maintains, [findAndUpdate({}, f)] with
    such an [f] returns, with [f] applied to every document. *)
Lemma findAndUpdate_all (f : DirtyRaw → DirtyRaw) (c : Collection) :
  keeps_identity c f → wf c →
  findAndUpdate f c = Returned () (set_data c (f <$> data c)).
Proof.
  intros Hf Hwf. unfold findAndUpdate.
  rewrite <- (set_data_id c) at 2.
  apply (updateEach_seq f c [] (data c) Hf). simpl. by rewrite set_data_id.
Qed.

(** *** Indices *)

Lemma ensureIndex_data (property : string) (c : Collection) :
  data (ensureIndex property c) = data c
  ∧ uniqueNames (ensureIndex property c) = uniqueNames c
  ∧ maxId (ensureIndex property c) = maxId c.
Proof. unfold ensureIndex. by case_decide. Qed.

Lemma ensureIndex_indices (property n : string) (c : Collection) :
  n ∈ binaryIndices (ensureIndex property c)
  ↔ n ∈ binaryIndices c ∨ n = property.
Proof.
  unfold ensureIndex. case_decide; simpl.
  - split; [tauto|]. by intros [?| ->].
  - rewrite elem_of_app, list_elem_of_singleton. done.
Qed.

(** *** The invariant is kept, however a call ends *)

Lemma any_key_clash_false_inv (c : Collection) d others :
  any_key_clash c d others = false →
  Forall (λ field, key_clash field d others = false) (uniqueNames c).
Proof.
  unfold any_key_clash. intros H. apply Forall_forall. intros f Hf.
  apply not_true_is_false. intros Hclash.
  apply not_true_iff_false in H. apply H. apply existsb_exists.
  exists f. split; [by apply list_elem_of_In|done].
Qed.




Lemma insert_wf (doc : DirtyRaw) (c : Collection) :
  wf c → "$loki" ∉ uniqueNames c →
  wf (outcome_state (insert doc c))
  ∧ uniqueNames (outcome_state (insert doc c)) = uniqueNames c.
Proof.
  intros Hwf Hu. pose proof Hwf as (Hiss & Hnd & Hkeys). unfold insert.
  case_decide as Hl; [done|].
  destruct (any_key_clash _ _ _) eqn:Hclash; simpl.
  - split; [|done]. split_and!; simpl; [|done..].
    eapply Forall_impl; [exact Hiss|]. intros d. unfold issued. simpl.
    destruct (loki_id d); [lia|done].
  - split; [|done].
    assert (doc !! "$loki" = None) as Hnone.
    { destruct (doc !! "$loki"); [|done]. destruct Hl. by eexists. }
    apply any_key_clash_false_inv in Hclash.
    destruct (insert_new c doc Hwf Hnone Hu) as [_ Hwf']; [|done].
    eapply Forall_impl; [exact Hclash|]. intros f Hf. simpl in Hf.
    unfold key_clash in *.
    destruct (decide (f = "$loki")) as [->|Hne].
    + by rewrite Hnone.
    + by rewrite lookup_insert_ne in Hf.
Qed.



End LokiFacts.

(** ** The executor *)

Section ExecutorFacts.
Context {SchemaMigrations : Type}.
Variable stepsForMigration :
  SchemaMigrations → Z → Z → option (list MigrationStep).
Variable sanitizedRaw : DirtyRaw → option TableSchema → RawRecord.
Variable sanitizedValue : Value → ColumnSchema → Value.

Local Abbreviation Executor := (@LokiExecutor SchemaMigrations).
Local Abbreviation keeps :=
  (preserves (SchemaMigrations := SchemaMigrations)).

Lemma bind_Returned {A B} (m : M A) (f : A → M B) (s s1 : Executor) a :
  m s = Returned a s1 → (m ≫= f) s = f a s1.
Proof. intros H. unfold mbind, M_bind. by rewrite H. Qed.

Lemma bind_Thrown {A B} (m : M A) (f : A → M B) (s s1 : Executor) e :
  m s = Thrown e s1 → (m ≫= f) s = Thrown e s1.
Proof. intros H. unfold mbind, M_bind. by rewrite H. Qed.

Lemma bind_inv_Returned {A B} (m : M A) (f : A → M B) (s s2 : Executor) b :
  (m ≫= f) s = Returned b s2 →
  ∃ a s1, m s = Returned a s1 ∧ f a s1 = Returned b s2.
Proof.
  unfold mbind, M_bind. destruct (m s) as [a s1|e s1]; [|done]. eauto.
Qed.

Lemma collection_call_Returned {A} table
    (op : Loki.Collection → Outcome Loki.Collection A) (s s' : Executor) a :
  collection_call table op s = Returned a s' →
  ∃ c c', loki s !! table = Some c ∧ op c = Returned a c'
          ∧ s' = with_loki (<[table := c']> (loki s)) s.
Proof.
  unfold collection_call, Loki.getCollection.
  destruct (loki s !! table) as [c|]; [|done].
  destruct (op c) as [a' c'|] eqn:Hop; [|done]. intros [= -> <-]. by exists c, c'.
Qed.

Lemma _findLocal_collection (key : string) (s : Executor) c :
  loki s !! "local_storage" = Some c → "key" ∈ Loki.uniqueNames c →
  _findLocal key s
  = Returned (list_find (λ d, Loki.has_key "key" key d = true) (Loki.data c)) s.
Proof.
  intros Hc Hu. unfold _findLocal, Loki.getCollection, Loki.by_.
  rewrite Hc. by rewrite decide_True.
Qed.

Lemma _findLocal_Returned (key : string) (s s' : Executor) record :
  _findLocal key s = Returned record s' →
  s' = s
  ∧ match loki s !! "local_storage" with
    | None => record = None
    | Some c =>
        "key" ∈ Loki.uniqueNames c
        ∧ record = list_find (λ d, Loki.has_key "key" key d = true)
                             (Loki.data c)
    end.
Proof.
  unfold _findLocal, Loki.getCollection, Loki.by_.
  destruct (loki s !! "local_storage") as [c|]; [|by intros [= <- <-]].
  case_decide; [|done]. by intros [= <- <-].
Qed.

Lemma getLocal_found (key : string) (s : Executor) c j d :
  loki s !! "local_storage" = Some c → "key" ∈ Loki.uniqueNames c →
  list_find (λ d, Loki.has_key "key" key d = true) (Loki.data c)
  = Some (j, d) →
  getLocal key s = Returned (d !! "value") s.
Proof.
  intros Hc Hu Hj. unfold getLocal.
  erewrite bind_Returned by (by apply _findLocal_collection).
  by rewrite Hj.
Qed.

(** What [setLocal] wrote under a key is what [getLocal] reads
    there. *)
Lemma setLocal_getLocal (key value : string) (s s' : Executor) :
  setLocal key value s = Returned () s' →
  getLocal key s' = Returned (Some (VStr value)) s'.
Proof.
  unfold setLocal. intros (record & s1 & Hfind & Hset)%bind_inv_Returned.
  apply _findLocal_Returned in Hfind as [-> Hrecord].
  destruct record as [[pos d]|];
    apply bind_inv_Returned in Hset as (r & s2 & Hcall & [= <-]);
    apply collection_call_Returned in Hcall as (c & c' & Hc & Hop & ->);
    rewrite Hc in Hrecord; destruct Hrecord as [Hu Hby]; symmetry in Hby.
  - eapply LokiFacts.by_after_update_in_place in Hop as (Hu' & j & Hj);
      [|exact Hby|].
    2:{ pose proof Hby as (_ & Hk & _)%list_find_Some.
        unfold Loki.has_key in *. apply bool_decide_eq_true.
        apply bool_decide_eq_true in Hk. by rewrite lookup_insert_ne. }
    erewrite getLocal_found;
      [|apply lookup_insert_eq|by rewrite Hu'|exact Hj].
    by rewrite lookup_insert_eq.
  - eapply LokiFacts.by_after_insert in Hop as (Hu' & Hj & ->);
      [|exact Hby|done|].
    2:{ unfold Loki.has_key. apply bool_decide_eq_true.
        by rewrite lookup_insert_eq. }
    erewrite getLocal_found;
      [|apply lookup_insert_eq|by rewrite Hu'|exact Hj].
    rewrite lookup_insert_ne by done. rewrite lookup_insert_ne by done.
    by rewrite lookup_insert_eq.
Qed.

(** The setter of [_databaseVersion] followed by its getter, for a
    version that is a safe integer. *)
Lemma set_get_databaseVersion (v : Z) (s s' : Executor) :
  JS.isSafeInteger v →
  set_databaseVersion v s = Returned () s' →
  get_databaseVersion s' = Returned v s'.
Proof.
  intros Hv Hset%setLocal_getLocal. unfold get_databaseVersion.
  erewrite bind_Returned by exact Hset. simpl.
  rewrite bool_decide_eq_false_2 by (by apply JSFacts.toString_nonempty).
  simpl. by rewrite JSFacts.parseInt_toString.
Qed.
(** *** What a method leaves alone *)

Section keeps.
Context (R : relation Executor) `{!PreOrder R}.

Lemma keeps_mret {A} (a : A) : keeps R (mret a).
Proof. intros s. simpl. reflexivity. Qed.

Lemma keeps_throw {A} e : keeps R (throw (A := A) e).
Proof. intros s. simpl. reflexivity. Qed.

Lemma keeps_gets {A} (f : Executor → A) : keeps R (gets f).
Proof. intros s. simpl. reflexivity. Qed.

Lemma keeps_bind {A B} (m : M A) (f : A → M B) :
  keeps R m → (∀ a, keeps R (f a)) → keeps R (m ≫= f).
Proof.
  intros Hm Hf s. unfold mbind, M_bind. specialize (Hm s).
  destruct (m s) as [a s1|e s1]; simpl in *; [|done].
  etrans; [exact Hm|apply Hf].
Qed.

Lemma keeps_forEach {A} (f : A → M unit) (l : list A) :
  Forall (λ x, keeps R (f x)) l → keeps R (forEach f l).
Proof.
  induction 1 as [|x l Hx _ IH]; simpl.
  - apply keeps_mret.
  - apply keeps_bind; [done|]. by intros _.
Qed.


Lemma keeps_collection_call {A} table
    (op : Loki.Collection → Outcome Loki.Collection A) :
  (∀ s c, R s (with_loki (<[table := c]> (loki s)) s)) →
  keeps R (collection_call table op).
Proof.
  intros HR s. unfold collection_call.
  destruct (Loki.getCollection table (loki s)) as [c|]; [|simpl; reflexivity].
  destruct (op c); simpl; apply HR.
Qed.

Lemma keeps_Returned {A} (m : M A) (s s' : Executor) a :
  keeps R m → m s = Returned a s' → R s s'.
Proof. intros Hm Hs. specialize (Hm s). by rewrite Hs in Hm. Qed.

Lemma keeps_Thrown {A} (m : M A) (s s' : Executor) e :
  keeps R m → m s = Thrown e s' → R s s'.
Proof. intros Hm Hs. specialize (Hm s). by rewrite Hs in Hm. Qed.
End keeps.

#[local] Instance same_but_loki_preorder :
  PreOrder (same_but_loki (SchemaMigrations := SchemaMigrations)).
Proof.
  split.
  - by intros s.
  - intros s1 s2 s3 (?&?&?&?) (?&?&?&?). unfold same_but_loki.
    split_and!; congruence.
Qed.

#[local] Instance same_local_storage_preorder :
  PreOrder (same_local_storage (SchemaMigrations := SchemaMigrations)).
Proof.
  split.
  - by intros s.
  - intros s1 s2 s3 H1 H2. unfold same_local_storage in *. congruence.
Qed.

Lemma with_loki_same_but_loki (s : Executor) db :
  same_but_loki s (with_loki db s).
Proof. done. Qed.

(** *** The version marker *)

Lemma _findLocal_same (key : string) (s s' : Executor) :
  same_local_storage s s' →
  _findLocal key s' = match _findLocal key s with
                      | Returned a _ => Returned a s'
                      | Thrown e _ => Thrown e s'
                      end.
Proof.
  unfold same_local_storage, _findLocal, Loki.getCollection. intros ->.
  destruct (loki s !! "local_storage") as [c|]; [|done].
  by destruct (Loki.by_ "key" key c).
Qed.

Lemma get_databaseVersion_same (s s' : Executor) :
  same_local_storage s s' →
  get_databaseVersion s' = match get_databaseVersion s with
                           | Returned a _ => Returned a s'
                           | Thrown e _ => Thrown e s'
                           end.
Proof.
  intros H. unfold get_databaseVersion, getLocal, mbind, M_bind.
  rewrite (_findLocal_same _ s s' H).
  destruct (_findLocal SCHEMA_VERSION_KEY s) as [[[]|]|]; done.
Qed.

Lemma getLocal_Returned (key : string) (s s' : Executor) local :
  getLocal key s = Returned local s' → s' = s.
Proof.
  unfold getLocal. intros (r & s1 & Hf & H)%bind_inv_Returned.
  apply _findLocal_Returned in Hf as [-> _].
  destruct r as [[]|]; by injection H.
Qed.

Lemma get_databaseVersion_Returned (s s' : Executor) v :
  get_databaseVersion s = Returned v s' → s' = s.
Proof.
  unfold get_databaseVersion.
  intros (r & s1 & ->%getLocal_Returned & H)%bind_inv_Returned.
  by injection H.
Qed.



Lemma list_find_None_existsb (field key : string) (l : list DirtyRaw) :
  list_find (λ d, Loki.has_key field key d = true) l = None →
  existsb (Loki.has_key field key) l = false.
Proof.
  intros H. apply not_true_is_false. intros (d & Hin & Hk)%existsb_exists.
  apply list_find_None in H. rewrite Forall_forall in H.
  apply (H d); [|done]. by apply list_elem_of_In.
Qed.


(** *** Schema set-up and migration *)

Lemma keeps_addCollection (tableSchema : TableSchema) :
  keeps same_but_loki (_addCollection tableSchema).
Proof. intros s. apply with_loki_same_but_loki. Qed.

Lemma keeps_collection_call_same_but_loki {A} table
    (op : Loki.Collection → Outcome Loki.Collection A) :
  keeps same_but_loki (collection_call table op).
Proof.
  apply keeps_collection_call; [apply _|].
  intros s c. apply with_loki_same_but_loki.
Qed.

Lemma keeps_executeAddColumnsMigration (step : MigrationStep) :
  keeps same_but_loki (_executeAddColumnsMigration sanitizedValue step).
Proof.
  unfold _executeAddColumnsMigration. apply keeps_bind; [apply _|..].
  - apply keeps_collection_call_same_but_loki.
  - intros _. apply keeps_forEach; [apply _|]. apply Forall_forall.
    intros column _. unfold ensureColumnIndex. destruct (isIndexed column).
    + apply keeps_collection_call_same_but_loki.
    + apply keeps_mret. apply _.
Qed.

Lemma keeps_migrate_step (step : MigrationStep) :
  keeps same_but_loki (_migrate_step sanitizedValue step).
Proof.
  unfold _migrate_step. repeat case_decide.
  - apply keeps_addCollection.
  - apply keeps_executeAddColumnsMigration.
  - apply keeps_throw. apply _.
Qed.

Lemma keeps_migrate_steps (steps : list MigrationStep) :
  keeps same_but_loki (forEach (_migrate_step sanitizedValue) steps).
Proof.
  apply keeps_forEach; [apply _|]. apply Forall_forall.
  intros step _. apply keeps_migrate_step.
Qed.

(** [_setUpSchema] ends by writing the version of the schema. *)
Lemma _setUpSchema_version (s s' : Executor) :
  JS.isSafeInteger (version (schema s)) →
  _setUpSchema s = Returned () s' →
  get_databaseVersion s' = Returned (version (schema s)) s'.
Proof.
  unfold _setUpSchema.
  intros Hv (tableSchemas & s0 & [= <- <-] & H)%bind_inv_Returned.
  apply bind_inv_Returned in H as ([] & s1 & Hadd & H).
  apply bind_inv_Returned in H as ([] & s2 & [= <-] & H).
  apply bind_inv_Returned in H as (v & s3 & [= <- <-] & H).
  assert (same_but_loki s s1) as (Hschema & _).
  { eapply keeps_Returned; [|exact Hadd]. apply keeps_forEach; [apply _|].
    apply Forall_forall. intros ts _. apply keeps_addCollection. }
  cbn [schema with_loki] in H. rewrite Hschema in H.
  by apply set_get_databaseVersion in H.
Qed.

Lemma unsafeResetDatabase_version (s s' : Executor) :
  JS.isSafeInteger (version (schema s)) →
  unsafeResetDatabase s = Returned () s' →
  get_databaseVersion s' = Returned (version (schema s)) s'.
Proof.
  unfold unsafeResetDatabase.
  intros Hv ([] & s0 & [= <-] & H)%bind_inv_Returned.
  apply bind_inv_Returned in H as ([] & s1 & [= <-] & H).
  apply bind_inv_Returned in H as ([] & s2 & [= <-] & H).
  by apply _setUpSchema_version in H.
Qed.

(** [_migrate] returns only when every step returned, and then ends
    by writing the version of the schema, which the getter reads back
    when it is a safe integer. *)
Lemma _migrate_Returned (steps : list MigrationStep) (s s' : Executor) :
  _migrate sanitizedValue steps s = Returned () s' →
  ∃ s1, forEach (_migrate_step sanitizedValue) steps s = Returned () s1
        ∧ set_databaseVersion (version (schema s)) s1 = Returned () s'
        ∧ getLocal SCHEMA_VERSION_KEY s'
          = Returned (Some (VStr (JS.toString (version (schema s))))) s'
        ∧ (JS.isSafeInteger (version (schema s)) →
           get_databaseVersion s' = Returned (version (schema s)) s').
Proof.
  unfold _migrate.
  intros ([] & s1 & Hsteps & H)%bind_inv_Returned.
  apply bind_inv_Returned in H as (v & s2 & [= <- <-] & H).
  assert (same_but_loki s s1) as (Hsch & _).
  { eapply keeps_Returned; [|exact Hsteps]. apply keeps_migrate_steps. }
  rewrite Hsch in H. exists s1. split_and!; [done..| |].
  - exact (setLocal_getLocal _ _ _ _ H).
  - intros Hv. exact (set_get_databaseVersion _ _ _ Hv H).
Qed.

(** *** Claims about the version marker *)

(** C5, amended.  For a schema whose version is a safe integer:
    after every completed [setUp], whichever branch of
    [_migrateIfNeeded] ran (the versions agreed, a migration was
    applied, or the database was reset), reading the version marker
    yields the version of the schema the executor was built with. *)
Theorem setUp_databaseVersion (s s' : Executor) :
  JS.isSafeInteger (version (schema s)) →
  setUp stepsForMigration sanitizedValue s = Returned () s' →
  get_databaseVersion s' = Returned (version (schema s)) s'.
Proof.
  unfold setUp. intros Hv ([] & s0 & [= <-] & H)%bind_inv_Returned.
  unfold _migrateIfNeeded in H.
  apply bind_inv_Returned in H as (dbVersion & s1 & Hget & H).
  apply get_databaseVersion_Returned in Hget as Hs1. subst s1.
  apply bind_inv_Returned in H as (schemaVersion & s2 & [= <- <-] & H).
  simpl in H. case_decide as Heq.
  { injection H as <-. by rewrite <- Heq. }
  case_decide; [exact (unsafeResetDatabase_version _ _ Hv H)|].
  case_decide; [|exact (unsafeResetDatabase_version _ _ Hv H)].
  apply bind_inv_Returned in H as (steps & s3 & [= <- <-] & H).
  destruct (match migrations s with
            | Some m => stepsForMigration m dbVersion (version (schema s))
            | None => None
            end) as [migrationSteps|].
  - apply _migrate_Returned in H as (_ & _ & _ & _ & H). by apply H.
  - exact (unsafeResetDatabase_version _ _ Hv H).
Qed.


(** *** A migration that fails *)

Lemma forEach_Exists_Thrown {A} (f : A → M unit) (l : list A) :
  Exists (λ x, ∀ s : Executor, returns (f x s) = false) l →
  ∀ s, returns (forEach f l s) = false.
Proof.
  induction 1 as [x l Hx|x l _ IH]; intros s; simpl;
    unfold mbind, M_bind.
  - specialize (Hx s). by destruct (f x s).
  - destruct (f x s); [apply IH|done].
Qed.

Lemma _migrate_step_unsupported (step : MigrationStep) (s : Executor) :
  ¬ supported step → returns (_migrate_step sanitizedValue step s) = false.
Proof.
  unfold supported, _migrate_step. intros H.
  rewrite !decide_False by tauto. done.
Qed.

Lemma with_loki_same_local_storage (s : Executor) table c :
  table ≠ "local_storage" →
  same_local_storage s (with_loki (<[table := c]> (loki s)) s).
Proof. intros H. unfold same_local_storage. simpl. by rewrite lookup_insert_ne. Qed.

Lemma keeps_addCollection_local (tableSchema : TableSchema) :
  table_name tableSchema ≠ "local_storage" →
  keeps same_local_storage (_addCollection tableSchema).
Proof.
  intros H s. unfold same_local_storage. simpl. unfold Loki.addCollection.
  destruct (loki s !! table_name tableSchema); [done|].
  by rewrite lookup_insert_ne.
Qed.

Lemma keeps_migrate_step_local (step : MigrationStep) :
  (supported step → step_collection step ≠ "local_storage") →
  keeps same_local_storage (_migrate_step sanitizedValue step).
Proof.
  unfold supported, step_collection, _migrate_step. intros H.
  repeat case_decide.
  - apply keeps_addCollection_local. simpl. tauto.
  - unfold _executeAddColumnsMigration. apply keeps_bind; [apply _|..].
    + apply keeps_collection_call; [apply _|]. intros s c.
      apply with_loki_same_local_storage. tauto.
    + intros _. apply keeps_forEach; [apply _|]. apply Forall_forall.
      intros column _. unfold ensureColumnIndex. destruct (isIndexed column).
      * apply keeps_collection_call; [apply _|]. intros s c.
        apply with_loki_same_local_storage. tauto.
      * apply keeps_mret. apply _.
  - apply keeps_throw. apply _.
Qed.

(** C2, amended.  When a sequence of migration steps has a step
    whose type is neither [create_table] nor [add_columns], and none
    of its steps works on the collection of the local storage,
    [_migrate] throws and leaves the local storage, hence the version
    marker, as it was.  [_migrate] returns only when every step
    returned, and writes the version of the schema after the last
    one: the reserved key then holds the string of that version, and
    the getter reads the version back when it is a safe integer. *)
Theorem migrate_unsupported_step (steps : list MigrationStep)
    (s : Executor) :
  (Exists (λ step, ¬ supported step) steps →
   Forall (λ step, supported step → step_collection step ≠ "local_storage")
          steps →
   ∃ e s', _migrate sanitizedValue steps s = Thrown e s'
           ∧ same_local_storage s s'
           ∧ get_databaseVersion s'
             = match get_databaseVersion s with
               | Returned v _ => Returned v s'
               | Thrown e _ => Thrown e s'
               end)
  ∧ (∀ s', _migrate sanitizedValue steps s = Returned () s' →
       ∃ s1, forEach (_migrate_step sanitizedValue) steps s = Returned () s1
             ∧ set_databaseVersion (version (schema s)) s1 = Returned () s'
             ∧ getLocal SCHEMA_VERSION_KEY s'
               = Returned (Some (VStr (JS.toString (version (schema s))))) s'
             ∧ (JS.isSafeInteger (version (schema s)) →
                get_databaseVersion s' = Returned (version (schema s)) s')).
Proof.
  split; [|apply _migrate_Returned].
  intros Hbad Hlocal.
  assert (returns (forEach (_migrate_step sanitizedValue) steps s) = false)
    as Hthrown.
  { apply forEach_Exists_Thrown. eapply Exists_impl; [exact Hbad|].
    intros step Hstep s0. by apply _migrate_step_unsupported. }
  assert (keeps same_local_storage
            (forEach (_migrate_step sanitizedValue) steps)) as Hkeeps.
  { apply keeps_forEach; [apply _|]. eapply Forall_impl; [exact Hlocal|].
    intros step Hstep. by apply keeps_migrate_step_local. }
  destruct (forEach (_migrate_step sanitizedValue) steps s)
    as [|e s'] eqn:Hsteps; [done|].
  exists e, s'.
  assert (same_local_storage s s') as Hsame
    by (eapply keeps_Thrown; [exact Hkeeps|exact Hsteps]).
  split_and!; [|done|by apply get_databaseVersion_same].
  unfold _migrate. by erewrite bind_Thrown.
Qed.

(** *** The record cache *)

Lemma isCached_cached (table id : string) (s : Executor) :
  isCached table id s = Returned (bool_decide (cached table id s)) s.
Proof.
  unfold isCached, gets. f_equal.
  destruct (decide (cached table id s)) as [H|H].
  - rewrite (bool_decide_eq_true_2 _ H). unfold cached in H.
    destruct (cachedRecords s !! table); [|done].
    by apply bool_decide_eq_true_2.
  - rewrite (bool_decide_eq_false_2 _ H). unfold cached in H.
    destruct (cachedRecords s !! table); [|done].
    by apply bool_decide_eq_false_2.
Qed.

Lemma markAsCached_cached (table id : string) (s : Executor) :
  ∃ s', markAsCached table id s = Returned () s'
        ∧ cached table id s' ∧ loki s' = loki s ∧ schema s' = schema s.
Proof.
  unfold markAsCached, modify.
  destruct (cachedRecords s !! table) as [cachedSet|] eqn:E;
    eexists; (split; [reflexivity|]); unfold cached;
    cbn [cachedRecords with_cachedRecords loki schema];
    rewrite lookup_insert_eq; split_and!; try done.
  - apply elem_of_union_r. by apply elem_of_singleton.
  - by apply elem_of_singleton.
Qed.

Lemma removeFromCache_not_cached (table id : string) (s : Executor) :
  ∃ s', removeFromCache table id s = Returned () s'
        ∧ ¬ cached table id s' ∧ loki s' = loki s.
Proof.
  unfold removeFromCache, modify.
  destruct (cachedRecords s !! table) as [cachedSet|] eqn:E;
    eexists; (split; [reflexivity|]); unfold cached;
    cbn [cachedRecords with_cachedRecords loki].
  - rewrite lookup_insert_eq. split; [|done].
    rewrite elem_of_difference, elem_of_singleton. tauto.
  - rewrite E. tauto.
Qed.

(** A cached id comes back bare, whatever the store holds. *)
Lemma find_cached (table id : string) (s : Executor) :
  cached table id s → find sanitizedRaw table id s = Returned (FoundId id) s.
Proof.
  intros H. unfold find.
  erewrite bind_Returned by apply isCached_cached.
  by rewrite bool_decide_eq_true_2.
Qed.

Lemma by_id_read (table id : string) (s : Executor) c :
  loki s !! table = Some c → "id" ∈ Loki.uniqueNames c →
  collection_read table (Loki.by_ "id" id) s
  = Returned (list_find (λ d, Loki.has_key "id" id d = true) (Loki.data c)) s.
Proof.
  intros Hc Hu. unfold collection_read, Loki.getCollection, Loki.by_.
  rewrite Hc. by rewrite decide_True.
Qed.

Lemma find_not_cached (table id : string) (s : Executor) c :
  loki s !! table = Some c → "id" ∈ Loki.uniqueNames c →
  ¬ cached table id s →
  match stored table "id" id s with
  | None => find sanitizedRaw table id s = Returned FoundNull s
  | Some raw =>
      ∃ s', find sanitizedRaw table id s
            = Returned (FoundRaw (sanitizedRaw raw
                                    (table_schema (schema s) table))) s'
            ∧ cached table id s' ∧ loki s' = loki s
  end.
Proof.
  intros Hc Hu Hn. unfold stored, find. rewrite Hc. simpl.
  erewrite bind_Returned by apply isCached_cached.
  rewrite bool_decide_eq_false_2 by done.
  erewrite bind_Returned by (by apply by_id_read).
  destruct (list_find _ _) as [[i raw]|]; [|done]. simpl.
  destruct (markAsCached_cached table id s) as (s' & Hm & Hc' & Hl & Hs).
  exists s'. erewrite bind_Returned by exact Hm.
  unfold mbind, M_bind, gets, mret, M_ret. by rewrite Hs.
Qed.

Lemma find_never_bare (table id : string) (s s' : Executor) :
  ¬ cached table id s →
  find sanitizedRaw table id s ≠ Returned (FoundId id) s'.
Proof.
  intros Hn. unfold find, mbind, M_bind.
  rewrite isCached_cached. rewrite bool_decide_eq_false_2 by done.
  destruct (collection_read table (Loki.by_ "id" id) s) as [[[]|]|]; done.
Qed.

(** C4. For an id that is not cached and has a record in the store,
    the first [find] returns the full sanitized record and marks the
    id as cached; a second [find] returns the bare id, and does so
    whatever the store holds: it does not read the store. *)
Theorem find_twice (table id : string) (s : Executor) c raw :
  loki s !! table = Some c → "id" ∈ Loki.uniqueNames c →
  ¬ cached table id s →
  stored table "id" id s = Some raw →
  ∃ s1, find sanitizedRaw table id s
        = Returned (FoundRaw (sanitizedRaw raw
                                (table_schema (schema s) table))) s1
        ∧ cached table id s1
        ∧ loki s1 = loki s
        ∧ find sanitizedRaw table id s1 = Returned (FoundId id) s1
        ∧ ∀ db, find sanitizedRaw table id (with_loki db s1)
                = Returned (FoundId id) (with_loki db s1).
Proof.
  intros Hc Hu Hn Hraw.
  pose proof (find_not_cached table id s c Hc Hu Hn) as H.
  rewrite Hraw in H. destruct H as (s1 & Hfind & Hcached & Hloki).
  exists s1. split_and!; [done..| |].
  - by apply find_cached.
  - intros db. by apply find_cached.
Qed.

(** *** Records that are not there *)

Lemma stored_None (table field key : string) (s : Executor) c :
  loki s !! table = Some c →
  stored table field key s = None
  ↔ Forall (λ d, Loki.has_key field key d ≠ true) (Loki.data c).
Proof.
  intros Hc. unfold stored. rewrite Hc. simpl.
  rewrite fmap_None. apply list_find_None.
Qed.

Lemma remove_outcome (doc : option DirtyRaw) (c : Loki.Collection) :
  Loki.uniqueNames (outcome_state (Loki.remove doc c)) = Loki.uniqueNames c
  ∧ Loki.data (outcome_state (Loki.remove doc c)) `sublist_of` Loki.data c.
Proof.
  unfold Loki.remove. destruct doc as [d|]; [|done].
  destruct (d !! "$loki") as [v|]; [|done].
  destruct (match v with VNum n => _ | _ => None end); [|done].
  split; [done|]. apply sublist_delete.
Qed.

(** One round of [destroyDeletedRecords] leaves a collection with
    the same indices and no document that was not there. *)
Lemma destroyDeletedRecord_outcome (table id : string) (s : Executor) c :
  loki s !! table = Some c →
  let s' := outcome_state (destroyDeletedRecord table id s) in
  same_but_loki s s'
  ∧ ∃ c', loki s' !! table = Some c'
          ∧ Loki.uniqueNames c' = Loki.uniqueNames c
          ∧ Loki.data c' `sublist_of` Loki.data c.
Proof.
  intros Hc. unfold destroyDeletedRecord, mbind, M_bind, collection_read,
    Loki.getCollection. rewrite Hc.
  destruct (Loki.by_ "id" id c) as [e|[[i d]|]]; simpl;
    [by split; [|exists c]| |by split; [|exists c]].
  unfold collection_call, Loki.getCollection. rewrite Hc.
  pose proof (remove_outcome (Some d) c) as [Hu Hsub].
  destruct (Loki.remove (Some d) c) as [r c'|e c']; simpl in *;
    (split; [done|]); exists c'; by rewrite lookup_insert_eq.
Qed.

Lemma destroyDeletedRecord_absent (table id : string) (s : Executor) c :
  loki s !! table = Some c → "id" ∈ Loki.uniqueNames c →
  stored table "id" id s = None →
  destroyDeletedRecord table id s = Returned () s.
Proof.
  intros Hc Hu Hst. unfold destroyDeletedRecord.
  erewrite bind_Returned by (by apply by_id_read).
  unfold stored in Hst. rewrite Hc in Hst. simpl in Hst.
  by apply fmap_None in Hst as ->.
Qed.

Lemma stored_None_sublist (table field key : string) (s s' : Executor) c c' :
  loki s !! table = Some c → loki s' !! table = Some c' →
  Loki.data c' `sublist_of` Loki.data c →
  stored table field key s = None → stored table field key s' = None.
Proof.
  intros Hc Hc' Hsub. rewrite (stored_None _ _ _ s c Hc).
  rewrite (stored_None _ _ _ s' c' Hc'). rewrite !Forall_forall.
  intros H d Hd. apply H. by eapply sublist_subseteq.
Qed.

(** An id without record is passed over wherever it stands in the
    list. *)
Lemma destroyDeletedRecords_skip (table id : string) (ids : list string)
    (s : Executor) c :
  loki s !! table = Some c → "id" ∈ Loki.uniqueNames c →
  stored table "id" id s = None →
  destroyDeletedRecords table ids s
  = destroyDeletedRecords table (filter (λ y, y ≠ id) ids) s.
Proof.
  unfold destroyDeletedRecords.
  revert s c. induction ids as [|y ids IH]; intros s c Hc Hu Hst; [done|].
  destruct (decide (y = id)) as [->|Hne].
  - rewrite filter_cons_False by tauto. simpl.
    erewrite bind_Returned by (by eapply destroyDeletedRecord_absent).
    by eapply IH.
  - rewrite filter_cons_True by done. simpl. unfold mbind, M_bind.
    pose proof (destroyDeletedRecord_outcome table y s c Hc)
      as (_ & c' & Hc' & Hu' & Hsub).
    destruct (destroyDeletedRecord table y s) as [[] s'|]; [|done].
    cbn [outcome_state] in *. eapply IH; [done|by rewrite Hu'|].
    exact (stored_None_sublist _ _ _ s s' c c' Hc Hc' Hsub Hst).
Qed.

Lemma destroyDeletedRecords_absent (table : string) (ids : list string)
    (s : Executor) c :
  loki s !! table = Some c → "id" ∈ Loki.uniqueNames c →
  Forall (λ id, stored table "id" id s = None) ids →
  destroyDeletedRecords table ids s = Returned () s.
Proof.
  intros Hc Hu. unfold destroyDeletedRecords.
  induction 1 as [|y ids Hy _ IH]; [done|]. simpl.
  by erewrite bind_Returned by (by eapply destroyDeletedRecord_absent).
Qed.

Lemma markAsDeleted_absent (table id : string) (s : Executor) c :
  loki s !! table = Some c → "id" ∈ Loki.uniqueNames c →
  stored table "id" id s = None →
  markAsDeleted table id s = Returned () s.
Proof.
  intros Hc Hu Hst. unfold markAsDeleted.
  erewrite bind_Returned by (by apply by_id_read).
  unfold stored in Hst. rewrite Hc in Hst. simpl in Hst.
  by apply fmap_None in Hst as ->.
Qed.

(** C7. For an id that has no record in its table and is not cached,
    [find] returns null, [markAsDeleted] returns and changes neither
    store nor cache, and [destroyDeletedRecords] passes over the id
    wherever it stands in the list it is given; none of them
    throws. *)
Theorem absent_record_no_error (table id : string) (s : Executor) c :
  loki s !! table = Some c → "id" ∈ Loki.uniqueNames c →
  stored table "id" id s = None →
  ¬ cached table id s →
  find sanitizedRaw table id s = Returned FoundNull s
  ∧ markAsDeleted table id s = Returned () s
  ∧ destroyDeletedRecord table id s = Returned () s
  ∧ (∀ ids, destroyDeletedRecords table ids s
            = destroyDeletedRecords table (filter (λ y, y ≠ id) ids) s)
  ∧ (∀ ids, Forall (λ y, stored table "id" y s = None) ids →
            destroyDeletedRecords table ids s = Returned () s).
Proof.
  intros Hc Hu Hst Hn. split_and!.
  - pose proof (find_not_cached table id s c Hc Hu Hn) as H.
    by rewrite Hst in H.
  - by eapply markAsDeleted_absent.
  - by eapply destroyDeletedRecord_absent.
  - intros ids. by eapply destroyDeletedRecords_skip.
  - intros ids. by eapply destroyDeletedRecords_absent.
Qed.

(** *** Deleting records *)

Lemma collection_read_Returned {A} table (op : Loki.Collection → Exn + A)
    (s s' : Executor) a :
  collection_read table op s = Returned a s' →
  s' = s ∧ ∃ c, loki s !! table = Some c ∧ op c = inr a.
Proof.
  unfold collection_read, Loki.getCollection.
  destruct (loki s !! table) as [c|]; [|done].
  destruct (op c) as [e|a'] eqn:Hop; [done|]. intros [= -> <-]. eauto.
Qed.

Lemma by_id_Returned (table id : string) (s s' : Executor) record :
  collection_read table (Loki.by_ "id" id) s = Returned record s' →
  s' = s ∧ stored table "id" id s = snd <$> record.
Proof.
  intros [-> (c & Hc & Hop)]%collection_read_Returned. split; [done|].
  unfold stored. rewrite Hc. simpl. unfold Loki.by_ in Hop.
  case_decide; [|done]. by injection Hop as <-.
Qed.

Lemma destroyPermanently_evicts (table id : string) (s s' : Executor) :
  destroyPermanently table id s = Returned () s' → ¬ cached table id s'.
Proof.
  unfold destroyPermanently.
  intros (record & s0 & _ & H)%bind_inv_Returned.
  apply bind_inv_Returned in H as (r & s1 & _ & H).
  destruct (removeFromCache_not_cached table id s1) as (s2 & Hs2 & Hn & _).
  rewrite Hs2 in H. by injection H as <-.
Qed.

Lemma markAsDeleted_evicts (table id : string) (s s' : Executor) :
  is_Some (stored table "id" id s) →
  markAsDeleted table id s = Returned () s' → ¬ cached table id s'.
Proof.
  unfold markAsDeleted.
  intros [raw Hraw] (record & s0 & [-> Hst]%by_id_Returned & H)%bind_inv_Returned.
  rewrite Hraw in Hst. destruct record as [[pos d]|]; [|done].
  apply bind_inv_Returned in H as (r & s1 & _ & H).
  destruct (removeFromCache_not_cached table id s1) as (s2 & Hs2 & Hn & _).
  rewrite Hs2 in H. by injection H as <-.
Qed.

Lemma key_gone (field key : string) (l : list DirtyRaw) i d :
  NoDup (omap (Loki.key_of field) l) →
  list_find (λ d, Loki.has_key field key d = true) l = Some (i, d) →
  list_find (λ d, Loki.has_key field key d = true) (delete i l) = None.
Proof.
  intros Hnd (Hi & Hk & _)%list_find_Some.
  pose proof (LokiFacts.no_key_clash field l i d d Hnd Hi eq_refl) as Hclash.
  apply LokiFacts.has_key_key_of in Hk. unfold Loki.key_clash in Hclash.
  unfold Loki.key_of in Hk.
  destruct (d !! field) as [[]|]; simplify_eq.
  apply list_find_None, Forall_forall. intros d' Hd' Hk'.
  apply not_true_iff_false in Hclash. apply Hclash.
  apply existsb_exists. exists d'. split; [by apply list_elem_of_In|done].
Qed.

Lemma is_table_delete (c : Loki.Collection) i :
  Loki.is_table c → Loki.is_table (Loki.set_data c (delete i (Loki.data c))).
Proof. intros [Hwf Hu]. split; [by apply LokiFacts.wf_delete|done]. Qed.

Lemma is_table_keys (c : Loki.Collection) :
  Loki.is_table c → NoDup (omap (Loki.key_of "id") (Loki.data c)).
Proof.
  intros [(_ & _ & Hkeys) Hu]. rewrite Hu in Hkeys.
  by rewrite Forall_singleton in Hkeys.
Qed.

Lemma is_table_id (c : Loki.Collection) :
  Loki.is_table c → "id" ∈ Loki.uniqueNames c.
Proof. intros [_ ->]. by apply list_elem_of_singleton. Qed.

Lemma destroyDeletedRecord_found (table id : string) (s : Executor) c i d :
  loki s !! table = Some c → Loki.is_table c →
  list_find (λ d, Loki.has_key "id" id d = true) (Loki.data c) = Some (i, d) →
  destroyDeletedRecord table id s
  = Returned () (with_loki
                   (<[table := Loki.set_data c (delete i (Loki.data c))]>
                      (loki s)) s).
Proof.
  intros Hc Htable Hby. unfold destroyDeletedRecord.
  erewrite bind_Returned by (by apply by_id_read, is_table_id).
  rewrite Hby. pose proof Hby as (Hi & _ & _)%list_find_Some.
  unfold mbind, M_bind, collection_call, Loki.getCollection. rewrite Hc.
  by rewrite (LokiFacts.remove_stored c i d) by (by destruct Htable).
Qed.

(** [destroyDeletedRecords] on a table LokiJS maintains: it returns,
    and afterwards none of the ids has a record. *)
Lemma destroyDeletedRecords_run (table : string) (ids : list string)
    (s : Executor) c :
  loki s !! table = Some c → Loki.is_table c →
  ∃ s' c', destroyDeletedRecords table ids s = Returned () s'
           ∧ same_but_loki s s'
           ∧ loki s' !! table = Some c' ∧ Loki.is_table c'
           ∧ Loki.data c' `sublist_of` Loki.data c
           ∧ Forall (λ id, stored table "id" id s' = None) ids.
Proof.
  unfold destroyDeletedRecords.
  revert s c. induction ids as [|y ids IH]; intros s c Hc Htable.
  { exists s, c. by split_and!. }
  simpl.
  destruct (list_find (λ d, Loki.has_key "id" y d = true) (Loki.data c))
    as [[i d]|] eqn:Hby.
  - set (c2 := Loki.set_data c (delete i (Loki.data c))).
    set (s2 := with_loki (<[table := c2]> (loki s)) s).
    assert (loki s2 !! table = Some c2) as Hc2 by apply lookup_insert_eq.
    destruct (IH s2 c2 Hc2 (is_table_delete c i Htable))
      as (s' & c' & Hrun & Hsame & Hc' & Htable' & Hsub & Hnone).
    exists s', c'. split_and!; [| |done|done| |].
    + by erewrite bind_Returned by (by eapply destroyDeletedRecord_found).
    + etrans; [apply (with_loki_same_but_loki s)|exact Hsame].
    + etrans; [exact Hsub|apply sublist_delete].
    + apply Forall_cons. split; [|done].
      eapply (stored_None_sublist _ _ _ s2 s' c2 c'); [done..|].
      unfold stored. rewrite Hc2. simpl.
      rewrite (key_gone "id" y (Loki.data c) i d); [done| |exact Hby].
      by apply is_table_keys.
  - assert (stored table "id" y s = None) as Hst.
    { unfold stored. rewrite Hc. simpl. by rewrite Hby. }
    destruct (IH s c Hc Htable)
      as (s' & c' & Hrun & Hsame & Hc' & Htable' & Hsub & Hnone).
    exists s', c'. split_and!; [|done..|].
    + by erewrite bind_Returned
        by (eapply destroyDeletedRecord_absent; eauto using is_table_id).
    + apply Forall_cons. split; [|done].
      by eapply (stored_None_sublist _ _ _ s s' c c').
Qed.

(** C3. [destroyDeletedRecords] removes the records of the ids it is
    given and leaves the cache as it is: an id that was cached before
    the call is cached after it, so that [find] returns the bare id
    although the table has no record with that id any more. *)
Theorem destroyDeletedRecords_keeps_cached (table : string)
    (ids : list string) (s : Executor) c :
  loki s !! table = Some c → Loki.is_table c →
  ∃ s', destroyDeletedRecords table ids s = Returned () s'
        ∧ cachedRecords s' = cachedRecords s
        ∧ ∀ id, id ∈ ids →
            stored table "id" id s' = None
            ∧ (cached table id s →
               cached table id s'
               ∧ find sanitizedRaw table id s' = Returned (FoundId id) s').
Proof.
  intros Hc Htable.
  destruct (destroyDeletedRecords_run table ids s c Hc Htable)
    as (s' & c' & Hrun & (_ & _ & Hcache & _) & _ & _ & _ & Hnone).
  exists s'. split_and!; [done..|].
  intros id Hid. rewrite Forall_forall in Hnone. split; [by apply Hnone|].
  intros Hcached.
  assert (cached table id s') as Hcached'
    by (unfold cached in *; by rewrite Hcache).
  split; [done|]. by apply find_cached.
Qed.

(** *** Writing records *)

Lemma raw_object_id (raw : RawRecord) :
  Loki.key_of "id" (raw_object raw) = Some (raw_id raw).
Proof. unfold Loki.key_of, raw_object. by rewrite lookup_insert_eq. Qed.

Lemma raw_object_loki (raw : RawRecord) :
  raw_object raw !! "$loki" = raw_columns raw !! "$loki".
Proof. unfold raw_object. by rewrite !lookup_insert_ne. Qed.

Lemma is_table_issued (c : Loki.Collection) i d :
  Loki.is_table c → Loki.data c !! i = Some d →
  ∃ n, d !! "$loki" = Some (VNum n).
Proof.
  intros [(Hiss & _) _] Hi.
  pose proof (Forall_lookup_1 _ _ _ _ Hiss Hi) as Hd.
  unfold Loki.issued in Hd.
  destruct (Loki.loki_id d) as [n|] eqn:Hn; [|done].
  exists n. by apply LokiFacts.loki_id_Some.
Qed.

(** [update] of a record that is in its table: the stored document
    is replaced by the new one, under the same [$loki]. *)
Lemma update_found (table : string) (raw : RawRecord) (s : Executor)
    c i saved :
  loki s !! table = Some c → Loki.is_table c →
  list_find (λ d, Loki.has_key "id" (raw_id raw) d = true) (Loki.data c)
  = Some (i, saved) →
  ∃ lokiId,
    saved !! "$loki" = Some lokiId
    ∧ update table raw s
      = Returned ()
          (with_loki
             (<[table := Loki.set_data c
                  (<[i := <["$loki" := lokiId]> (raw_object raw)]>
                     (Loki.data c))]> (loki s)) s).
Proof.
  intros Hc Htable Hby. pose proof Hby as (Hi & Hk & _)%list_find_Some.
  destruct (is_table_issued c i saved Htable Hi) as [n Hn].
  exists (VNum n). split; [done|]. unfold update.
  erewrite bind_Returned by (by apply by_id_read, is_table_id).
  rewrite Hby, Hn.
  unfold mbind, M_bind, collection_call, Loki.getCollection. rewrite Hc.
  rewrite (LokiFacts.update_replace c i saved); [done|by destruct Htable|done|..].
  - rewrite lookup_insert_eq. done.
  - destruct Htable as [_ ->]. apply Forall_singleton.
    apply LokiFacts.has_key_key_of in Hk. rewrite Hk.
    unfold Loki.key_of. rewrite lookup_insert_ne by done.
    apply raw_object_id.
Qed.

Lemma update_absent (table : string) (raw : RawRecord) (s : Executor) c :
  loki s !! table = Some c → "id" ∈ Loki.uniqueNames c →
  stored table "id" (raw_id raw) s = None →
  update table raw s
  = Thrown (TypeError "Cannot read property '$loki' of undefined") s.
Proof.
  intros Hc Hu Hst. unfold update.
  erewrite bind_Returned by (by apply by_id_read).
  unfold stored in Hst. rewrite Hc in Hst. simpl in Hst.
  by apply fmap_None in Hst as ->.
Qed.

(** C10. On a table LokiJS maintains, [update] of a record whose id
    has a record in the store returns: it takes the [$loki] of the
    stored record and puts the new record in its place.  When the id
    has no record, the lookup yields nothing and [update] throws; it
    inserts nothing and leaves store and cache as they were. *)
Theorem update_needs_record (table : string) (raw : RawRecord)
    (s : Executor) c :
  loki s !! table = Some c → Loki.is_table c →
  (∀ i saved,
     list_find (λ d, Loki.has_key "id" (raw_id raw) d = true) (Loki.data c)
     = Some (i, saved) →
     ∃ lokiId s',
       saved !! "$loki" = Some lokiId
       ∧ update table raw s = Returned () s'
       ∧ loki s'
         = <[table := Loki.set_data c
               (<[i := <["$loki" := lokiId]> (raw_object raw)]>
                  (Loki.data c))]> (loki s)
       ∧ cachedRecords s' = cachedRecords s)
  ∧ (stored table "id" (raw_id raw) s = None →
     ∃ e, update table raw s = Thrown e s).
Proof.
  intros Hc Htable. split.
  - intros i saved Hby.
    destruct (update_found table raw s c i saved Hc Htable Hby)
      as (lokiId & Hl & Hup).
    by eexists lokiId, _.
  - intros Hst. eexists. apply (update_absent _ _ _ c); [done| |done].
    by apply is_table_id.
Qed.

(** [create] of a record whose id is free in a table LokiJS
    maintains: the record is appended under the next [$loki] and its
    id is cached. *)
Lemma create_new (table : string) (raw : RawRecord) (s : Executor) c :
  loki s !! table = Some c → Loki.is_table c →
  stored table "id" (raw_id raw) s = None →
  raw_columns raw !! "$loki" = None →
  let obj := <["$loki" := VNum (Loki.maxId c + 1)]> (raw_object raw) in
  let c' := Loki.mkCollection (Loki.name c) (Loki.data c ++ [obj])
              (Loki.maxId c + 1) (Loki.uniqueNames c)
              (Loki.binaryIndices c) in
  ∃ s', create table raw s = Returned () s'
        ∧ loki s' = <[table := c']> (loki s)
        ∧ Loki.is_table c'
        ∧ cached table (raw_id raw) s'.
Proof.
  intros Hc Htable Hst Hl obj c'.
  pose proof Htable as [Hwf Hu].
  destruct (LokiFacts.insert_new c (raw_object raw)) as [Hins Hwf'];
    [done|by rewrite raw_object_loki| |..].
  { rewrite Hu, list_elem_of_singleton. done. }
  { rewrite Hu. apply Forall_singleton. unfold Loki.key_clash, raw_object.
    rewrite lookup_insert_eq. apply list_find_None_existsb.
    unfold stored in Hst. rewrite Hc in Hst. simpl in Hst.
    by apply fmap_None in Hst. }
  destruct (markAsCached_cached table (raw_id raw)
              (with_loki (<[table := c']> (loki s)) s))
    as (s' & Hmark & Hcached & Hloki & _).
  exists s'. split_and!; [|done| |done].
  - unfold create.
    erewrite bind_Returned; [exact Hmark|].
    unfold collection_call, Loki.getCollection. rewrite Hc.
    fold obj in Hins. by rewrite Hins.
  - by split.
Qed.

(** [destroyPermanently] of a record that is in its table: the
    record is removed and its id evicted. *)
Lemma destroyPermanently_found (table id : string) (s : Executor) c i d :
  loki s !! table = Some c → Loki.is_table c →
  list_find (λ d, Loki.has_key "id" id d = true) (Loki.data c) = Some (i, d) →
  ∃ s', destroyPermanently table id s = Returned () s'
        ∧ loki s' = <[table := Loki.set_data c (delete i (Loki.data c))]>
                      (loki s)
        ∧ ¬ cached table id s'.
Proof.
  intros Hc Htable Hby. pose proof Hby as (Hi & _ & _)%list_find_Some.
  destruct (removeFromCache_not_cached table id
              (with_loki
                 (<[table := Loki.set_data c (delete i (Loki.data c))]>
                    (loki s)) s))
    as (s' & Hrm & Hn & Hloki).
  exists s'. split_and!; [|done..].
  unfold destroyPermanently.
  erewrite bind_Returned by (by apply by_id_read, is_table_id).
  rewrite Hby. erewrite bind_Returned; [exact Hrm|].
  unfold collection_call, Loki.getCollection. rewrite Hc.
  change (snd <$> Some (i, d)) with (Some d).
  by rewrite (LokiFacts.remove_stored c i d) by (by destruct Htable).
Qed.

Lemma by_id_at_end (id : string) (l : list DirtyRaw) d :
  list_find (λ d, Loki.has_key "id" id d = true) l = None →
  Loki.key_of "id" d = Some id →
  list_find (λ d, Loki.has_key "id" id d = true) (l ++ [d])
  = Some (length l, d).
Proof.
  intros Hnone Hk. rewrite list_find_app_r by done. simpl.
  rewrite decide_True by (by apply LokiFacts.has_key_key_of). done.
Qed.

(** C6. For a record [A] whose id is neither in its table nor in the
    cache, the batch of [create] of [A], [update] with a record [A']
    of the same id and [destroyPermanently] of that id runs the three
    in this order, each on the state the one before left, and returns;
    afterwards the table has no record with the id, holds the
    documents it held before, and the id is not cached. *)
Theorem batch_create_update_destroy (table : string) (A A' B : RawRecord)
    (s : Executor) c :
  loki s !! table = Some c → Loki.is_table c →
  raw_id A' = raw_id A → raw_id B = raw_id A →
  stored table "id" (raw_id A) s = None →
  ¬ cached table (raw_id A) s →
  raw_columns A !! "$loki" = None →
  ∃ s1 s2 s',
    create table A s = Returned () s1
    ∧ update table A' s1 = Returned () s2
    ∧ destroyPermanently table (raw_id A) s2 = Returned () s'
    ∧ batch [("create", table, A); ("update", table, A');
             ("destroyPermanently", table, B)] s = Returned () s'
    ∧ stored table "id" (raw_id A) s' = None
    ∧ (Loki.data <$> loki s' !! table) = Some (Loki.data c)
    ∧ ¬ cached table (raw_id A) s'.
Proof.
  intros Hc Htable HA' HB Hst Hn Hl.
  assert (list_find (λ d, Loki.has_key "id" (raw_id A) d = true) (Loki.data c)
          = None) as Hnone.
  { unfold stored in Hst. rewrite Hc in Hst. simpl in Hst.
    by apply fmap_None in Hst. }
  (* create *)
  destruct (create_new table A s c Hc Htable Hst Hl)
    as (s1 & Hcreate & Hloki1 & Htable1 & Hcached1).
  set (obj := <["$loki" := VNum (Loki.maxId c + 1)]> (raw_object A)) in *.
  set (c1 := Loki.mkCollection _ _ _ _ _) in *.
  assert (loki s1 !! table = Some c1) as Hc1
    by (rewrite Hloki1; apply lookup_insert_eq).
  assert (Loki.key_of "id" obj = Some (raw_id A)) as Hkobj.
  { unfold Loki.key_of, obj. rewrite lookup_insert_ne by done.
    apply raw_object_id. }
  (* update *)
  destruct (update_found table A' s1 c1 (length (Loki.data c)) obj Hc1 Htable1)
    as (lokiId & HlokiId & Hupdate).
  { rewrite HA'. by apply by_id_at_end. }
  simpl in Hupdate. rewrite LokiFacts.insert_at_end in Hupdate.
  set (obj' := <["$loki" := lokiId]> (raw_object A')) in *.
  set (c2 := Loki.set_data c1 (Loki.data c ++ [obj'])) in *.
  set (s2 := with_loki (<[table := c2]> (loki s1)) s1) in *.
  assert (loki s2 !! table = Some c2) as Hc2 by apply lookup_insert_eq.
  assert (Loki.key_of "id" obj' = Some (raw_id A)) as Hkobj'.
  { unfold Loki.key_of, obj'. rewrite lookup_insert_ne by done.
    rewrite <- HA'. apply raw_object_id. }
  assert (Loki.is_table c2) as Htable2.
  { destruct Htable1 as [Hwf1 Hu1]. split; [|done].
    unfold c2. rewrite <- (LokiFacts.insert_at_end _ obj obj').
    apply (LokiFacts.wf_insert_same c1 _ obj); [done|..].
    - apply LokiFacts.lookup_at_end.
    - unfold obj'. by rewrite lookup_insert_eq.
    - rewrite Hu1. apply Forall_singleton. by rewrite Hkobj, Hkobj'. }
  (* destroyPermanently *)
  destruct (destroyPermanently_found table (raw_id A) s2 c2
              (length (Loki.data c)) obj' Hc2 Htable2)
    as (s' & Hdestroy & Hloki' & Hn').
  { by apply by_id_at_end. }
  simpl in Hloki'. rewrite LokiFacts.delete_at_end in Hloki'.
  exists s1, s2, s'. split_and!; [done..| | | |done].
  - unfold batch. cbn [forEach].
    change (batch_operation ("create", table, A))
      with (create (SchemaMigrations := SchemaMigrations) table A).
    change (batch_operation ("update", table, A'))
      with (update (SchemaMigrations := SchemaMigrations) table A').
    change (batch_operation ("destroyPermanently", table, B))
      with (destroyPermanently (SchemaMigrations := SchemaMigrations)
              table (raw_id B)).
    erewrite bind_Returned by exact Hcreate.
    erewrite bind_Returned by exact Hupdate.
    rewrite HB. erewrite bind_Returned by exact Hdestroy. done.
  - unfold stored. rewrite Hloki', lookup_insert_eq. simpl. by rewrite Hnone.
  - by rewrite Hloki', lookup_insert_eq.
Qed.

(** *** Adding columns *)

Lemma setNewColumns_other (columns : list ColumnSchema) (record : DirtyRaw)
    (field : string) :
  field ∉ column_name <$> columns →
  setNewColumns sanitizedValue columns record !! field = record !! field.
Proof.
  unfold setNewColumns. revert record.
  induction columns as [|column columns IH]; intros record Hf; [done|].
  simpl. rewrite IH.
  - unfold setRawSanitized. rewrite lookup_insert_ne; [done|].
    intros <-. apply Hf. simpl. left.
  - intros H. apply Hf. simpl. by right.
Qed.

Lemma setNewColumns_new (columns : list ColumnSchema) (record : DirtyRaw)
    (column : ColumnSchema) :
  NoDup (column_name <$> columns) → column ∈ columns →
  setNewColumns sanitizedValue columns record !! column_name column
  = Some (sanitizedValue VNull column).
Proof.
  revert record.
  induction columns as [|column0 columns IH]; intros record Hnd Hin.
  { by apply elem_of_nil in Hin. }
  simpl in Hnd. apply NoDup_cons in Hnd as [Hnotin Hnd].
  change (setNewColumns sanitizedValue (column0 :: columns) record)
    with (setNewColumns sanitizedValue columns
            (setRawSanitized sanitizedValue record (column_name column0)
               VNull column0)).
  apply elem_of_cons in Hin as [->|Hin].
  - rewrite setNewColumns_other by done.
    unfold setRawSanitized. by rewrite lookup_insert_eq.
  - by apply IH.
Qed.

Lemma setNewColumns_keeps_identity (columns : list ColumnSchema)
    (c : Loki.Collection) :
  Forall (λ column, column_name column ≠ "$loki"
                    ∧ column_name column ∉ Loki.uniqueNames c) columns →
  Loki.keeps_identity c (setNewColumns sanitizedValue columns).
Proof.
  intros Hcols d.
  assert (∀ field, field = "$loki" ∨ field ∈ Loki.uniqueNames c →
                   field ∉ column_name <$> columns) as Hnot.
  { intros field Hfield (column & -> & Hin)%list_elem_of_fmap.
    rewrite Forall_forall in Hcols. destruct (Hcols column Hin).
    by destruct Hfield. }
  split.
  - apply setNewColumns_other. apply Hnot. by left.
  - apply Forall_forall. intros field Hfield. unfold Loki.key_of.
    rewrite setNewColumns_other; [done|]. apply Hnot. by right.
Qed.

Lemma ensureColumnIndex_run (table : string) (columns : list ColumnSchema)
    (s : Executor) c :
  loki s !! table = Some c →
  ∃ s', forEach (ensureColumnIndex table) columns s = Returned () s'
        ∧ same_but_loki s s'
        ∧ loki s' !! table = Some (with_column_indices columns c)
        ∧ ∀ table', table' ≠ table → loki s' !! table' = loki s !! table'.
Proof.
  revert s c. induction columns as [|column columns IH]; intros s c Hc.
  { by exists s. }
  cbn [forEach with_column_indices foldl].
  destruct (isIndexed column) eqn:Hidx.
  - set (c1 := Loki.ensureIndex (column_name column) c).
    set (s1 := with_loki (<[table := c1]> (loki s)) s).
    destruct (IH s1 c1) as (s' & Hrun & Hsame & Hc' & Hother);
      [apply lookup_insert_eq|].
    exists s'. split_and!; [|by etrans; [|exact Hsame]|done|].
    + erewrite bind_Returned; [exact Hrun|].
      unfold ensureColumnIndex, collection_call, Loki.getCollection.
      by rewrite Hidx, Hc.
    + intros table' Hne. rewrite Hother by done. simpl.
      by rewrite lookup_insert_ne.
  - destruct (IH s c Hc) as (s' & Hrun & Hsame & Hc' & Hother).
    exists s'. split_and!; [|done..].
    erewrite bind_Returned; [exact Hrun|].
    unfold ensureColumnIndex. by rewrite Hidx.
Qed.

Lemma with_column_indices_data (columns : list ColumnSchema)
    (c : Loki.Collection) :
  Loki.data (with_column_indices columns c) = Loki.data c.
Proof.
  revert c. induction columns as [|column columns IH]; intros c; [done|].
  cbn [with_column_indices foldl]. destruct (isIndexed column); [|apply IH].
  etrans; [apply IH|]. apply LokiFacts.ensureIndex_data.
Qed.

Lemma with_column_indices_indices (columns : list ColumnSchema)
    (c : Loki.Collection) (n : string) :
  n ∈ Loki.binaryIndices (with_column_indices columns c)
  ↔ n ∈ Loki.binaryIndices c
    ∨ ∃ column, column ∈ columns ∧ isIndexed column = true
                ∧ column_name column = n.
Proof.
  revert c. induction columns as [|column columns IH]; intros c.
  { simpl. split; [tauto|]. intros [?|(column & []%elem_of_nil & _)]. done. }
  cbn [with_column_indices foldl].
  destruct (isIndexed column) eqn:Hidx.
  - etrans; [apply IH|]. rewrite LokiFacts.ensureIndex_indices. split.
    + intros [[?| ->]|(column' & Hin & Hidx' & Hn)]; [by left| |].
      * right. exists column. split_and!; [left|done..].
      * right. exists column'. split_and!; [by right|done..].
    + intros [?|(column' & [->|Hin]%elem_of_cons & Hidx' & Hn)].
      * by left; left.
      * by left; right.
      * right. by exists column'.
  - etrans; [apply IH|]. split.
    + intros [?|(column' & Hin & Hidx' & Hn)]; [by left|].
      right. exists column'. split_and!; [by right|done..].
    + intros [?|(column' & [->|Hin]%elem_of_cons & Hidx' & Hn)].
      * by left.
      * congruence.
      * right. by exists column'.
Qed.

(** C8. An [add_columns] step on a table LokiJS maintains, with
    columns of distinct names none of which is [$loki] or the field
    of a unique index: [_executeAddColumnsMigration] returns; every
    record of the table has each new column set to its sanitized
    default (the sanitized [null]) and every field that is not a new
    column as before; the table has an index on a field exactly when
    it had one before or the field is a new column with [isIndexed];
    the other collections and the cache are as before. *)
Theorem addColumns_frame (step : MigrationStep) (s : Executor) c :
  loki s !! step_table step = Some c → Loki.wf c →
  NoDup (column_name <$> step_columns step) →
  Forall (λ column, column_name column ≠ "$loki"
                    ∧ column_name column ∉ Loki.uniqueNames c)
         (step_columns step) →
  ∃ s' c',
    _executeAddColumnsMigration sanitizedValue step s = Returned () s'
    ∧ loki s' !! step_table step = Some c'
    ∧ length (Loki.data c') = length (Loki.data c)
    ∧ (∀ i record, Loki.data c !! i = Some record →
         ∃ record', Loki.data c' !! i = Some record'
           ∧ (∀ column, column ∈ step_columns step →
                record' !! column_name column
                = Some (sanitizedValue VNull column))
           ∧ (∀ field, field ∉ column_name <$> step_columns step →
                record' !! field = record !! field))
    ∧ (∀ n, n ∈ Loki.binaryIndices c'
            ↔ n ∈ Loki.binaryIndices c
              ∨ ∃ column, column ∈ step_columns step
                          ∧ isIndexed column = true
                          ∧ column_name column = n)
    ∧ (∀ table', table' ≠ step_table step →
         loki s' !! table' = loki s !! table')
    ∧ cachedRecords s' = cachedRecords s.
Proof.
  intros Hc Hwf Hnd Hcols.
  pose proof (setNewColumns_keeps_identity _ c Hcols) as Hid.
  set (columns := step_columns step) in *.
  set (table := step_table step) in *.
  set (c1 := Loki.set_data c
               (setNewColumns sanitizedValue columns <$> Loki.data c)).
  set (s1 := with_loki (<[table := c1]> (loki s)) s).
  destruct (ensureColumnIndex_run table columns s1 c1)
    as (s' & Hrun & (_ & _ & Hcache & _) & Hc' & Hother);
    [apply lookup_insert_eq|].
  exists s', (with_column_indices columns c1).
  split_and!; [|done| | | | |done].
  - unfold _executeAddColumnsMigration. fold columns table.
    erewrite bind_Returned; [exact Hrun|].
    unfold collection_call, Loki.getCollection. rewrite Hc.
    by rewrite (LokiFacts.findAndUpdate_all _ c Hid Hwf).
  - rewrite with_column_indices_data. simpl. apply length_fmap.
  - intros i record Hi. rewrite with_column_indices_data. simpl.
    exists (setNewColumns sanitizedValue columns record). split_and!.
    + by rewrite list_lookup_fmap, Hi.
    + intros column Hin. by apply setNewColumns_new.
    + intros field Hfield. by apply setNewColumns_other.
  - intros n. by rewrite with_column_indices_indices.
  - intros table' Hne. rewrite Hother by done. simpl.
    by rewrite lookup_insert_ne.
Qed.

(** *** States the executor reaches *)

#[local] Instance stays_maintained_preorder :
  PreOrder (stays_maintained (SchemaMigrations := SchemaMigrations)).
Proof.
  split.
  - intros s H. exact H.
  - intros s1 s2 s3 H1 H2 H. exact (H2 (H1 H)).
Qed.

















(** *** A reset database *)

Lemma foldl_ensureIndex_fields (indices : list string) (c : Loki.Collection) :
  Loki.data (foldl (λ c p, Loki.ensureIndex p c) c indices) = Loki.data c
  ∧ Loki.uniqueNames (foldl (λ c p, Loki.ensureIndex p c) c indices)
    = Loki.uniqueNames c.
Proof.
  revert c. induction indices as [|p indices IH]; intros c; [done|]. simpl.
  destruct (IH (Loki.ensureIndex p c)) as [-> ->].
  by destruct (LokiFacts.ensureIndex_data p c) as (-> & -> & _).
Qed.

Lemma newCollection_fields (nm : string) (unique indices : list string) :
  Loki.data (Loki.newCollection nm unique indices) = []
  ∧ Loki.uniqueNames (Loki.newCollection nm unique indices) = unique.
Proof. apply foldl_ensureIndex_fields. Qed.

Lemma newCollection_wf (nm : string) (unique indices : list string) :
  Loki.wf (Loki.newCollection nm unique indices).
Proof.
  destruct (newCollection_fields nm unique indices) as [Hd Hu].
  unfold Loki.wf. rewrite Hd. split_and!; [done|apply NoDup_nil_2|].
  apply Forall_forall. intros f _. apply NoDup_nil_2.
Qed.

Lemma addCollection_table (nm : string) (indices : list string)
    (db : Loki.Db) :
  empty_tables db →
  empty_tables (Loki.addCollection nm ["id"] indices db)
  ∧ is_Some (Loki.addCollection nm ["id"] indices db !! nm)
  ∧ ∀ table, is_Some (db !! table) →
             is_Some (Loki.addCollection nm ["id"] indices db !! table).
Proof.
  intros He. unfold Loki.addCollection.
  destruct (db !! nm) as [c0|] eqn:Hnm.
  { split_and!; [done|by rewrite Hnm|done]. }
  destruct (newCollection_fields nm ["id"] indices) as [Hd Hu].
  split_and!.
  - intros t c. destruct (decide (t = nm)) as [->|Hne].
    + rewrite lookup_insert_eq. intros [= <-].
      split; [|done]. split; [apply newCollection_wf|done].
    + rewrite lookup_insert_ne by done. apply He.
  - by rewrite lookup_insert_eq.
  - intros t Ht. destruct (decide (t = nm)) as [->|Hne].
    + by rewrite lookup_insert_eq.
    + by rewrite lookup_insert_ne.
Qed.

Lemma addCollections_tables (tableSchemas : list TableSchema) (s : Executor) :
  empty_tables (loki s) →
  ∃ s', forEach _addCollection tableSchemas s = Returned () s'
        ∧ same_but_loki s s'
        ∧ empty_tables (loki s')
        ∧ (∀ table, is_Some (loki s !! table) → is_Some (loki s' !! table))
        ∧ Forall (λ ts, is_Some (loki s' !! table_name ts)) tableSchemas.
Proof.
  revert s. induction tableSchemas as [|ts tss IH]; intros s Hs.
  { exists s. by split_and!. }
  pose proof (addCollection_table (table_name ts)
                ("_status" ::
                   foldl (λ (indexes : list string) column,
                            if isIndexed column
                            then (indexes ++ [column_name column])%list
                            else indexes) [] (columns ts))
                (loki s) Hs) as (Hs1 & Hnew & Hmono).
  set (s1 := outcome_state (_addCollection ts s)).
  destruct (IH s1 Hs1) as (s' & Hrun & Hsame & Hs' & Hmono' & Hall).
  exists s'. split_and!; [|by etrans; [|exact Hsame]|done|by auto|].
  - cbn [forEach]. by erewrite bind_Returned by reflexivity.
  - apply Forall_cons. split; [by apply Hmono'|done].
Qed.

(** Reset completeness.  After [unsafeResetDatabase] returned, the
    store is as LokiJS maintains it, every table of the schema has its
    collection, with the unique index on [id] and without documents,
    and the cache is empty. *)
Theorem unsafeResetDatabase_complete (s s' : Executor) :
  unsafeResetDatabase s = Returned () s' →
  maintained s'
  ∧ cachedRecords s' = ∅
  ∧ Forall (λ ts, ∃ c, loki s' !! table_name ts = Some c
                       ∧ Loki.is_table c ∧ Loki.data c = [])
           (snd <$> tables (schema s)).
Proof.
  unfold unsafeResetDatabase.
  intros ([] & s0 & [= <-] & H)%bind_inv_Returned.
  apply bind_inv_Returned in H as ([] & s1 & [= <-] & H).
  apply bind_inv_Returned in H as ([] & s2 & [= <-] & H).
  unfold _setUpSchema in H.
  apply bind_inv_Returned in H as (tss & s3 & [= <- <-] & H).
  apply bind_inv_Returned in H as ([] & s4 & Hadd & H).
  apply bind_inv_Returned in H as ([] & s5 & [= <-] & H).
  apply bind_inv_Returned in H as (v & s6 & [= <- <-] & H).
  cbn [schema with_loki with_cachedRecords with_persisted loki persisted] in *.
  match type of Hadd with forEach _ _ ?s = _ => set (s2 := s) in * end.
  destruct (addCollections_tables (snd <$> tables (schema s)) s2)
    as (s4' & Hadd' & (_ & _ & Hcache4 & _) & Hs4 & _ & Hall).
  { intros t c. simpl. by rewrite lookup_empty. }
  rewrite Hadd' in Hadd. injection Hadd as ->.
  (* the marker is written in the local storage, which is therefore
     not one of the tables *)
  unfold set_databaseVersion, setLocal in H.
  apply bind_inv_Returned in H as (record & s6 & Hfind & H).
  apply _findLocal_Returned in Hfind as [-> Hrecord].
  cbn [loki with_loki] in Hrecord.
  assert (loki s4 !! "local_storage" = None) as Hnone.
  { destruct (loki s4 !! "local_storage") as [c|] eqn:Hc; [|done].
    unfold Loki.addCollection in Hrecord. rewrite Hc, Hc in Hrecord.
    destruct Hrecord as [Hkey _]. destruct (Hs4 _ c Hc) as [[_ Hu] _].
    rewrite Hu in Hkey. by apply list_elem_of_singleton in Hkey. }
  unfold Loki.addCollection in H, Hrecord. rewrite Hnone in H, Hrecord.
  rewrite lookup_insert_eq in Hrecord. destruct Hrecord as [_ ->].
  destruct (newCollection_fields "local_storage" ["key"] []) as [Hd Hu].
  rewrite Hd in H. cbn [list_find] in H.
  apply bind_inv_Returned in H as (r & s7 & Hcall & [= <-]).
  apply collection_call_Returned in Hcall as (c0 & c' & Hc0 & Hins & ->).
  cbn [loki with_loki] in Hc0. rewrite lookup_insert_eq in Hc0.
  injection Hc0 as <-.
  match type of Hins with
  | Loki.insert ?doc ?c = _ =>
      pose proof (LokiFacts.insert_wf doc c (newCollection_wf _ _ _)) as Hkept
  end.
  rewrite Hins, Hu in Hkept. cbn [outcome_state] in Hkept.
  destruct Hkept as [Hwf' Hu']; [by rewrite list_elem_of_singleton|].
  cbn [loki with_loki cachedRecords].
  split_and!.
  - intros t c. cbn [loki with_loki]. rewrite insert_insert_eq.
    destruct (decide (t = "local_storage")) as [->|Hne].
    + rewrite lookup_insert_eq. intros [= <-]. split; [done|by right].
    + rewrite lookup_insert_ne by done. intros Hc.
      destruct (Hs4 _ c Hc) as [[Hwf Hid] _]. split; [done|by left].
  - by rewrite Hcache4.
  - eapply Forall_impl; [exact Hall|]. intros ts [c Hc].
    cbn beta in *. exists c. rewrite insert_insert_eq.
    assert (table_name ts ≠ "local_storage") as Hne
      by (intros Heq; by rewrite Heq, Hnone in Hc).
    rewrite lookup_insert_ne by done.
    split; [done|]. exact (Hs4 _ c Hc).
Qed.

End ExecutorFacts.

(** * Further properties of the executor *)

(** ** The store and the cache *)

Section Store.
Context {SchemaMigrations : Type}.

Local Abbreviation Executor := (@LokiExecutor SchemaMigrations).

(** *** The record cache as a set of pairs *)

Lemma cached_markAsCached (table id t i : string) (s : Executor) :
  cached t i (outcome_state (markAsCached table id s))
  ↔ (t = table ∧ i = id) ∨ cached t i s.
Proof.
  unfold markAsCached, modify, cached. simpl.
  destruct (cachedRecords s !! table) as [cachedSet|] eqn:E; simpl;
    (destruct (decide (t = table)) as [->|Hne];
     [rewrite lookup_insert_eq, E|rewrite lookup_insert_ne by done]).
  - set_solver.
  - destruct (cachedRecords s !! t); naive_solver.
  - set_solver.
  - destruct (cachedRecords s !! t); naive_solver.
Qed.

Lemma cached_removeFromCache (table id t i : string) (s : Executor) :
  cached t i (outcome_state (removeFromCache table id s))
  ↔ cached t i s ∧ ¬ (t = table ∧ i = id).
Proof.
  unfold removeFromCache, modify, cached. simpl.
  destruct (cachedRecords s !! table) as [cachedSet|] eqn:E; simpl.
  - destruct (decide (t = table)) as [->|Hne].
    + rewrite lookup_insert_eq, E. set_solver.
    + rewrite lookup_insert_ne by done.
      destruct (cachedRecords s !! t); naive_solver.
  - destruct (decide (t = table)) as [->|Hne].
    + rewrite E. naive_solver.
    + destruct (cachedRecords s !! t); naive_solver.
Qed.

(** X1.  [markAsCached(table, id)] adds the pair of [table] and [id]
    to the cache and nothing else: afterwards [isCached] answers yes
    for that pair and, for every other pair, what it answered before.
    The store is not touched. *)
Theorem markAsCached_isCached (table id table' id' : string) (s : Executor) :
  ∃ s', markAsCached table id s = Returned () s'
        ∧ loki s' = loki s
        ∧ isCached table' id' s'
          = Returned (bool_decide ((table' = table ∧ id' = id)
                                   ∨ cached table' id' s)) s'.
Proof.
  exists (outcome_state (markAsCached table id s)). split_and!.
  - done.
  - unfold markAsCached, modify. simpl.
    by destruct (cachedRecords s !! table).
  - rewrite isCached_cached. f_equal. apply bool_decide_ext.
    apply cached_markAsCached.
Qed.

(** X2.  [removeFromCache(table, id)] takes the pair of [table] and
    [id] out of the cache and nothing else; on a table the cache has
    no set for, it changes nothing. *)
Theorem removeFromCache_isCached (table id table' id' : string)
    (s : Executor) :
  ∃ s', removeFromCache table id s = Returned () s'
        ∧ loki s' = loki s
        ∧ (cachedRecords s !! table = None → s' = s)
        ∧ isCached table' id' s'
          = Returned (bool_decide (cached table' id' s
                                   ∧ ¬ (table' = table ∧ id' = id))) s'.
Proof.
  exists (outcome_state (removeFromCache table id s)). split_and!.
  - done.
  - unfold removeFromCache, modify. simpl.
    by destruct (cachedRecords s !! table).
  - unfold removeFromCache, modify. simpl. by intros ->.
  - rewrite isCached_cached. f_equal. apply bool_decide_ext.
    apply cached_removeFromCache.
Qed.

(** *** Records with other ids *)

Lemma key_of_Some (field key : string) (d : DirtyRaw) :
  Loki.key_of field d = Some key ↔ d !! field = Some (VStr key).
Proof.
  unfold Loki.key_of.
  destruct (d !! field) as [[]|]; split; intros H; by simplify_eq.
Qed.

Section list_find_frame.
Context {A : Type} (P : A → Prop) `{!∀ x, Decision (P x)}.

Lemma list_find_insert_miss (l : list A) i x y :
  l !! i = Some x → ¬ P x → ¬ P y →
  list_find P (<[i := y]> l) = list_find P l.
Proof.
  revert i. induction l as [|z l IH]; intros [|i] Hi Hx Hy; simplify_eq/=.
  - by rewrite !decide_False by done.
  - by rewrite (IH i).
Qed.

Lemma list_find_delete_miss (l : list A) i x :
  l !! i = Some x → ¬ P x →
  snd <$> list_find P (delete i l) = snd <$> list_find P l.
Proof.
  revert i. induction l as [|z l IH]; intros [|i] Hi Hx; simplify_eq/=.
  - rewrite decide_False by done.
    by destruct (list_find P l) as [[]|].
  - case_decide; [done|]. specialize (IH i Hi Hx).
    destruct (list_find P (delete i l)) as [[]|],
             (list_find P l) as [[]|]; by simplify_eq/=.
Qed.

Lemma list_find_snoc_miss (l : list A) y :
  ¬ P y → list_find P (l ++ [y])%list = list_find P l.
Proof.
  intros Hy. induction l as [|z l IH]; simpl.
  - by rewrite decide_False.
  - by rewrite IH.
Qed.

End list_find_frame.

Lemma has_key_other (field key key' : string) (d : DirtyRaw) :
  Loki.key_of field d = Some key → key' ≠ key →
  Loki.has_key field key' d ≠ true.
Proof.
  intros Hk Hne Hk'%LokiFacts.has_key_key_of. congruence.
Qed.

Lemma stored_at (table field key : string) (s : Executor) c :
  loki s !! table = Some c →
  stored table field key s
  = snd <$> list_find (λ d, Loki.has_key field key d = true) (Loki.data c).
Proof. intros Hc. unfold stored. by rewrite Hc. Qed.

Lemma stored_with_loki (table field key : string) (s : Executor) c :
  stored table field key (with_loki (<[table := c]> (loki s)) s)
  = snd <$> list_find (λ d, Loki.has_key field key d = true) (Loki.data c).
Proof. apply stored_at. simpl. apply lookup_insert_eq. Qed.

(** On a table, a record is the one stored under its id. *)
Lemma stored_unique (table id : string) (s : Executor) c d :
  loki s !! table = Some c → Loki.is_table c →
  d ∈ Loki.data c → Loki.key_of "id" d = Some id →
  stored table "id" id s = Some d.
Proof.
  intros Hc Htable Hd Hk. rewrite (stored_at _ _ _ _ c Hc).
  apply list_elem_of_lookup in Hd as [j Hj].
  destruct (list_find (λ d, Loki.has_key "id" id d = true) (Loki.data c))
    as [[i d0]|] eqn:Hfind.
  - simpl. f_equal.
    destruct (decide (i = j)) as [->|Hne].
    { apply list_find_Some in Hfind as (Hi & _). congruence. }
    pose proof (key_gone "id" id (Loki.data c) i d0 (is_table_keys c Htable)
                  Hfind) as Hgone.
    apply list_find_None in Hgone. rewrite Forall_forall in Hgone.
    destruct (Hgone d); [|by apply LokiFacts.has_key_key_of].
    apply list_find_Some in Hfind as (Hi & _).
    apply list_elem_of_lookup.
    destruct (decide (j < i)%nat).
    + exists j. by rewrite list_lookup_delete_lt by done.
    + exists (pred j). rewrite list_lookup_delete_ge by lia.
      replace (S (pred j)) with j by lia. done.
  - apply list_find_None in Hfind. rewrite Forall_forall in Hfind.
    destruct (Hfind d); [|by apply LokiFacts.has_key_key_of].
    by eapply list_elem_of_lookup_2.
Qed.

(** *** Creating records *)

(** X3.  [create] of a record whose id already has a record in the
    table: the insert is refused and [create] throws; the documents of
    the table and the other collections are as before, and the id is
    not marked as cached. *)
Theorem create_duplicate (table : string) (raw : RawRecord) (s : Executor)
    c d :
  loki s !! table = Some c → "id" ∈ Loki.uniqueNames c →
  stored table "id" (raw_id raw) s = Some d →
  ∃ e s', create table raw s = Thrown e s'
          ∧ cachedRecords s' = cachedRecords s
          ∧ (Loki.data <$> loki s' !! table) = Some (Loki.data c)
          ∧ (∀ table', table' ≠ table → loki s' !! table' = loki s !! table').
Proof.
  intros Hc Hu Hst. rewrite (stored_at _ _ _ _ c Hc) in Hst.
  destruct (list_find _ _) as [[i d0]|] eqn:Hfind; [|done].
  apply list_find_Some in Hfind as (Hi & Hk & _).
  assert (∃ e c', Loki.insert (raw_object raw) c = Thrown e c'
                  ∧ Loki.data c' = Loki.data c) as (e & c' & Hins & Hdata).
  { unfold Loki.insert. case_decide; [by eexists _, _|].
    assert (Loki.any_key_clash c
              (<["$loki" := VNum (Loki.maxId c + 1)]> (raw_object raw))
              (Loki.data c) = true) as ->; [|by eexists _, _].
    unfold Loki.any_key_clash. apply existsb_exists. exists "id".
    split; [by apply list_elem_of_In|]. unfold Loki.key_clash.
    rewrite lookup_insert_ne by done. unfold raw_object.
    rewrite lookup_insert_eq. apply existsb_exists. exists d0.
    split; [|done]. apply list_elem_of_In. by eapply list_elem_of_lookup_2. }
  exists e, (with_loki (<[table := c']> (loki s)) s). split_and!.
  - unfold create. apply bind_Thrown.
    unfold collection_call, Loki.getCollection. by rewrite Hc, Hins.
  - done.
  - simpl. by rewrite lookup_insert_eq, <- Hdata.
  - intros table' Hne. simpl. by rewrite lookup_insert_ne.
Qed.

(** X4.  [update] of a record whose id has a record in the table:
    the new record takes the place of the stored one, under the
    [$loki] the stored one had; the records of other ids, the other
    collections and the cache are as before. *)
Theorem update_other_ids (table : string) (raw : RawRecord) (s : Executor)
    c saved :
  loki s !! table = Some c → Loki.is_table c →
  stored table "id" (raw_id raw) s = Some saved →
  ∃ lokiId s',
    saved !! "$loki" = Some lokiId
    ∧ update table raw s = Returned () s'
    ∧ stored table "id" (raw_id raw) s'
      = Some (<["$loki" := lokiId]> (raw_object raw))
    ∧ (∀ id', id' ≠ raw_id raw →
         stored table "id" id' s' = stored table "id" id' s)
    ∧ (∀ table', table' ≠ table → loki s' !! table' = loki s !! table')
    ∧ cachedRecords s' = cachedRecords s.
Proof.
  intros Hc Htable Hst. rewrite (stored_at _ _ _ _ c Hc) in Hst.
  destruct (list_find _ _) as [[i d]|] eqn:Hfind; [|done].
  injection Hst as ->.
  pose proof Hfind as (Hi & Hk & _)%list_find_Some.
  destruct (update_found table raw s c i saved Hc Htable Hfind)
    as (lokiId & Hl & Hup).
  set (doc := <["$loki" := lokiId]> (raw_object raw)) in *.
  assert (Loki.key_of "id" doc = Some (raw_id raw)) as Hkdoc.
  { unfold Loki.key_of, doc. rewrite lookup_insert_ne by done.
    apply raw_object_id. }
  eexists lokiId, _. split_and!; [done|exact Hup|..].
  - rewrite stored_with_loki. simpl.
    rewrite (LokiFacts.list_find_insert_hit _ _ _ saved doc); [done..|].
    by apply LokiFacts.has_key_key_of.
  - intros id' Hne. rewrite stored_with_loki, (stored_at _ _ _ _ c Hc). simpl.
    apply LokiFacts.has_key_key_of in Hk.
    rewrite (list_find_insert_miss _ _ _ saved doc); [done|done|..];
      by eapply has_key_other.
  - intros table' Hne. simpl. by rewrite lookup_insert_ne.
  - done.
Qed.

(** *** Deleting records *)

Lemma getDeletedRecords_read (table : string) (s : Executor) c :
  loki s !! table = Some c →
  getDeletedRecords table s
  = Returned ((λ d : DirtyRaw, d !! "id") <$> filter is_deleted (Loki.data c))
             s.
Proof.
  intros Hc. unfold getDeletedRecords, collection_read, Loki.getCollection.
  by rewrite Hc.
Qed.

(** [markAsDeleted] of an id that has a record, step by step. *)
Lemma markAsDeleted_run (table id : string) (s : Executor) c d :
  loki s !! table = Some c → Loki.is_table c →
  stored table "id" id s = Some d →
  ∃ s', markAsDeleted table id s = Returned () s'
        ∧ stored table "id" id s' = Some (<["_status" := VStr "deleted"]> d)
        ∧ (∀ id', id' ≠ id →
             stored table "id" id' s' = stored table "id" id' s)
        ∧ (∀ table', table' ≠ table → loki s' !! table' = loki s !! table')
        ∧ (∃ found, getDeletedRecords table s' = Returned found s'
                    ∧ Some (VStr id) ∈ found)
        ∧ (∀ t x, cached t x s' ↔ cached t x s ∧ ¬ (t = table ∧ x = id))
        ∧ schema s' = schema s
        ∧ ∃ c', loki s' !! table = Some c'
                ∧ Loki.uniqueNames c' = Loki.uniqueNames c.
Proof.
  intros Hc Htable Hst. rewrite (stored_at _ _ _ _ c Hc) in Hst.
  destruct (list_find _ _) as [[i d0]|] eqn:Hfind; [|done].
  injection Hst as ->.
  pose proof Hfind as (Hi & Hk & _)%list_find_Some.
  set (d' := <["_status" := VStr "deleted"]> d).
  assert (Loki.has_key "id" id d' = true) as Hk'.
  { unfold Loki.has_key, d' in *. apply bool_decide_eq_true.
    apply bool_decide_eq_true in Hk. by rewrite lookup_insert_ne. }
  set (c' := Loki.set_data c (<[i := d']> (Loki.data c))).
  set (s1 := with_loki (<[table := c']> (loki s)) s).
  assert (collection_call table (Loki.update_in_place i d') s
          = Returned d' s1) as Hcall.
  { unfold collection_call, Loki.getCollection. rewrite Hc.
    rewrite (LokiFacts.update_in_place_ok c i d d'); [done|by destruct Htable|done|..].
    - unfold d'. by rewrite lookup_insert_ne.
    - destruct Htable as [_ ->]. apply Forall_singleton.
      unfold Loki.key_of, d'. by rewrite lookup_insert_ne. }
  exists (outcome_state (removeFromCache table id s1)).
  assert (∀ field key,
            stored table field key (outcome_state (removeFromCache table id s1))
            = stored table field key s1) as Hsame.
  { intros field key. unfold stored, removeFromCache, modify. simpl.
    by destruct (cachedRecords s !! table). }
  assert (loki (outcome_state (removeFromCache table id s1)) = loki s1)
    as Hloki.
  { unfold removeFromCache, modify. simpl.
    by destruct (cachedRecords s !! table). }
  split_and!.
  - unfold markAsDeleted.
    erewrite bind_Returned by (by apply by_id_read, is_table_id).
    rewrite Hfind. by erewrite bind_Returned by exact Hcall.
  - rewrite Hsame. unfold s1. rewrite stored_with_loki. simpl.
    by rewrite (LokiFacts.list_find_insert_hit _ _ _ d d').
  - intros id' Hne. rewrite Hsame. unfold s1. rewrite stored_with_loki.
    rewrite (stored_at _ _ _ _ c Hc). simpl.
    apply LokiFacts.has_key_key_of in Hk, Hk'.
    rewrite (list_find_insert_miss _ _ _ d d'); [done|done|..];
      by eapply has_key_other.
  - intros table' Hne. rewrite Hloki. simpl. by rewrite lookup_insert_ne.
  - eexists. split.
    + apply getDeletedRecords_read. rewrite Hloki. apply lookup_insert_eq.
    + apply list_elem_of_fmap. exists d'. split.
      * apply bool_decide_eq_true in Hk'. done.
      * apply list_elem_of_filter. split.
        -- unfold is_deleted, d'. by rewrite lookup_insert_eq.
        -- simpl. eapply list_elem_of_lookup_2. apply list_lookup_insert_eq.
           by eapply lookup_lt_Some.
  - intros t x. rewrite cached_removeFromCache. done.
  - unfold removeFromCache, modify. simpl.
    by destruct (cachedRecords s !! table).
  - exists c'. split; [|done]. rewrite Hloki. apply lookup_insert_eq.
Qed.

(** X5.  [markAsDeleted] of an id that has a record: the record stays
    in the table with [_status] set to [deleted] and its other fields
    as they were; the records of other ids and the other collections
    are as before; [getDeletedRecords] lists the id; the id is evicted
    from the cache and no other. *)
Theorem markAsDeleted_found (table id : string) (s : Executor) c d :
  loki s !! table = Some c → Loki.is_table c →
  stored table "id" id s = Some d →
  ∃ s', markAsDeleted table id s = Returned () s'
        ∧ stored table "id" id s' = Some (<["_status" := VStr "deleted"]> d)
        ∧ (∀ id', id' ≠ id →
             stored table "id" id' s' = stored table "id" id' s)
        ∧ (∀ table', table' ≠ table → loki s' !! table' = loki s !! table')
        ∧ (∃ found, getDeletedRecords table s' = Returned found s'
                    ∧ Some (VStr id) ∈ found)
        ∧ (∀ t x, cached t x s' ↔ cached t x s ∧ ¬ (t = table ∧ x = id)).
Proof.
  intros Hc Htable Hst.
  destruct (markAsDeleted_run table id s c d Hc Htable Hst)
    as (s' & Hrun & Hd & Hids & Htables & Hdeleted & Hcache & _).
  by exists s'.
Qed.

(** X6.  [destroyPermanently] on a table: when the id has a record,
    the record is removed and the id evicted from the cache, the
    records of other ids, the other collections and the rest of the
    cache being as before; when the id has no record, it throws and
    changes nothing, so that an id that was cached stays cached. *)
Theorem destroyPermanently_outcome (table id : string) (s : Executor) c :
  loki s !! table = Some c → Loki.is_table c →
  match stored table "id" id s with
  | Some d =>
      ∃ s', destroyPermanently table id s = Returned () s'
            ∧ stored table "id" id s' = None
            ∧ (∀ id', id' ≠ id →
                 stored table "id" id' s' = stored table "id" id' s)
            ∧ (∀ table', table' ≠ table →
                 loki s' !! table' = loki s !! table')
            ∧ (∀ t x, cached t x s'
                      ↔ cached t x s ∧ ¬ (t = table ∧ x = id))
  | None =>
      destroyPermanently table id s
      = Thrown (Error "Parameter is not an object") s
  end.
Proof.
  intros Hc Htable. rewrite (stored_at _ _ _ _ c Hc).
  destruct (list_find _ _) as [[i d]|] eqn:Hfind; simpl.
  - pose proof Hfind as (Hi & Hk & _)%list_find_Some.
    set (c' := Loki.set_data c (delete i (Loki.data c))).
    set (s1 := with_loki (<[table := c']> (loki s)) s).
    exists (outcome_state (removeFromCache table id s1)).
    assert (∀ field key,
              stored table field key
                (outcome_state (removeFromCache table id s1))
              = stored table field key s1) as Hsame.
    { intros field key. unfold stored, removeFromCache, modify. simpl.
      by destruct (cachedRecords s !! table). }
    assert (loki (outcome_state (removeFromCache table id s1)) = loki s1)
      as Hloki.
    { unfold removeFromCache, modify. simpl.
      by destruct (cachedRecords s !! table). }
    split_and!.
    + unfold destroyPermanently.
      erewrite bind_Returned by (by apply by_id_read, is_table_id).
      rewrite Hfind. change (snd <$> Some (i, d)) with (Some d).
      erewrite bind_Returned; [reflexivity|].
      unfold collection_call, Loki.getCollection. rewrite Hc.
      by rewrite (LokiFacts.remove_stored c i d) by (by destruct Htable).
    + rewrite Hsame. unfold s1. rewrite stored_with_loki. simpl.
      by rewrite (key_gone "id" id (Loki.data c) i d (is_table_keys c Htable)).
    + intros id' Hne. rewrite Hsame. unfold s1. rewrite stored_with_loki.
      rewrite (stored_at _ _ _ _ c Hc). simpl.
      apply (list_find_delete_miss _ _ _ d); [done|].
      apply LokiFacts.has_key_key_of in Hk. by eapply has_key_other.
    + intros table' Hne. rewrite Hloki. simpl. by rewrite lookup_insert_ne.
    + intros t x. rewrite cached_removeFromCache. done.
  - unfold destroyPermanently.
    erewrite bind_Returned by (by apply by_id_read, is_table_id).
    rewrite Hfind. apply bind_Thrown.
    unfold collection_call, Loki.getCollection. rewrite Hc. simpl.
    f_equal. unfold with_loki. rewrite insert_id by done. by destruct s.
Qed.

Lemma getDeletedRecords_found (table id : string) (s : Executor) c :
  loki s !! table = Some c → Loki.is_table c →
  Some (VStr id)
    ∈ (λ d : DirtyRaw, d !! "id") <$> filter is_deleted (Loki.data c)
  ↔ ∃ d, stored table "id" id s = Some d ∧ is_deleted d.
Proof.
  intros Hc Htable. rewrite list_elem_of_fmap. split.
  - intros (d & Hid & [Hdel Hd]%list_elem_of_filter). exists d.
    split; [|done]. apply (stored_unique _ _ _ c); [done..|].
    by apply key_of_Some.
  - intros (d & Hst & Hdel). exists d.
    rewrite (stored_at _ _ _ _ c Hc) in Hst.
    destruct (list_find _ _) as [[i d0]|] eqn:Hfind; [|done].
    injection Hst as ->. apply list_find_Some in Hfind as (Hi & Hk & _).
    split.
    + symmetry. by apply key_of_Some, LokiFacts.has_key_key_of.
    + apply list_elem_of_filter. split; [done|].
      by eapply list_elem_of_lookup_2.
Qed.

(** X7.  [getDeletedRecords] on a table reads only: it returns, the
    state is as before, and the ids it lists are exactly the ids whose
    record has [_status] [deleted]. *)
Theorem getDeletedRecords_ids (table : string) (s : Executor) c :
  loki s !! table = Some c → Loki.is_table c →
  ∃ found, getDeletedRecords table s = Returned found s
           ∧ ∀ id, Some (VStr id) ∈ found
                   ↔ ∃ d, stored table "id" id s = Some d ∧ is_deleted d.
Proof.
  intros Hc Htable. eexists. split; [by apply getDeletedRecords_read|].
  intros id. by apply getDeletedRecords_found.
Qed.

Lemma destroyDeletedRecords_frame (table : string) (ids : list string)
    (s : Executor) c :
  loki s !! table = Some c → Loki.is_table c →
  ∃ s' c', destroyDeletedRecords table ids s = Returned () s'
           ∧ same_but_loki s s'
           ∧ loki s' !! table = Some c' ∧ Loki.is_table c'
           ∧ Loki.data c' `sublist_of` Loki.data c
           ∧ (∀ table', table' ≠ table → loki s' !! table' = loki s !! table')
           ∧ ∀ id, stored table "id" id s'
                   = if decide (id ∈ ids) then None
                     else stored table "id" id s.
Proof.
  unfold destroyDeletedRecords.
  revert s c. induction ids as [|y ids IH]; intros s c Hc Htable.
  { exists s, c. by split_and!. }
  cbn [forEach].
  destruct (list_find (λ d, Loki.has_key "id" y d = true) (Loki.data c))
    as [[i d]|] eqn:Hby.
  - set (c2 := Loki.set_data c (delete i (Loki.data c))).
    set (s2 := with_loki (<[table := c2]> (loki s)) s).
    assert (loki s2 !! table = Some c2) as Hc2 by apply lookup_insert_eq.
    destruct (IH s2 c2 Hc2 (is_table_delete c i Htable))
      as (s' & c' & Hrun & Hsame & Hc' & Htable' & Hsub & Hother & Hst).
    pose proof Hby as (Hi & Hk & _)%list_find_Some.
    exists s', c'. split_and!; [| |done|done| | |].
    + by erewrite bind_Returned by (by eapply destroyDeletedRecord_found).
    + destruct Hsame as (?&?&?&?). by split_and!.
    + etrans; [exact Hsub|apply sublist_delete].
    + intros table' Hne. rewrite Hother by done. simpl.
      by rewrite lookup_insert_ne.
    + intros id. rewrite Hst. unfold s2. rewrite stored_with_loki.
      rewrite (stored_at _ _ _ _ c Hc). simpl.
      destruct (decide (id = y)) as [->|Hne].
      * rewrite (decide_True (P := y ∈ y :: ids)) by left.
        rewrite (key_gone "id" y (Loki.data c) i d (is_table_keys c Htable))
          by done.
        by case_decide.
      * rewrite (list_find_delete_miss _ _ _ d); [|done|].
        -- apply decide_ext. rewrite elem_of_cons. tauto.
        -- apply LokiFacts.has_key_key_of in Hk. by eapply has_key_other.
  - assert (stored table "id" y s = None) as Hnone.
    { rewrite (stored_at _ _ _ _ c Hc). by rewrite Hby. }
    destruct (IH s c Hc Htable)
      as (s' & c' & Hrun & Hsame & Hc' & Htable' & Hsub & Hother & Hst).
    exists s', c'. split_and!; [|done..|].
    + by erewrite bind_Returned
        by (apply (destroyDeletedRecord_absent _ _ _ c);
            [done|by apply is_table_id|done]).
    + intros id. rewrite Hst.
      destruct (decide (id = y)) as [->|Hne].
      * rewrite (decide_True (P := y ∈ y :: ids)) by left.
        by case_decide.
      * apply decide_ext. rewrite elem_of_cons. tauto.
Qed.

(** X8.  [destroyDeletedRecords] on a table returns and removes
    exactly the records of the ids it is given: afterwards an id of
    the list has no record, and every other id has the record it had;
    the other collections and the cache are as before. *)
Theorem destroyDeletedRecords_exactly (table : string) (ids : list string)
    (s : Executor) c :
  loki s !! table = Some c → Loki.is_table c →
  ∃ s', destroyDeletedRecords table ids s = Returned () s'
        ∧ cachedRecords s' = cachedRecords s
        ∧ (∀ table', table' ≠ table → loki s' !! table' = loki s !! table')
        ∧ ∀ id, stored table "id" id s'
                = if decide (id ∈ ids) then None else stored table "id" id s.
Proof.
  intros Hc Htable.
  destruct (destroyDeletedRecords_frame table ids s c Hc Htable)
    as (s' & c' & Hrun & (_ & _ & Hcache & _) & _ & _ & _ & Hother & Hst).
  by exists s'.
Qed.

(** X9.  Purging: when the ids [getDeletedRecords] lists are handed
    to [destroyDeletedRecords], both calls return, no record marked as
    deleted is left, so that [getDeletedRecords] then lists nothing,
    and every record that is not marked as deleted is still stored
    under its id. *)
Theorem destroy_all_deleted (table : string) (s : Executor) c :
  loki s !! table = Some c → Loki.is_table c →
  Forall (λ d, is_deleted d → is_Some (Loki.key_of "id" d)) (Loki.data c) →
  ∃ found s',
    getDeletedRecords table s = Returned found s
    ∧ destroyDeletedRecords table (record_ids found) s = Returned () s'
    ∧ getDeletedRecords table s' = Returned [] s'
    ∧ ∀ id d, stored table "id" id s = Some d → ¬ is_deleted d →
              stored table "id" id s' = Some d.
Proof.
  intros Hc Htable Hids.
  set (found := (λ d : DirtyRaw, d !! "id")
                  <$> filter is_deleted (Loki.data c)).
  destruct (destroyDeletedRecords_frame table (record_ids found) s c Hc Htable)
    as (s' & c' & Hrun & _ & Hc' & Htable' & Hsub & _ & Hst).
  assert (∀ id, id ∈ record_ids found
                ↔ ∃ d, stored table "id" id s = Some d ∧ is_deleted d)
    as Hfound.
  { intros id. rewrite <- (getDeletedRecords_found table id s c Hc Htable).
    fold found. unfold record_ids. rewrite list_elem_of_omap. split.
    - intros ([[| | |]|] & Hin & Heq); by simplify_eq.
    - intros Hin. by exists (Some (VStr id)). }
  exists found, s'. split_and!; [by apply getDeletedRecords_read|done| |].
  - rewrite (getDeletedRecords_read table s' c' Hc').
    destruct (filter is_deleted (Loki.data c')) as [|d rest] eqn:Hf; [done|].
    exfalso.
    assert (d ∈ filter is_deleted (Loki.data c')) as [Hdel Hd]%list_elem_of_filter
      by (rewrite Hf; left).
    assert (d ∈ Loki.data c) as Hd0 by (by eapply sublist_subseteq).
    rewrite Forall_forall in Hids. destruct (Hids d Hd0 Hdel) as [id Hid].
    pose proof (stored_unique table id s' c' d Hc' Htable' Hd Hid) as Hs'.
    rewrite Hst in Hs'. rewrite decide_True in Hs'; [done|].
    apply Hfound. exists d. split; [|done].
    by apply (stored_unique _ _ _ c).
  - intros id d Hd Hdel. rewrite Hst. rewrite decide_False; [done|].
    intros (d' & Hd' & Hdel')%Hfound. congruence.
Qed.

(** *** Batches *)

Lemma batch_operation_unknown (operation : WorkerBatchOperation) :
  ¬ known_operation operation →
  batch_operation (SchemaMigrations := SchemaMigrations) operation = mret ().
Proof.
  destruct operation as [[type table] raw]. unfold known_operation. simpl.
  intros H. unfold batch_operation.
  rewrite !decide_False; [done|..]; intros ->; apply H; set_solver.
Qed.

Lemma forEach_app {A} (f : A → M unit) (before after : list A)
    (s : Executor) :
  forEach f (before ++ after) s
  = match forEach f before s with
    | Returned _ s1 => forEach f after s1
    | Thrown e s1 => Thrown e s1
    end.
Proof.
  revert s. induction before as [|x before IH]; intros s; [done|].
  simpl. unfold mbind, M_bind.
  destruct (f x s) as [[] s1|e s1]; [apply IH|done].
Qed.

Lemma batch_app (before after : list WorkerBatchOperation) (s : Executor) :
  batch (before ++ after) s
  = match batch before s with
    | Returned _ s1 => batch after s1
    | Thrown e s1 => Thrown e s1
    end.
Proof. apply forEach_app. Qed.

(** X10.  [batch] passes over an operation whose type is none of
    [create], [update], [markAsDeleted] and [destroyPermanently]: the
    batch does what it does without these operations. *)
Theorem batch_skips_unknown (operations : list WorkerBatchOperation)
    (s : Executor) :
  batch operations s = batch (filter known_operation operations) s.
Proof.
  unfold batch. revert s.
  induction operations as [|op operations IH]; intros s; [done|].
  destruct (decide (known_operation op)) as [Hk|Hk].
  - rewrite filter_cons_True by done. simpl. unfold mbind, M_bind.
    destruct (batch_operation op s) as [[] s1|e s1]; [apply IH|done].
  - rewrite filter_cons_False by done. simpl.
    rewrite batch_operation_unknown by done. apply IH.
Qed.

(** X11.  [batch] is not transactional: when the operations before
    one have returned and that one throws, the batch throws what it
    threw, in the state the operation left; what the earlier operations
    did stays done, and the operations after it are not run. *)
Theorem batch_stops_at_failure (before after : list WorkerBatchOperation)
    (operation : WorkerBatchOperation) (s s1 s2 : Executor) e :
  batch before s = Returned () s1 →
  batch [operation] s1 = Thrown e s2 →
  batch (before ++ operation :: after) s = Thrown e s2.
Proof.
  intros Hbefore Hop. rewrite batch_app, Hbefore.
  change (operation :: after) with ([operation] ++ after)%list.
  by rewrite batch_app, Hop.
Qed.

(** *** The local storage *)

Lemma getLocal_stored (key : string) (s : Executor) :
  (∀ c, loki s !! "local_storage" = Some c → "key" ∈ Loki.uniqueNames c) →
  getLocal key s
  = Returned (stored "local_storage" "key" key s
                ≫= λ d : DirtyRaw, d !! "value") s.
Proof.
  intros Hu. unfold getLocal, stored, mbind at 1, M_bind, _findLocal,
    Loki.getCollection.
  destruct (loki s !! "local_storage") as [c|] eqn:Hc; [|done].
  unfold Loki.by_. rewrite decide_True by auto. simpl.
  by destruct (list_find _ _) as [[]|].
Qed.

Lemma is_local_storage_keys (c : Loki.Collection) :
  is_local_storage c → NoDup (omap (Loki.key_of "key") (Loki.data c)).
Proof.
  intros [(_ & _ & Hkeys) Hu]. rewrite Hu in Hkeys.
  by rewrite Forall_singleton in Hkeys.
Qed.

Lemma is_local_storage_key (c : Loki.Collection) :
  is_local_storage c → "key" ∈ Loki.uniqueNames c.
Proof. intros [_ ->]. by apply list_elem_of_singleton. Qed.

Lemma getLocal_at (key : string) (s : Executor) c :
  loki s !! "local_storage" = Some c → is_local_storage c →
  getLocal key s
  = Returned ((snd <$> list_find (λ d, Loki.has_key "key" key d = true)
                                 (Loki.data c))
                ≫= λ d : DirtyRaw, d !! "value") s.
Proof.
  intros Hc Hls. rewrite getLocal_stored.
  - by rewrite (stored_at _ _ _ _ c Hc).
  - intros c0 Hc0. rewrite Hc in Hc0. injection Hc0 as <-.
    by apply is_local_storage_key.
Qed.

Lemma setLocal_run (key value : string) (s : Executor) c :
  loki s !! "local_storage" = Some c → is_local_storage c →
  ∃ s' c',
    setLocal key value s = Returned () s'
    ∧ same_but_loki s s'
    ∧ (∀ table, table ≠ "local_storage" → loki s' !! table = loki s !! table)
    ∧ loki s' !! "local_storage" = Some c' ∧ is_local_storage c'
    ∧ getLocal key s' = Returned (Some (VStr value)) s'
    ∧ ∀ key', key' ≠ key →
        ∃ local, getLocal key' s = Returned local s
                 ∧ getLocal key' s' = Returned local s'.
Proof.
  intros Hc Hls. pose proof Hls as [Hwf Hu].
  assert (∃ c', collection_call "local_storage"
                  (match list_find (λ d, Loki.has_key "key" key d = true)
                                   (Loki.data c) with
                   | Some (pos, record) =>
                       Loki.update_in_place pos
                         (<["value" := VStr value]> record)
                   | None =>
                       Loki.insert (<["key" := VStr key]>
                                      (<["value" := VStr value]> ∅))
                   end) s
                = Returned
                    (match list_find (λ d, Loki.has_key "key" key d = true)
                                     (Loki.data c) with
                     | Some (pos, record) => <["value" := VStr value]> record
                     | None => <["$loki" := VNum (Loki.maxId c + 1)]>
                                 (<["key" := VStr key]>
                                    (<["value" := VStr value]> ∅))
                     end)
                    (with_loki (<["local_storage" := c']> (loki s)) s)
                ∧ is_local_storage c'
                ∧ ∀ key', key' ≠ key →
                    list_find (λ d, Loki.has_key "key" key' d = true)
                              (Loki.data c')
                    = list_find (λ d, Loki.has_key "key" key' d = true)
                                (Loki.data c))
    as (c' & Hcall & Hls' & Hframe).
  { unfold collection_call, Loki.getCollection. rewrite Hc.
    destruct (list_find _ _) as [[pos d]|] eqn:Hby.
    - pose proof Hby as (Hpos & Hk & _)%list_find_Some.
      set (d' := <["value" := VStr value]> d).
      assert (d' !! "$loki" = d !! "$loki") as Hl
        by (unfold d'; by rewrite lookup_insert_ne).
      assert (Forall (λ field, Loki.key_of field d' = Loki.key_of field d)
                     (Loki.uniqueNames c)) as Hkeys.
      { rewrite Hu. apply Forall_singleton. unfold Loki.key_of, d'.
        by rewrite lookup_insert_ne. }
      exists (Loki.set_data c (<[pos := d']> (Loki.data c))). split_and!.
      + by rewrite (LokiFacts.update_in_place_ok c pos d d').
      + split; [by eapply LokiFacts.wf_insert_same|done].
      + intros key' Hne. simpl.
        apply LokiFacts.has_key_key_of in Hk.
        apply (list_find_insert_miss _ _ _ d d'); [done|..].
        * by eapply has_key_other.
        * eapply has_key_other; [|done]. unfold Loki.key_of, d'.
          rewrite lookup_insert_ne by done. exact Hk.
    - set (doc := <["key" := VStr key]> (<["value" := VStr value]> ∅)).
      destruct (LokiFacts.insert_new c doc) as [Hins Hwf']; [done|..].
      { unfold doc. by rewrite lookup_insert_ne, lookup_insert_ne. }
      { rewrite Hu, list_elem_of_singleton. done. }
      { rewrite Hu. apply Forall_singleton. unfold Loki.key_clash, doc.
        rewrite lookup_insert_eq. by apply list_find_None_existsb. }
      eexists. split_and!.
      + by rewrite Hins.
      + by split.
      + intros key' Hne. simpl. apply list_find_snoc_miss.
        eapply has_key_other; [|done]. unfold Loki.key_of, doc.
        rewrite lookup_insert_ne by done. by rewrite lookup_insert_eq. }
  assert (setLocal key value s
          = Returned () (with_loki (<["local_storage" := c']> (loki s)) s))
    as Hset.
  { unfold setLocal.
    erewrite bind_Returned
      by (apply _findLocal_collection; [done|by apply is_local_storage_key]).
    destruct (list_find _ _) as [[pos d]|];
      by erewrite bind_Returned by exact Hcall. }
  eexists _, c'. split_and!; [exact Hset|done| |apply lookup_insert_eq|done| |].
  - intros table Hne. simpl. by rewrite lookup_insert_ne.
  - by apply (setLocal_getLocal key value s).
  - intros key' Hne. eexists. split; [by apply getLocal_at|].
    rewrite (getLocal_at key' _ c'); [|apply lookup_insert_eq|done].
    by rewrite Hframe.
Qed.

(** X12.  [setLocal] on the local storage returns; afterwards
    [getLocal] of the key yields the value, and [getLocal] of any other
    key yields what it yielded before.  The local storage stays as
    LokiJS maintains it, with one entry for a key at most; the tables
    and the cache are as before. *)
Theorem setLocal_other_keys (key value : string) (s : Executor) c :
  loki s !! "local_storage" = Some c → is_local_storage c →
  ∃ s' c',
    setLocal key value s = Returned () s'
    ∧ same_but_loki s s'
    ∧ (∀ table, table ≠ "local_storage" → loki s' !! table = loki s !! table)
    ∧ loki s' !! "local_storage" = Some c' ∧ is_local_storage c'
    ∧ getLocal key s' = Returned (Some (VStr value)) s'
    ∧ ∀ key', key' ≠ key →
        ∃ local, getLocal key' s = Returned local s
                 ∧ getLocal key' s' = Returned local s'.
Proof. apply setLocal_run. Qed.

(** X13.  [removeLocal] on the local storage returns; afterwards
    [getLocal] of the key yields null, and [getLocal] of any other key
    yields what it yielded before; a key that has no entry is passed
    over and nothing changes.  The tables and the cache are as
    before. *)
Theorem removeLocal_other_keys (key : string) (s : Executor) c :
  loki s !! "local_storage" = Some c → is_local_storage c →
  ∃ s', removeLocal key s = Returned () s'
        ∧ same_but_loki s s'
        ∧ (∀ table, table ≠ "local_storage" →
             loki s' !! table = loki s !! table)
        ∧ (stored "local_storage" "key" key s = None → s' = s)
        ∧ getLocal key s' = Returned None s'
        ∧ ∀ key', key' ≠ key →
            ∃ local, getLocal key' s = Returned local s
                     ∧ getLocal key' s' = Returned local s'.
Proof.
  intros Hc Hls. pose proof Hls as [Hwf Hu].
  unfold removeLocal.
  erewrite bind_Returned
    by (apply _findLocal_collection; [done|by apply is_local_storage_key]).
  destruct (list_find _ _) as [[pos d]|] eqn:Hby.
  - pose proof Hby as (Hpos & Hk & _)%list_find_Some.
    set (c' := Loki.set_data c (delete pos (Loki.data c))).
    assert (is_local_storage c') as Hls'
      by (split; [by apply LokiFacts.wf_delete|done]).
    exists (with_loki (<["local_storage" := c']> (loki s)) s). split_and!.
    + erewrite bind_Returned; [reflexivity|].
      unfold collection_call, Loki.getCollection. rewrite Hc.
      by rewrite (LokiFacts.remove_stored c pos d).
    + done.
    + intros table Hne. simpl. by rewrite lookup_insert_ne.
    + rewrite (stored_at _ _ _ _ c Hc), Hby. done.
    + rewrite (getLocal_at key _ c'); [|apply lookup_insert_eq|done].
      simpl. by rewrite (key_gone "key" key (Loki.data c) pos d
                           (is_local_storage_keys c Hls)).
    + intros key' Hne. eexists. split; [by apply getLocal_at|].
      rewrite (getLocal_at key' _ c'); [|apply lookup_insert_eq|done].
      simpl. rewrite (list_find_delete_miss _ _ _ d); [done|done|].
      apply LokiFacts.has_key_key_of in Hk. by eapply has_key_other.
  - exists s. split_and!; [done..| |].
    + rewrite (getLocal_at key s c) by done. by rewrite Hby.
    + intros key' Hne. eexists. split; by apply getLocal_at.
Qed.

(** X14.  Before the local storage exists (no [setUp] yet, or a
    database without the collection), [getLocal] yields null and
    [removeLocal] returns, both leaving the state as it is, while
    [setLocal] throws a TypeError and stores nothing. *)
Theorem local_storage_missing (key value : string) (s : Executor) :
  loki s !! "local_storage" = None →
  getLocal key s = Returned None s
  ∧ removeLocal key s = Returned () s
  ∧ ∃ msg, setLocal key value s = Thrown (TypeError msg) s.
Proof.
  intros Hc.
  assert (_findLocal key s = Returned None s) as Hfind.
  { unfold _findLocal, Loki.getCollection. by rewrite Hc. }
  split_and!.
  - unfold getLocal. by erewrite bind_Returned by exact Hfind.
  - unfold removeLocal. by erewrite bind_Returned by exact Hfind.
  - eexists. unfold setLocal. erewrite bind_Returned by exact Hfind.
    apply bind_Thrown. unfold collection_call, Loki.getCollection.
    by rewrite Hc.
Qed.

(** *** Collections of the schema *)

Lemma indexedColumns_elem (columns : list ColumnSchema) (acc : list string)
    (n : string) :
  n ∈ foldl (λ (indexes : list string) column,
               if isIndexed column then (indexes ++ [column_name column])%list
               else indexes) acc columns
  ↔ n ∈ acc ∨ ∃ column, column ∈ columns ∧ isIndexed column = true
                        ∧ column_name column = n.
Proof.
  revert acc. induction columns as [|column columns IH]; intros acc; simpl.
  { split; [tauto|]. by intros [?|(column & []%elem_of_nil & _)]. }
  rewrite IH. destruct (isIndexed column) eqn:Hidx.
  - rewrite elem_of_app, list_elem_of_singleton. split.
    + intros [[?| ->]|(column' & Hin & Hidx' & Hn)]; [by left| |].
      * right. exists column. split_and!; [left|done..].
      * right. exists column'. split_and!; [by right|done..].
    + intros [?|(column' & [->|Hin]%elem_of_cons & Hidx' & Hn)].
      * by left; left.
      * by left; right.
      * right. by exists column'.
  - split.
    + intros [?|(column' & Hin & Hidx' & Hn)]; [by left|].
      right. exists column'. split_and!; [by right|done..].
    + intros [?|(column' & [->|Hin]%elem_of_cons & Hidx' & Hn)].
      * by left.
      * congruence.
      * right. by exists column'.
Qed.

Lemma foldl_ensureIndex_indices (indices : list string) (c : Loki.Collection)
    (n : string) :
  n ∈ Loki.binaryIndices (foldl (λ c p, Loki.ensureIndex p c) c indices)
  ↔ n ∈ Loki.binaryIndices c ∨ n ∈ indices.
Proof.
  revert c. induction indices as [|p indices IH]; intros c; simpl.
  { rewrite elem_of_nil. tauto. }
  rewrite IH, LokiFacts.ensureIndex_indices, elem_of_cons. naive_solver.
Qed.

Lemma foldl_ensureIndex_name (indices : list string) (c : Loki.Collection) :
  Loki.name (foldl (λ c p, Loki.ensureIndex p c) c indices) = Loki.name c.
Proof.
  revert c. induction indices as [|p indices IH]; intros c; [done|]. simpl.
  rewrite IH. unfold Loki.ensureIndex. by case_decide.
Qed.

(** X15.  A [create_table] step, and [_addCollection] with it: a
    table that has no collection yet gets one, without documents, with
    the unique index on [id] and binary indices on [_status] and on the
    columns that have [isIndexed], and on nothing else; a collection
    that is there under the name is left as it is, with its records.
    The other collections and the cache are as before. *)
Theorem createTable_migration (step : MigrationStep) (s : Executor) :
  ∃ s', _executeCreateTableMigration step s = Returned () s'
        ∧ same_but_loki s s'
        ∧ (∀ table, table ≠ step_name step →
             loki s' !! table = loki s !! table)
        ∧ match loki s !! step_name step with
          | Some c => loki s' !! step_name step = Some c
          | None =>
              ∃ c', loki s' !! step_name step = Some c'
                    ∧ Loki.name c' = step_name step
                    ∧ Loki.is_table c' ∧ Loki.data c' = []
                    ∧ ∀ n, n ∈ Loki.binaryIndices c'
                           ↔ n = "_status"
                             ∨ ∃ column, column ∈ step_columns step
                                         ∧ isIndexed column = true
                                         ∧ column_name column = n
          end.
Proof.
  eexists. split; [reflexivity|]. split_and!.
  - done.
  - intros table Hne. simpl. unfold Loki.addCollection.
    destruct (loki s !! step_name step); [done|].
    by rewrite lookup_insert_ne.
  - simpl. unfold Loki.addCollection.
    destruct (loki s !! step_name step) as [c|] eqn:Hc; [done|].
    eexists. split; [apply lookup_insert_eq|].
    destruct (newCollection_fields (step_name step) ["id"]
                ("_status" ::
                   foldl (λ (indexes : list string) column,
                            if isIndexed column
                            then (indexes ++ [column_name column])%list
                            else indexes) [] (step_columns step)))
      as [Hd Hu].
    split_and!; [apply foldl_ensureIndex_name| |done|].
    + split; [apply newCollection_wf|done].
    + intros n. unfold Loki.newCollection.
      rewrite foldl_ensureIndex_indices. simpl.
      rewrite elem_of_cons, indexedColumns_elem, !elem_of_nil. naive_solver.
Qed.

(** *** Resetting the database *)

Lemma addCollection_names (nm : string) (unique indices : list string)
    (db : Loki.Db) (table : string) :
  is_Some (Loki.addCollection nm unique indices db !! table)
  ↔ is_Some (db !! table) ∨ table = nm.
Proof.
  unfold Loki.addCollection. destruct (db !! nm) as [c|] eqn:Hnm.
  - split; [by left|]. intros [?| ->]; [done|]. by rewrite Hnm.
  - destruct (decide (table = nm)) as [->|Hne].
    + rewrite lookup_insert_eq. split; [by right|done].
    + rewrite lookup_insert_ne by done. naive_solver.
Qed.

Lemma addCollections_names (tableSchemas : list TableSchema) (s s' : Executor)
    (table : string) :
  forEach _addCollection tableSchemas s = Returned () s' →
  is_Some (loki s' !! table)
  ↔ is_Some (loki s !! table) ∨ table ∈ table_name <$> tableSchemas.
Proof.
  revert s. induction tableSchemas as [|ts tss IH]; intros s.
  { intros [= ->]. rewrite fmap_nil, elem_of_nil. tauto. }
  cbn [forEach]. intros (r & s1 & Hhd & Hrest)%bind_inv_Returned.
  assert (s1 = outcome_state (_addCollection ts s)) as ->
    by (by rewrite Hhd).
  rewrite (IH _ Hrest). cbn [_addCollection modify outcome_state loki with_loki].
  rewrite addCollection_names.
  rewrite fmap_cons, elem_of_cons. tauto.
Qed.

Lemma unsafeResetDatabase_run (s : Executor) :
  Forall (λ ts, table_name ts ≠ "local_storage") (snd <$> tables (schema s)) →
  ∃ s', unsafeResetDatabase s = Returned () s'
        ∧ schema s' = schema s ∧ migrations s' = migrations s
        ∧ persisted s' = ∅ ∧ cachedRecords s' = ∅
        ∧ maintained s'
        ∧ (∀ table, is_Some (loki s' !! table)
                    ↔ table = "local_storage"
                      ∨ table ∈ table_name <$> (snd <$> tables (schema s)))
        ∧ (∀ table c, table ≠ "local_storage" → loki s' !! table = Some c →
             Loki.is_table c ∧ Loki.data c = [])
        ∧ getLocal SCHEMA_VERSION_KEY s'
          = Returned (Some (VStr (JS.toString (version (schema s))))) s'
        ∧ (JS.isSafeInteger (version (schema s)) →
           get_databaseVersion s' = Returned (version (schema s)) s')
        ∧ ∀ key, key ≠ SCHEMA_VERSION_KEY → getLocal key s' = Returned None s'.
Proof.
  intros Hnames.
  set (s2 := with_loki ∅ (with_cachedRecords ∅ (with_persisted ∅ s))).
  destruct (addCollections_tables (snd <$> tables (schema s)) s2)
    as (s4 & Hadd & (Hsch4 & Hmig4 & Hcache4 & Hper4) & Hs4 & _ & Hall).
  { intros t c. simpl. by rewrite lookup_empty. }
  assert (loki s4 !! "local_storage" = None) as Hnone.
  { apply eq_None_not_Some.
    rewrite (addCollections_names _ _ _ _ Hadd). simpl.
    rewrite lookup_empty. intros [[? [=]]|Hin].
    apply list_elem_of_fmap in Hin as (ts & Heq & Hts).
    rewrite Forall_forall in Hnames. by apply (Hnames ts Hts). }
  set (c5 := Loki.newCollection "local_storage" ["key"] []).
  set (s5 := with_loki (<["local_storage" := c5]> (loki s4)) s4).
  assert (is_local_storage c5) as Hls5.
  { split; [apply newCollection_wf|].
    apply (newCollection_fields "local_storage" ["key"] []). }
  destruct (setLocal_run SCHEMA_VERSION_KEY (JS.toString (version (schema s)))
              s5 c5) as (s' & c' & Hset & Hsame & Hother & Hc' & Hls' & _ & Hkeys);
    [apply lookup_insert_eq|done|].
  destruct Hsame as (Hsch' & Hmig' & Hcache' & Hper').
  assert (unsafeResetDatabase s = Returned () s') as Hrun.
  { unfold unsafeResetDatabase, deleteDatabase, _openDatabase.
    erewrite bind_Returned by reflexivity.
    erewrite bind_Returned by reflexivity.
    erewrite bind_Returned by reflexivity.
    unfold _setUpSchema. erewrite bind_Returned by reflexivity.
    erewrite bind_Returned by exact Hadd.
    erewrite bind_Returned.
    2:{ unfold modify, Loki.addCollection. rewrite Hnone. reflexivity. }
    erewrite bind_Returned by reflexivity.
    cbn [schema with_loki]. rewrite Hsch4. exact Hset. }
  exists s'. split_and!; [done|..].
  - rewrite Hsch'. simpl. by rewrite Hsch4.
  - rewrite Hmig'. simpl. by rewrite Hmig4.
  - rewrite Hper'. simpl. by rewrite Hper4.
  - rewrite Hcache'. simpl. by rewrite Hcache4.
  - intros t c. destruct (decide (t = "local_storage")) as [->|Hne].
    + rewrite Hc'. intros [= <-]. destruct Hls' as [Hwf Hu].
      split; [done|by right].
    + rewrite Hother by done. simpl. rewrite lookup_insert_ne by done.
      intros Hc. destruct (Hs4 _ c Hc) as [[Hwf Hid] _]. split; [done|by left].
  - intros t. destruct (decide (t = "local_storage")) as [->|Hne].
    + rewrite Hc'. split; [by left|done].
    + rewrite Hother by done. simpl. rewrite lookup_insert_ne by done.
      rewrite (addCollections_names _ _ _ _ Hadd). simpl.
      rewrite lookup_empty. split.
      * intros [[? [=]]|?]. by right.
      * intros [?|?]; [done|by right].
  - intros t c Hne. rewrite Hother by done. simpl.
    rewrite lookup_insert_ne by done. apply Hs4.
  - exact (setLocal_getLocal _ _ _ _ Hset).
  - intros Hv. by apply (set_get_databaseVersion _ s5).
  - intros key Hne. destruct (Hkeys key Hne) as (local & Hbefore & Hafter).
    rewrite Hafter. f_equal.
    rewrite (getLocal_at key s5 c5) in Hbefore; [|apply lookup_insert_eq|done].
    destruct (newCollection_fields "local_storage" ["key"] []) as [Hd _].
    fold c5 in Hd. rewrite Hd in Hbefore. by injection Hbefore.
Qed.

(** X16.  [unsafeResetDatabase] with a schema none of whose tables is
    named [local_storage]: it returns; nothing is kept under the name
    of the database and the cache is empty; the store has a collection
    for each table of the schema and for the local storage and no
    other, each table without documents; the reserved key holds the
    string of the version of the schema, which the getter reads back
    as that version when it is a safe integer, and the local storage
    holds no other key. *)
Theorem unsafeResetDatabase_returns (s : Executor) :
  Forall (λ ts, table_name ts ≠ "local_storage") (snd <$> tables (schema s)) →
  ∃ s', unsafeResetDatabase s = Returned () s'
        ∧ schema s' = schema s
        ∧ persisted s' = ∅ ∧ cachedRecords s' = ∅
        ∧ maintained s'
        ∧ (∀ table, is_Some (loki s' !! table)
                    ↔ table = "local_storage"
                      ∨ table ∈ table_name <$> (snd <$> tables (schema s)))
        ∧ (∀ table c, table ≠ "local_storage" → loki s' !! table = Some c →
             Loki.is_table c ∧ Loki.data c = [])
        ∧ getLocal SCHEMA_VERSION_KEY s'
          = Returned (Some (VStr (JS.toString (version (schema s))))) s'
        ∧ (JS.isSafeInteger (version (schema s)) →
           get_databaseVersion s' = Returned (version (schema s)) s')
        ∧ ∀ key, key ≠ SCHEMA_VERSION_KEY → getLocal key s' = Returned None s'.
Proof.
  intros Hnames.
  destruct (unsafeResetDatabase_run s Hnames)
    as (s' & Hrun & Hschema & _ & Hrest).
  by exists s'.
Qed.

End Store.

(** ** Reading records *)

Section Reading.
Context {SchemaMigrations : Type}.
Variable sanitizedRaw : DirtyRaw → option TableSchema → RawRecord.
Context {SerializedQuery : Type}.
Variable query_table : SerializedQuery → string.
Variable executeQuery : SerializedQuery → Loki.Db → Exn + list DirtyRaw.

Local Abbreviation Executor := (@LokiExecutor SchemaMigrations).

(** *** The outcomes of [find] *)

(** X18.  What [find] does, case by case, on a database whose tables
    have the unique index on [id]: it returns the bare id exactly for a
    cached id, and then reads nothing; for an id that is not cached it
    returns null when the table has no record with the id, the
    sanitized record (marking the id as cached, the store untouched)
    when it has one, and throws only when the table has no collection.
    Unless it returns a record, it leaves the state as it is. *)
Theorem find_outcome (table id : string) (s : Executor) :
  (∀ c, loki s !! table = Some c → "id" ∈ Loki.uniqueNames c) →
  match find sanitizedRaw table id s with
  | Returned (FoundId x) s' => x = id ∧ cached table id s ∧ s' = s
  | Returned FoundNull s' =>
      ¬ cached table id s ∧ is_Some (loki s !! table)
      ∧ stored table "id" id s = None ∧ s' = s
  | Returned (FoundRaw raw) s' =>
      ¬ cached table id s
      ∧ (∃ d, stored table "id" id s = Some d
              ∧ raw = sanitizedRaw d (table_schema (schema s) table))
      ∧ cached table id s' ∧ loki s' = loki s
      ∧ ∀ t x, cached t x s' ↔ (t = table ∧ x = id) ∨ cached t x s
  | Thrown e s' => ¬ cached table id s ∧ loki s !! table = None ∧ s' = s
  end.
Proof.
  intros Hu. destruct (decide (cached table id s)) as [Hc|Hn].
  { by rewrite find_cached. }
  unfold find. erewrite bind_Returned by apply isCached_cached.
  rewrite bool_decide_eq_false_2 by done.
  destruct (loki s !! table) as [c|] eqn:Hc.
  - erewrite bind_Returned by (by apply by_id_read; [|apply Hu]).
    unfold stored. rewrite Hc. cbn [mbind option_bind].
    destruct (list_find _ _) as [[i d]|]; [|by split_and!].
    cbn [fmap option_fmap option_map snd].
    destruct (markAsCached_cached table id s) as (s1 & Hm & Hc1 & Hl & Hs).
    erewrite bind_Returned by exact Hm.
    unfold mbind, M_bind, gets, mret, M_ret. rewrite Hs.
    split_and!; [done|by exists d|done..|].
    intros t x. pose proof (cached_markAsCached table id t x s) as H.
    by rewrite Hm in H.
  - unfold mbind, M_bind, collection_read, Loki.getCollection. rewrite Hc.
    by split_and!.
Qed.

(** X19.  [create] of a record whose id is free in its table: the
    record is stored under its id, with the next [$loki]; the records
    of other ids and the other collections are as before; the id is
    cached, so that [find] answers with the bare id: the caller is
    taken to hold the record it created. *)
Theorem create_then_find (table : string) (raw : RawRecord) (s : Executor) c :
  loki s !! table = Some c → Loki.is_table c →
  stored table "id" (raw_id raw) s = None →
  raw_columns raw !! "$loki" = None →
  ∃ s', create table raw s = Returned () s'
        ∧ stored table "id" (raw_id raw) s'
          = Some (<["$loki" := VNum (Loki.maxId c + 1)]> (raw_object raw))
        ∧ (∀ id', id' ≠ raw_id raw →
             stored table "id" id' s' = stored table "id" id' s)
        ∧ (∀ table', table' ≠ table → loki s' !! table' = loki s !! table')
        ∧ find sanitizedRaw table (raw_id raw) s'
          = Returned (FoundId (raw_id raw)) s'
        ∧ (∀ t x, cached t x s'
                  ↔ (t = table ∧ x = raw_id raw) ∨ cached t x s).
Proof.
  intros Hc Htable Hst Hl.
  destruct (create_new table raw s c Hc Htable Hst Hl)
    as (s' & Hcreate & Hloki & Htable' & Hcached).
  set (obj := <["$loki" := VNum (Loki.maxId c + 1)]> (raw_object raw)) in *.
  assert (Loki.key_of "id" obj = Some (raw_id raw)) as Hkobj.
  { unfold Loki.key_of, obj. rewrite lookup_insert_ne by done.
    apply raw_object_id. }
  assert (∀ key, stored table "id" key s'
                 = snd <$> list_find (λ d, Loki.has_key "id" key d = true)
                                     (Loki.data c ++ [obj])%list) as Hst'.
  { intros key. unfold stored. by rewrite Hloki, lookup_insert_eq. }
  exists s'. split_and!; [done| | | | |].
  - rewrite Hst'. rewrite (stored_at _ _ _ _ c Hc) in Hst.
    apply fmap_None in Hst. by rewrite (by_id_at_end _ _ obj).
  - intros id' Hne. rewrite Hst', (stored_at _ _ _ _ c Hc).
    rewrite list_find_snoc_miss; [done|]. by eapply has_key_other.
  - intros table' Hne. by rewrite Hloki, lookup_insert_ne.
  - by apply find_cached.
  - intros t x. unfold create in Hcreate.
    apply bind_inv_Returned in Hcreate as (r & s1 & Hcall & Hmark).
    apply collection_call_Returned in Hcall as (c0 & c1 & _ & _ & ->).
    pose proof (cached_markAsCached table (raw_id raw) t x
                  (with_loki (<[table := c1]> (loki s)) s)) as H.
    by rewrite Hmark in H.
Qed.

(** *** [find] after a record was deleted *)

(** C1, amended.  For an id that has a record in a table with the
    unique index on [id]:
    - [destroyPermanently] returns, removes the record and evicts the
      id; [find] right after returns null; once a record with that id
      is recreated with [create], which caches the id, [find] returns
      the bare id;
    - [markAsDeleted] returns, keeps the record, with [_status] set to
      [deleted], and evicts the id; [find] right after returns that
      record in full, sanitized, and caches the id again, so that the
      next [find] returns the bare id;
    - after either call, while the cache is as the call left it,
      [find] does not return the bare id, whatever the store holds. *)
Theorem find_after_delete (table id : string) (s : Executor) c d :
  loki s !! table = Some c → Loki.is_table c →
  stored table "id" id s = Some d →
  (∃ s1, destroyPermanently table id s = Returned () s1
         ∧ ¬ cached table id s1
         ∧ stored table "id" id s1 = None
         ∧ find sanitizedRaw table id s1 = Returned FoundNull s1
         ∧ (∀ raw, raw_id raw = id → raw_columns raw !! "$loki" = None →
              ∃ s2, create table raw s1 = Returned () s2
                    ∧ find sanitizedRaw table id s2
                      = Returned (FoundId id) s2)
         ∧ (∀ db s3, find sanitizedRaw table id (with_loki db s1)
                     ≠ Returned (FoundId id) s3))
  ∧ (∃ s1, markAsDeleted table id s = Returned () s1
           ∧ ¬ cached table id s1
           ∧ stored table "id" id s1
             = Some (<["_status" := VStr "deleted"]> d)
           ∧ (∃ s2, find sanitizedRaw table id s1
                    = Returned
                        (FoundRaw
                           (sanitizedRaw (<["_status" := VStr "deleted"]> d)
                                         (table_schema (schema s) table))) s2
                    ∧ cached table id s2
                    ∧ find sanitizedRaw table id s2
                      = Returned (FoundId id) s2)
           ∧ (∀ db s3, find sanitizedRaw table id (with_loki db s1)
                       ≠ Returned (FoundId id) s3)).
Proof.
  intros Hc Htable Hst. split.
  - rewrite (stored_at _ _ _ _ c Hc) in Hst.
    destruct (list_find _ _) as [[i d0]|] eqn:Hfind; [|done].
    injection Hst as ->.
    destruct (destroyPermanently_found table id s c i d Hc Htable Hfind)
      as (s1 & Hrun & Hloki & Hn).
    set (c1 := Loki.set_data c (delete i (Loki.data c))) in *.
    assert (loki s1 !! table = Some c1) as Hc1
      by (rewrite Hloki; apply lookup_insert_eq).
    assert (Loki.is_table c1) as Htable1 by (by apply is_table_delete).
    assert (stored table "id" id s1 = None) as Hgone.
    { rewrite (stored_at _ _ _ _ c1 Hc1). simpl.
      by rewrite (key_gone "id" id (Loki.data c) i d
                    (is_table_keys _ Htable) Hfind). }
    exists s1. split_and!; [done..| | |].
    + pose proof (find_not_cached sanitizedRaw table id s1 c1 Hc1
                    (is_table_id _ Htable1) Hn) as Hf.
      by rewrite Hgone in Hf.
    + intros raw <- Hl.
      destruct (create_new table raw s1 c1 Hc1 Htable1 Hgone Hl)
        as (s2 & Hcreate & _ & _ & Hcached).
      exists s2. split; [done|]. by apply find_cached.
    + intros db s3. by apply find_never_bare.
  - destruct (markAsDeleted_run table id s c d Hc Htable Hst)
      as (s1 & Hrun & Hd & _ & _ & _ & Hcache & Hschema & c1 & Hc1 & Hu1).
    assert (¬ cached table id s1) as Hn.
    { rewrite Hcache. tauto. }
    exists s1. split_and!; [done..| |].
    + pose proof (find_not_cached sanitizedRaw table id s1 c1 Hc1) as Hf.
      rewrite Hd, Hschema in Hf.
      destruct Hf as (s2 & Hf & Hcached & _); [|done|].
      { rewrite Hu1. by apply is_table_id. }
      exists s2. split_and!; [done..|]. by apply find_cached.
    + intros db s3. by apply find_never_bare.
Qed.

(** *** Compacting query results *)

Lemma compactQueryResult_run (table : string) (raw : DirtyRaw) (id : string)
    (s : Executor) :
  Loki.key_of "id" raw = Some id →
  ∃ s', compactQueryResult sanitizedRaw table raw s
        = Returned (if decide (cached table id s) then FoundId id
                    else FoundRaw (sanitizedRaw raw
                                     (table_schema (schema s) table))) s'
        ∧ loki s' = loki s ∧ schema s' = schema s
        ∧ ∀ t x, cached t x s' ↔ (t = table ∧ x = id) ∨ cached t x s.
Proof.
  intros Hid%key_of_Some. unfold compactQueryResult. rewrite Hid.
  erewrite bind_Returned by apply isCached_cached.
  destruct (decide (cached table id s)) as [Hc|Hn].
  - rewrite bool_decide_eq_true_2 by done. exists s.
    split_and!; [done..|]. intros t x. naive_solver.
  - rewrite bool_decide_eq_false_2 by done.
    destruct (markAsCached_cached table id s) as (s1 & Hm & Hc1 & Hl & Hs).
    exists s1. erewrite bind_Returned by exact Hm.
    unfold mbind, M_bind, gets, mret, M_ret. rewrite Hs.
    split_and!; [done..|].
    intros t x. pose proof (cached_markAsCached table id t x s) as H.
    by rewrite Hm in H.
Qed.

Lemma compactQueryResults_run (records : list DirtyRaw) (table : string)
    (s : Executor) :
  Forall (λ raw, is_Some (Loki.key_of "id" raw)) records →
  ∃ results s',
    _compactQueryResults sanitizedRaw records table s = Returned results s'
    ∧ loki s' = loki s ∧ schema s' = schema s
    ∧ length results = length records
    ∧ (∀ i raw id, records !! i = Some raw → Loki.key_of "id" raw = Some id →
         results !! i
         = Some (if decide (cached table id s ∨ id ∈ ids_of (take i records))
                 then FoundId id
                 else FoundRaw (sanitizedRaw raw
                                  (table_schema (schema s) table))))
    ∧ (∀ t x, cached t x s'
              ↔ cached t x s ∨ (t = table ∧ x ∈ ids_of records)).
Proof.
  unfold _compactQueryResults. intros Hids. revert s.
  induction Hids as [|raw records [id Hid] _ IH]; intros s.
  { exists [], s. split_and!; [done..| |].
    - intros i raw id Hi. by rewrite lookup_nil in Hi.
    - intros t x. unfold ids_of. simpl. set_solver. }
  destruct (compactQueryResult_run table raw id s Hid)
    as (s1 & Hhd & Hl1 & Hs1 & Hc1).
  destruct (IH s1) as (results & s' & Htl & Hl & Hs & Hlen & Hres & Hc).
  eexists (_ :: results), s'. split_and!.
  - cbn [mapM]. erewrite bind_Returned by exact Hhd.
    erewrite bind_Returned by exact Htl. reflexivity.
  - congruence.
  - congruence.
  - simpl. by rewrite Hlen.
  - intros [|i] raw' id' Hi Hid'.
    + injection Hi as <-. rewrite Hid in Hid'. injection Hid' as <-.
      cbn [lookup list_lookup take]. f_equal. apply decide_ext.
      unfold ids_of. simpl. set_solver.
    + etrans; [exact (Hres i raw' id' Hi Hid')|]. f_equal. rewrite Hs1.
      apply decide_ext. rewrite Hc1. unfold ids_of. simpl. rewrite Hid.
      set_solver.
  - intros t x. rewrite Hc, Hc1. unfold ids_of. simpl. rewrite Hid.
    set_solver.
Qed.

Lemma compactQueryResults_cached (records : list DirtyRaw) (table : string)
    (s : Executor) :
  Forall (λ raw, ∃ id, Loki.key_of "id" raw = Some id ∧ cached table id s)
         records →
  _compactQueryResults sanitizedRaw records table s
  = Returned (FoundId <$> ids_of records) s.
Proof.
  unfold _compactQueryResults, ids_of.
  induction 1 as [|raw records (id & Hid & Hc) _ IH]; [done|].
  destruct (compactQueryResult_run table raw id s Hid) as (s1 & Hhd & _).
  rewrite decide_True in Hhd by done.
  assert (s1 = s) as ->.
  { apply key_of_Some in Hid. unfold compactQueryResult in Hhd.
    rewrite Hid in Hhd.
    erewrite bind_Returned in Hhd by apply isCached_cached.
    rewrite bool_decide_eq_true_2 in Hhd by done. by injection Hhd. }
  cbn [mapM]. erewrite bind_Returned by exact Hhd.
  erewrite bind_Returned by exact IH. simpl. by rewrite Hid.
Qed.

(** X20.  [_compactQueryResults] on records that have their ids: it
    returns one entry for each record, in their order.  The entry is
    the bare id when the id was cached before the call or belongs to a
    record earlier in the list, and the sanitized record otherwise;
    afterwards the cache holds what it held and the ids of the
    records.  The store is not touched. *)
Theorem compactQueryResults_once (records : list DirtyRaw) (table : string)
    (s : Executor) :
  Forall (λ raw, is_Some (Loki.key_of "id" raw)) records →
  ∃ results s',
    _compactQueryResults sanitizedRaw records table s = Returned results s'
    ∧ loki s' = loki s
    ∧ length results = length records
    ∧ (∀ i raw id, records !! i = Some raw → Loki.key_of "id" raw = Some id →
         results !! i
         = Some (if decide (cached table id s ∨ id ∈ ids_of (take i records))
                 then FoundId id
                 else FoundRaw (sanitizedRaw raw
                                  (table_schema (schema s) table))))
    ∧ (∀ t x, cached t x s'
              ↔ cached t x s ∨ (t = table ∧ x ∈ ids_of records)).
Proof.
  intros Hids.
  destruct (compactQueryResults_run records table s Hids)
    as (results & s' & Hrun & Hl & _ & Hlen & Hres & Hc).
  by exists results, s'.
Qed.

(** X21.  The same records compacted a second time come back as bare
    ids only, and the second call changes nothing. *)
Theorem compactQueryResults_twice (records : list DirtyRaw) (table : string)
    (s : Executor) :
  Forall (λ raw, is_Some (Loki.key_of "id" raw)) records →
  ∃ results s',
    _compactQueryResults sanitizedRaw records table s = Returned results s'
    ∧ _compactQueryResults sanitizedRaw records table s'
      = Returned (FoundId <$> ids_of records) s'.
Proof.
  intros Hids.
  destruct (compactQueryResults_run records table s Hids)
    as (results & s' & Hrun & _ & _ & _ & _ & Hc).
  exists results, s'. split; [done|].
  apply compactQueryResults_cached. apply Forall_forall.
  intros raw Hraw. rewrite Forall_forall in Hids.
  destruct (Hids raw Hraw) as [id Hid]. exists id. split; [done|].
  apply Hc. right. split; [done|]. unfold ids_of.
  apply list_elem_of_omap. by exists raw.
Qed.

(** X22.  [query] and [count] on a query whose result set
    [executeQuery] yields: [query] returns one entry for each document
    of the result set and leaves the store as it is, [count] returns
    the number of these entries and changes nothing, before and after
    [query]; the same query run again on the same store comes back as
    bare ids. *)
Theorem query_count (q : SerializedQuery) (s : Executor)
    (records : list DirtyRaw) :
  executeQuery q (loki s) = inr records →
  Forall (λ raw, is_Some (Loki.key_of "id" raw)) records →
  ∃ results s',
    query sanitizedRaw query_table executeQuery q s = Returned results s'
    ∧ loki s' = loki s
    ∧ length results = length records
    ∧ count executeQuery q s = Returned (Z.of_nat (length results)) s
    ∧ count executeQuery q s' = Returned (Z.of_nat (length results)) s'
    ∧ query sanitizedRaw query_table executeQuery q s'
      = Returned (FoundId <$> ids_of records) s'.
Proof.
  intros Hq Hids.
  destruct (compactQueryResults_run records (query_table q) s Hids)
    as (results & s' & Hrun & Hl & _ & Hlen & _ & Hc).
  exists results, s'.
  assert (_compactQueryResults sanitizedRaw records (query_table q) s'
          = Returned (FoundId <$> ids_of records) s') as Hagain.
  { apply compactQueryResults_cached. apply Forall_forall.
    intros raw Hraw. rewrite Forall_forall in Hids.
    destruct (Hids raw Hraw) as [id Hid]. exists id. split; [done|].
    apply Hc. right. split; [done|]. unfold ids_of.
    apply list_elem_of_omap. by exists raw. }
  unfold query, count, mbind, M_bind, gets. rewrite Hl, Hq, Hlen.
  by split_and!.
Qed.

End Reading.

(** ** Setting up *)

Section SettingUp.
Context {SchemaMigrations : Type}.
Variable stepsForMigration :
  SchemaMigrations → Z → Z → option (list MigrationStep).
Variable sanitizedValue : Value → ColumnSchema → Value.

Local Abbreviation Executor := (@LokiExecutor SchemaMigrations).
Local Abbreviation keeps :=
  (preserves (SchemaMigrations := SchemaMigrations)).

#[local] Existing Instance same_but_loki_preorder.

Lemma setUp_open (s : Executor) :
  setUp stepsForMigration sanitizedValue s
  = _migrateIfNeeded stepsForMigration sanitizedValue
      (with_loki (persisted s) s).
Proof. done. Qed.

Lemma _migrateIfNeeded_reset (s : Executor) (v : Z) :
  get_databaseVersion s = Returned v s →
  v ≠ version (schema s) →
  v ≤ 0 ∨ version (schema s) < v
  ∨ _getMigrationSteps stepsForMigration v s = Returned None s →
  _migrateIfNeeded stepsForMigration sanitizedValue s = unsafeResetDatabase s.
Proof.
  intros Hv Hne Hcase. unfold _migrateIfNeeded.
  erewrite bind_Returned by exact Hv.
  erewrite bind_Returned by reflexivity.
  rewrite decide_False by done.
  case_decide; [done|]. case_decide as Hrange; [|done].
  destruct Hcase as [?|[?|Hsteps]]; [lia..|].
  by erewrite bind_Returned by exact Hsteps.
Qed.

(** X23.  [setUp] of a database whose version marker reads the
    version of the schema: the database is opened and left as it was
    kept, with every collection and record; nothing is migrated, and
    the cache is as it was. *)
Theorem setUp_up_to_date (s : Executor) :
  get_databaseVersion (with_loki (persisted s) s)
  = Returned (version (schema s)) (with_loki (persisted s) s) →
  setUp stepsForMigration sanitizedValue s
  = Returned () (with_loki (persisted s) s).
Proof.
  intros Hv. rewrite setUp_open. unfold _migrateIfNeeded.
  erewrite bind_Returned by exact Hv.
  erewrite bind_Returned by reflexivity.
  cbn [schema with_loki]. by rewrite decide_True.
Qed.

(** X24.  [setUp] of a database whose version marker differs from
    the version of the schema and is zero or unreadable, negative,
    newer than the schema, or older with no migration steps to be had:
    the database is reset.  With a schema none of whose tables is named
    [local_storage], [setUp] returns and the records that were kept are
    gone: every table of the schema has a collection without documents,
    there is no other collection but the local storage, the cache is
    empty, and the reserved key holds the string of the version of the
    schema, which the getter reads back as that version when it is a
    safe integer. *)
Theorem setUp_reset_wipes (s : Executor) (v : Z) :
  get_databaseVersion (with_loki (persisted s) s)
  = Returned v (with_loki (persisted s) s) →
  v ≠ version (schema s) →
  v ≤ 0 ∨ version (schema s) < v
  ∨ _getMigrationSteps stepsForMigration v (with_loki (persisted s) s)
    = Returned None (with_loki (persisted s) s) →
  Forall (λ ts, table_name ts ≠ "local_storage") (snd <$> tables (schema s)) →
  ∃ s', setUp stepsForMigration sanitizedValue s = Returned () s'
        ∧ cachedRecords s' = ∅
        ∧ (∀ table, is_Some (loki s' !! table)
                    ↔ table = "local_storage"
                      ∨ table ∈ table_name <$> (snd <$> tables (schema s)))
        ∧ (∀ table c, table ≠ "local_storage" → loki s' !! table = Some c →
             Loki.is_table c ∧ Loki.data c = [])
        ∧ getLocal SCHEMA_VERSION_KEY s'
          = Returned (Some (VStr (JS.toString (version (schema s))))) s'
        ∧ (JS.isSafeInteger (version (schema s)) →
           get_databaseVersion s' = Returned (version (schema s)) s').
Proof.
  intros Hv Hne Hcase Hnames.
  destruct (unsafeResetDatabase_run (with_loki (persisted s) s) Hnames)
    as (s' & Hrun & _ & _ & _ & Hcache & _ & Hcolls & Hempty & Hmarker
        & Hversion & _).
  exists s'. split_and!; [|done..].
  rewrite setUp_open. by rewrite (_migrateIfNeeded_reset _ v).
Qed.

#[local] Instance same_collection_preorder table :
  PreOrder (same_collection (SchemaMigrations := SchemaMigrations) table).
Proof.
  split.
  - by intros s.
  - intros s1 s2 s3 H1 H2. unfold same_collection in *. congruence.
Qed.

Lemma keeps_call_other {A} (table table' : string)
    (op : Loki.Collection → Outcome Loki.Collection A) :
  table' ≠ table →
  keeps (same_collection table) (collection_call table' op).
Proof.
  intros Hne. apply keeps_collection_call; [apply _|].
  intros s c. unfold same_collection. simpl. by rewrite lookup_insert_ne.
Qed.

Lemma keeps_setLocal_other (table key value : string) :
  table ≠ "local_storage" →
  keeps (same_collection table) (setLocal key value).
Proof.
  intros Hne. unfold setLocal. apply keeps_bind; [apply _|..].
  - intros s. unfold _findLocal.
    destruct (Loki.getCollection "local_storage" (loki s)) as [c|]; [|done].
    by destruct (Loki.by_ "key" key c).
  - intros [[pos d]|]; (apply keeps_bind; [apply _|by apply keeps_call_other|]);
      intros _; apply keeps_mret; apply _.
Qed.

Lemma keeps_migrate_step_other (table : string) (step : MigrationStep) :
  (supported step → step_collection step ≠ table) →
  keeps (same_collection table) (_migrate_step sanitizedValue step).
Proof.
  unfold supported, step_collection, _migrate_step. intros H.
  repeat case_decide.
  - intros s. unfold same_collection. simpl. unfold Loki.addCollection.
    destruct (loki s !! step_name step); [done|].
    rewrite lookup_insert_ne; [done|]. tauto.
  - unfold _executeAddColumnsMigration. apply keeps_bind; [apply _|..].
    + apply keeps_call_other. tauto.
    + intros _. apply keeps_forEach; [apply _|]. apply Forall_forall.
      intros column _. unfold ensureColumnIndex. destruct (isIndexed column).
      * apply keeps_call_other. tauto.
      * apply keeps_mret. apply _.
  - apply keeps_throw. apply _.
Qed.

(** X25.  [setUp] of a database whose version marker is positive and
    older than the schema, with migration steps to be had: the steps
    are run on the database as it was kept, and nothing is reset.
    However the migration ends, a collection that is not the local
    storage and that no step works on is as it was kept, and so is the
    cache. *)
Theorem setUp_migrates (s : Executor) (v : Z) (steps : list MigrationStep) :
  get_databaseVersion (with_loki (persisted s) s)
  = Returned v (with_loki (persisted s) s) →
  0 < v < version (schema s) →
  _getMigrationSteps stepsForMigration v (with_loki (persisted s) s)
  = Returned (Some steps) (with_loki (persisted s) s) →
  setUp stepsForMigration sanitizedValue s
  = _migrate sanitizedValue steps (with_loki (persisted s) s)
  ∧ cachedRecords (outcome_state (setUp stepsForMigration sanitizedValue s))
    = cachedRecords s
  ∧ ∀ table, table ≠ "local_storage" →
      Forall (λ step, supported step → step_collection step ≠ table) steps →
      loki (outcome_state (setUp stepsForMigration sanitizedValue s)) !! table
      = persisted s !! table.
Proof.
  intros Hv Hrange Hsteps.
  assert (setUp stepsForMigration sanitizedValue s
          = _migrate sanitizedValue steps (with_loki (persisted s) s)) as Hrun.
  { rewrite setUp_open. unfold _migrateIfNeeded.
    erewrite bind_Returned by exact Hv.
    erewrite bind_Returned by reflexivity.
    cbn [schema with_loki].
    rewrite decide_False by lia. rewrite decide_False by lia.
    rewrite decide_True by lia.
    by erewrite bind_Returned by exact Hsteps. }
  split; [done|]. rewrite Hrun. split.
  - assert (keeps same_but_loki (_migrate sanitizedValue steps)) as Hk.
    { unfold _migrate. apply keeps_bind; [apply _|..].
      - apply keeps_migrate_steps.
      - intros _. apply keeps_bind; [apply _|apply keeps_gets; apply _|].
        intros version. unfold set_databaseVersion, setLocal.
        apply keeps_bind; [apply _|..].
        + intros s0. unfold _findLocal.
          destruct (Loki.getCollection "local_storage" (loki s0)) as [c|];
            [|done].
          by destruct (Loki.by_ "key" SCHEMA_VERSION_KEY c).
        + intros [[pos d]|];
            (apply keeps_bind;
             [apply _|apply keeps_collection_call_same_but_loki|]);
            intros _; apply keeps_mret; apply _. }
    by destruct (Hk (with_loki (persisted s) s)) as (_ & _ & Hcache & _).
  - intros table Hne Hother.
    assert (keeps (same_collection table)
              (_migrate sanitizedValue steps)) as Hk.
    { unfold _migrate. apply keeps_bind; [apply _|..].
      - apply keeps_forEach; [apply _|].
        eapply Forall_impl; [exact Hother|].
        intros step Hstep. by apply keeps_migrate_step_other.
      - intros _. apply keeps_bind; [apply _|apply keeps_gets; apply _|].
        intros version. by apply keeps_setLocal_other. }
    exact (Hk (with_loki (persisted s) s)).
Qed.

(** X26.  A migration with an [add_columns] step on a table that has
    no collection: when the steps before it have returned, the step
    throws a TypeError and [_migrate] throws it, in the state the
    earlier steps left; the steps after it are not run and the version
    marker is not written. *)
Theorem migrate_missing_table (before after : list MigrationStep)
    (step : MigrationStep) (s s0 : Executor) :
  forEach (_migrate_step sanitizedValue) before s = Returned () s0 →
  step_type step = "add_columns" →
  loki s0 !! step_table step = None →
  ∃ msg, _executeAddColumnsMigration sanitizedValue step s0
         = Thrown (TypeError msg) s0
         ∧ _migrate sanitizedValue (before ++ step :: after) s
           = Thrown (TypeError msg) s0.
Proof.
  intros Hbefore Htype Hnone.
  assert (_executeAddColumnsMigration sanitizedValue step s0
          = Thrown (TypeError "Cannot read property of null") s0) as Hstep.
  { unfold _executeAddColumnsMigration. apply bind_Thrown.
    unfold collection_call, Loki.getCollection. by rewrite Hnone. }
  eexists. split; [exact Hstep|].
  unfold _migrate. apply bind_Thrown.
  rewrite forEach_app, Hbefore. cbn [forEach]. apply bind_Thrown.
  unfold _migrate_step. rewrite decide_False by (by rewrite Htype).
  by rewrite decide_True.
Qed.

End SettingUp.

(** * The claims on the example database *)

Section Witnesses.
Import Example.

Local Ltac by_computing := vm_compute; reflexivity.
Local Ltac by_deciding := apply (bool_decide_unpack _); vm_compute; exact I.

(** The states of the example are reached by calls that return. *)
Lemma example_states :
  setUp stepsForMigration sanitizedValue fresh = Returned () ready
  ∧ batch [("create", "posts", post1); ("create", "posts", post2)] ready
    = Returned () two_posts
  ∧ destroyDeletedRecords "posts" ["p1"] two_posts = Returned () p1_destroyed.
Proof. split_and!; by_computing. Qed.

(** The branches of [_migrateIfNeeded]: an empty database is set up;
    a database of the version of the schema is left alone; an older one
    is migrated, its records kept; a newer one is reset. *)
Lemma setUp_branches :
  get_databaseVersion ready = Returned 1 ready
  ∧ setUp stepsForMigration sanitizedValue reopened = Returned () reopened
  ∧ setUp stepsForMigration sanitizedValue upgrading = Returned () upgraded
  ∧ get_databaseVersion upgraded = Returned 2 upgraded
  ∧ length (Loki.data (collection "posts" upgraded)) = 2%nat
  ∧ ∃ s', setUp stepsForMigration sanitizedValue downgrading = Returned () s'
          ∧ get_databaseVersion s' = Returned 1 s'
          ∧ Loki.data (collection "posts" s') = [].
Proof.
  split_and!; [by_computing..|].
  exists (outcome_state (setUp stepsForMigration sanitizedValue downgrading)).
  split_and!; by_computing.
Qed.

(** The getter on a marker that is no number: the text [abc] reads as
    the version 0. *)
Lemma unreadable_marker :
  getLocal SCHEMA_VERSION_KEY marker_abc
  = Returned (Some (VStr "abc")) marker_abc
  ∧ begins_with_integer "abc" = false
  ∧ get_databaseVersion marker_abc = Returned 0 marker_abc.
Proof. split_and!; by_computing. Qed.

(** C1 as it is stated fails: the id [p1] is cached and has no record
    (its record went in [destroyDeletedRecords]); [markAsDeleted] finds
    no record, returns without evicting the id, and [find] then returns
    the bare id.  [destroyPermanently] throws in that state, before it
    evicts. *)
Lemma find_after_delete_counterexample :
  stored "posts" "id" "p1" p1_destroyed = None
  ∧ markAsDeleted "posts" "p1" p1_destroyed = Returned () p1_destroyed
  ∧ find sanitizedRaw "posts" "p1" p1_destroyed
    = Returned (FoundId "p1") p1_destroyed
  ∧ destroyPermanently "posts" "p1" p1_destroyed
    = Thrown (Error "Parameter is not an object") p1_destroyed.
Proof. split_and!; by_computing. Qed.

Lemma find_after_delete_witness :
  (∃ s1, destroyPermanently "posts" "p2" two_posts = Returned () s1
         ∧ ¬ cached "posts" "p2" s1
         ∧ stored "posts" "id" "p2" s1 = None
         ∧ find sanitizedRaw "posts" "p2" s1 = Returned FoundNull s1
         ∧ (∀ raw, raw_id raw = "p2" → raw_columns raw !! "$loki" = None →
              ∃ s2, create "posts" raw s1 = Returned () s2
                    ∧ find sanitizedRaw "posts" "p2" s2
                      = Returned (FoundId "p2") s2)
         ∧ (∀ db s3, find sanitizedRaw "posts" "p2" (with_loki db s1)
                     ≠ Returned (FoundId "p2") s3))
  ∧ (∃ s1, markAsDeleted "posts" "p2" two_posts = Returned () s1
           ∧ ¬ cached "posts" "p2" s1
           ∧ stored "posts" "id" "p2" s1
             = Some (<["_status" := VStr "deleted"]> (post "p2" two_posts))
           ∧ (∃ s2, find sanitizedRaw "posts" "p2" s1
                    = Returned
                        (FoundRaw
                           (sanitizedRaw
                              (<["_status" := VStr "deleted"]>
                                 (post "p2" two_posts))
                              (table_schema (schema two_posts) "posts"))) s2
                    ∧ cached "posts" "p2" s2
                    ∧ find sanitizedRaw "posts" "p2" s2
                      = Returned (FoundId "p2") s2)
           ∧ (∀ db s3, find sanitizedRaw "posts" "p2" (with_loki db s1)
                       ≠ Returned (FoundId "p2") s3)).
Proof.
  apply (find_after_delete sanitizedRaw "posts" "p2" two_posts
           (collection "posts" two_posts) (post "p2" two_posts)).
  - by_computing.
  - by_deciding.
  - by_computing.
Defined.

(** C2 as it is stated fails: the first step rewrites the [value] of
    every entry of the local storage, the second has an unknown type;
    [_migrate] throws, and the version marker, 1 before, reads 0. *)
Lemma migrate_unsupported_step_counterexample :
  Exists (λ step, ¬ supported step) bad_steps
  ∧ get_databaseVersion opened_for_upgrade = Returned 1 opened_for_upgrade
  ∧ ∃ e s', _migrate sanitizedValue bad_steps opened_for_upgrade = Thrown e s'
            ∧ get_databaseVersion s' = Returned 0 s'.
Proof.
  split_and!; [by_deciding|by_computing|].
  eexists _, _. split; [by_computing|by_computing].
Qed.

Lemma migrate_unsupported_step_witness :
  (Exists (λ step, ¬ supported step) failing_steps
   ∧ Forall (λ step, supported step → step_collection step ≠ "local_storage")
            failing_steps)
  ∧ ∃ e s', _migrate sanitizedValue failing_steps opened_for_upgrade
            = Thrown e s'
            ∧ same_local_storage opened_for_upgrade s'
            ∧ get_databaseVersion s' = Returned 1 s'.
Proof.
  assert (Exists (λ step, ¬ supported step) failing_steps) as Hbad
    by by_deciding.
  assert (Forall (λ step, supported step
                          → step_collection step ≠ "local_storage")
                 failing_steps) as Hlocal by by_deciding.
  split; [by split|].
  destruct (proj1 (migrate_unsupported_step sanitizedValue failing_steps
                     opened_for_upgrade) Hbad Hlocal)
    as (e & s' & Hthrown & Hsame & Hget).
  exists e, s'. split_and!; [done..|].
  assert (get_databaseVersion opened_for_upgrade
          = Returned 1 opened_for_upgrade) as H1 by by_computing.
  by rewrite H1 in Hget.
Defined.

Lemma destroyDeletedRecords_keeps_cached_witness :
  ∃ s', destroyDeletedRecords "posts" ["p1"] two_posts = Returned () s'
        ∧ cachedRecords s' = cachedRecords two_posts
        ∧ ∀ id, id ∈ ["p1"] →
            stored "posts" "id" id s' = None
            ∧ (cached "posts" id two_posts →
               cached "posts" id s'
               ∧ find sanitizedRaw "posts" id s' = Returned (FoundId id) s').
Proof.
  apply (destroyDeletedRecords_keeps_cached sanitizedRaw "posts" ["p1"]
           two_posts (collection "posts" two_posts)).
  - by_computing.
  - by_deciding.
Defined.

Lemma find_twice_witness :
  ∃ s1, find sanitizedRaw "posts" "p1" reopened
        = Returned (FoundRaw (sanitizedRaw (post "p1" reopened)
                                (table_schema (schema reopened) "posts"))) s1
        ∧ cached "posts" "p1" s1
        ∧ loki s1 = loki reopened
        ∧ find sanitizedRaw "posts" "p1" s1 = Returned (FoundId "p1") s1
        ∧ ∀ db, find sanitizedRaw "posts" "p1" (with_loki db s1)
                = Returned (FoundId "p1") (with_loki db s1).
Proof.
  apply (find_twice sanitizedRaw "posts" "p1" reopened
           (collection "posts" reopened) (post "p1" reopened)).
  - by_computing.
  - by_deciding.
  - by_deciding.
  - by_computing.
Defined.

(** C5 as it is stated fails: with the version 10^21 in the schema,
    [setUp] of an empty database returns, the reserved key holds
    [1e+21], and the version marker reads 1. *)
Lemma setUp_databaseVersion_counterexample :
  let s' := outcome_state (setUp stepsForMigration sanitizedValue fresh_1e21) in
  version (schema fresh_1e21) = 10 ^ 21
  ∧ setUp stepsForMigration sanitizedValue fresh_1e21 = Returned () s'
  ∧ getLocal SCHEMA_VERSION_KEY s' = Returned (Some (VStr "1e+21")) s'
  ∧ get_databaseVersion s' = Returned 1 s'.
Proof. intros s'. split_and!; [by_computing..]. Qed.

Lemma setUp_databaseVersion_witness :
  let s' := outcome_state (setUp stepsForMigration sanitizedValue upgrading) in
  (JS.isSafeInteger (version (schema upgrading))
   ∧ setUp stepsForMigration sanitizedValue upgrading = Returned () s')
  ∧ get_databaseVersion s' = Returned 2 s'.
Proof.
  intros s'.
  assert (JS.isSafeInteger (version (schema upgrading))) as Hv by by_deciding.
  assert (setUp stepsForMigration sanitizedValue upgrading = Returned () s')
    as H by by_computing.
  split; [by split|].
  exact (setUp_databaseVersion stepsForMigration sanitizedValue upgrading s'
           Hv H).
Defined.

Lemma batch_create_update_destroy_witness :
  ∃ s1 s2 s',
    create "posts" post1 ready = Returned () s1
    ∧ update "posts" post1' s1 = Returned () s2
    ∧ destroyPermanently "posts" (raw_id post1) s2 = Returned () s'
    ∧ batch [("create", "posts", post1); ("update", "posts", post1');
             ("destroyPermanently", "posts", post1)] ready = Returned () s'
    ∧ stored "posts" "id" (raw_id post1) s' = None
    ∧ (Loki.data <$> loki s' !! "posts")
      = Some (Loki.data (collection "posts" ready))
    ∧ ¬ cached "posts" (raw_id post1) s'.
Proof.
  apply (batch_create_update_destroy "posts" post1 post1' post1 ready
           (collection "posts" ready)).
  - by_computing.
  - by_deciding.
  - reflexivity.
  - reflexivity.
  - by_computing.
  - by_deciding.
  - by_computing.
Defined.

Lemma absent_record_no_error_witness :
  find sanitizedRaw "posts" "p9" two_posts = Returned FoundNull two_posts
  ∧ markAsDeleted "posts" "p9" two_posts = Returned () two_posts
  ∧ destroyDeletedRecord "posts" "p9" two_posts = Returned () two_posts
  ∧ (∀ ids, destroyDeletedRecords "posts" ids two_posts
            = destroyDeletedRecords "posts" (filter (λ y, y ≠ "p9") ids)
                                    two_posts)
  ∧ (∀ ids, Forall (λ y, stored "posts" "id" y two_posts = None) ids →
            destroyDeletedRecords "posts" ids two_posts = Returned () two_posts).
Proof.
  apply (absent_record_no_error sanitizedRaw "posts" "p9" two_posts
           (collection "posts" two_posts)).
  - by_computing.
  - by_deciding.
  - by_computing.
  - by_deciding.
Defined.
Lemma addColumns_frame_witness :
  ∃ s' c',
    _executeAddColumnsMigration sanitizedValue addPostColumns opened_for_upgrade
    = Returned () s'
    ∧ loki s' !! "posts" = Some c'
    ∧ length (Loki.data c')
      = length (Loki.data (collection "posts" opened_for_upgrade))
    ∧ (∀ i record,
         Loki.data (collection "posts" opened_for_upgrade) !! i = Some record →
         ∃ record', Loki.data c' !! i = Some record'
           ∧ (∀ column, column ∈ [body; likes] →
                record' !! column_name column
                = Some (sanitizedValue VNull column))
           ∧ (∀ field, field ∉ column_name <$> [body; likes] →
                record' !! field = record !! field))
    ∧ (∀ n, n ∈ Loki.binaryIndices c'
            ↔ n ∈ Loki.binaryIndices (collection "posts" opened_for_upgrade)
              ∨ ∃ column, column ∈ [body; likes]
                          ∧ isIndexed column = true
                          ∧ column_name column = n)
    ∧ (∀ table', table' ≠ "posts" →
         loki s' !! table' = loki opened_for_upgrade !! table')
    ∧ cachedRecords s' = cachedRecords opened_for_upgrade.
Proof.
  apply (addColumns_frame sanitizedValue addPostColumns opened_for_upgrade
           (collection "posts" opened_for_upgrade)).
  - by_computing.
  - by_deciding.
  - by_deciding.
  - by_deciding.
Defined.



Lemma update_needs_record_witness :
  (∀ i saved,
     list_find (λ d, Loki.has_key "id" (raw_id post1') d = true)
               (Loki.data (collection "posts" two_posts))
     = Some (i, saved) →
     ∃ lokiId s',
       saved !! "$loki" = Some lokiId
       ∧ update "posts" post1' two_posts = Returned () s'
       ∧ loki s'
         = <["posts" := Loki.set_data (collection "posts" two_posts)
               (<[i := <["$loki" := lokiId]> (raw_object post1')]>
                  (Loki.data (collection "posts" two_posts)))]>
             (loki two_posts)
       ∧ cachedRecords s' = cachedRecords two_posts)
  ∧ (stored "posts" "id" (raw_id post1') two_posts = None →
     ∃ e, update "posts" post1' two_posts = Thrown e two_posts).
Proof.
  apply (update_needs_record "posts" post1' two_posts
           (collection "posts" two_posts)).
  - by_computing.
  - by_deciding.
Defined.

(** The two halves of C10 on the example: [update] of [p1] returns,
    [update] of an id without record throws and changes nothing. *)
Lemma update_example :
  returns (update "posts" post1' two_posts) = true
  ∧ update "posts" (mkRaw "p9" "created" ∅) two_posts
    = Thrown (TypeError "Cannot read property '$loki' of undefined") two_posts.
Proof. split; by_computing. Qed.

End Witnesses.

(** * The further properties on the example database *)

Section MoreWitnesses.
Import Example ExampleQueries.

Local Ltac by_computing := vm_compute; reflexivity.
Local Ltac by_deciding := apply (bool_decide_unpack _); vm_compute; exact I.

Lemma find_outcome_witness :
  match find sanitizedRaw "posts" "p1" reopened with
  | Returned (FoundId x) s' => x = "p1" ∧ cached "posts" "p1" reopened
                               ∧ s' = reopened
  | Returned FoundNull s' =>
      ¬ cached "posts" "p1" reopened ∧ is_Some (loki reopened !! "posts")
      ∧ stored "posts" "id" "p1" reopened = None ∧ s' = reopened
  | Returned (FoundRaw raw) s' =>
      ¬ cached "posts" "p1" reopened
      ∧ (∃ d, stored "posts" "id" "p1" reopened = Some d
              ∧ raw = sanitizedRaw d (table_schema (schema reopened) "posts"))
      ∧ cached "posts" "p1" s' ∧ loki s' = loki reopened
      ∧ ∀ t x, cached t x s' ↔ (t = "posts" ∧ x = "p1") ∨ cached t x reopened
  | Thrown e s' => ¬ cached "posts" "p1" reopened
                   ∧ loki reopened !! "posts" = None ∧ s' = reopened
  end.
Proof.
  apply (find_outcome sanitizedRaw "posts" "p1" reopened).
  intros c Hc.
  assert (loki reopened !! "posts" = Some (collection "posts" reopened)) as H
    by by_computing.
  rewrite H in Hc. injection Hc as <-. by_deciding.
Defined.

Lemma compactQueryResults_once_witness :
  let records := Loki.data (collection "posts" two_posts) in
  ∃ results s',
    _compactQueryResults sanitizedRaw records "posts" reopened
    = Returned results s'
    ∧ loki s' = loki reopened
    ∧ length results = length records
    ∧ (∀ i raw id, records !! i = Some raw → Loki.key_of "id" raw = Some id →
         results !! i
         = Some (if decide (cached "posts" id reopened
                            ∨ id ∈ ids_of (take i records))
                 then FoundId id
                 else FoundRaw (sanitizedRaw raw
                                  (table_schema (schema reopened) "posts"))))
    ∧ (∀ t x, cached t x s'
              ↔ cached t x reopened ∨ (t = "posts" ∧ x ∈ ids_of records)).
Proof.
  intros records.
  apply (compactQueryResults_once sanitizedRaw records "posts" reopened).
  by_deciding.
Defined.

Lemma compactQueryResults_twice_witness :
  let records := Loki.data (collection "posts" two_posts) in
  ∃ results s',
    _compactQueryResults sanitizedRaw records "posts" reopened
    = Returned results s'
    ∧ _compactQueryResults sanitizedRaw records "posts" s'
      = Returned [FoundId "p1"; FoundId "p2"] s'.
Proof.
  intros records.
  apply (compactQueryResults_twice sanitizedRaw records "posts" reopened).
  by_deciding.
Defined.

Lemma query_count_witness :
  let records := Loki.data (collection "posts" reopened) in
  ∃ results s',
    query sanitizedRaw query_table executeQuery "posts" reopened
    = Returned results s'
    ∧ loki s' = loki reopened
    ∧ length results = length records
    ∧ count executeQuery "posts" reopened
      = Returned (Z.of_nat (length results)) reopened
    ∧ count executeQuery "posts" s' = Returned (Z.of_nat (length results)) s'
    ∧ query sanitizedRaw query_table executeQuery "posts" s'
      = Returned (FoundId <$> ids_of records) s'.
Proof.
  intros records.
  apply (query_count sanitizedRaw query_table executeQuery "posts" reopened
           records).
  - by_computing.
  - by_deciding.
Defined.

Lemma create_then_find_witness :
  ∃ s', create "posts" post1 ready = Returned () s'
        ∧ stored "posts" "id" "p1" s'
          = Some (<["$loki" := VNum (Loki.maxId (collection "posts" ready) + 1)]>
                    (raw_object post1))
        ∧ (∀ id', id' ≠ "p1" →
             stored "posts" "id" id' s' = stored "posts" "id" id' ready)
        ∧ (∀ table', table' ≠ "posts" →
             loki s' !! table' = loki ready !! table')
        ∧ find sanitizedRaw "posts" "p1" s' = Returned (FoundId "p1") s'
        ∧ (∀ t x, cached t x s'
                  ↔ (t = "posts" ∧ x = "p1") ∨ cached t x ready).
Proof.
  apply (create_then_find sanitizedRaw "posts" post1 ready
           (collection "posts" ready)).
  - by_computing.
  - by_deciding.
  - by_computing.
  - by_computing.
Defined.

Lemma create_duplicate_witness :
  ∃ e s', create "posts" post1' two_posts = Thrown e s'
          ∧ cachedRecords s' = cachedRecords two_posts
          ∧ (Loki.data <$> loki s' !! "posts")
            = Some (Loki.data (collection "posts" two_posts))
          ∧ (∀ table', table' ≠ "posts" →
               loki s' !! table' = loki two_posts !! table').
Proof.
  apply (create_duplicate "posts" post1' two_posts
           (collection "posts" two_posts) (post "p1" two_posts)).
  - by_computing.
  - by_deciding.
  - by_computing.
Defined.

Lemma update_other_ids_witness :
  ∃ lokiId s',
    post "p1" two_posts !! "$loki" = Some lokiId
    ∧ update "posts" post1' two_posts = Returned () s'
    ∧ stored "posts" "id" "p1" s'
      = Some (<["$loki" := lokiId]> (raw_object post1'))
    ∧ (∀ id', id' ≠ "p1" →
         stored "posts" "id" id' s' = stored "posts" "id" id' two_posts)
    ∧ (∀ table', table' ≠ "posts" →
         loki s' !! table' = loki two_posts !! table')
    ∧ cachedRecords s' = cachedRecords two_posts.
Proof.
  apply (update_other_ids "posts" post1' two_posts
           (collection "posts" two_posts) (post "p1" two_posts)).
  - by_computing.
  - by_deciding.
  - by_computing.
Defined.

Lemma markAsDeleted_found_witness :
  ∃ s', markAsDeleted "posts" "p2" two_posts = Returned () s'
        ∧ stored "posts" "id" "p2" s'
          = Some (<["_status" := VStr "deleted"]> (post "p2" two_posts))
        ∧ (∀ id', id' ≠ "p2" →
             stored "posts" "id" id' s' = stored "posts" "id" id' two_posts)
        ∧ (∀ table', table' ≠ "posts" →
             loki s' !! table' = loki two_posts !! table')
        ∧ (∃ found, getDeletedRecords "posts" s' = Returned found s'
                    ∧ Some (VStr "p2") ∈ found)
        ∧ (∀ t x, cached t x s'
                  ↔ cached t x two_posts ∧ ¬ (t = "posts" ∧ x = "p2")).
Proof.
  apply (markAsDeleted_found "posts" "p2" two_posts
           (collection "posts" two_posts) (post "p2" two_posts)).
  - by_computing.
  - by_deciding.
  - by_computing.
Defined.

Lemma destroyPermanently_outcome_witness :
  match stored "posts" "id" "p1" two_posts with
  | Some d =>
      ∃ s', destroyPermanently "posts" "p1" two_posts = Returned () s'
            ∧ stored "posts" "id" "p1" s' = None
            ∧ (∀ id', id' ≠ "p1" →
                 stored "posts" "id" id' s' = stored "posts" "id" id' two_posts)
            ∧ (∀ table', table' ≠ "posts" →
                 loki s' !! table' = loki two_posts !! table')
            ∧ (∀ t x, cached t x s'
                      ↔ cached t x two_posts ∧ ¬ (t = "posts" ∧ x = "p1"))
  | None =>
      destroyPermanently "posts" "p1" two_posts
      = Thrown (Error "Parameter is not an object") two_posts
  end.
Proof.
  apply (destroyPermanently_outcome "posts" "p1" two_posts
           (collection "posts" two_posts)).
  - by_computing.
  - by_deciding.
Defined.

Lemma getDeletedRecords_ids_witness :
  ∃ found, getDeletedRecords "posts" p2_deleted = Returned found p2_deleted
           ∧ ∀ id, Some (VStr id) ∈ found
                   ↔ ∃ d, stored "posts" "id" id p2_deleted = Some d
                          ∧ is_deleted d.
Proof.
  apply (getDeletedRecords_ids "posts" p2_deleted
           (collection "posts" p2_deleted)).
  - by_computing.
  - by_deciding.
Defined.

Lemma destroyDeletedRecords_exactly_witness :
  ∃ s', destroyDeletedRecords "posts" ["p1"] two_posts = Returned () s'
        ∧ cachedRecords s' = cachedRecords two_posts
        ∧ (∀ table', table' ≠ "posts" →
             loki s' !! table' = loki two_posts !! table')
        ∧ ∀ id, stored "posts" "id" id s'
                = if decide (id ∈ ["p1"]) then None
                  else stored "posts" "id" id two_posts.
Proof.
  apply (destroyDeletedRecords_exactly "posts" ["p1"] two_posts
           (collection "posts" two_posts)).
  - by_computing.
  - by_deciding.
Defined.

Lemma destroy_all_deleted_witness :
  ∃ found s',
    getDeletedRecords "posts" p2_deleted = Returned found p2_deleted
    ∧ destroyDeletedRecords "posts" (record_ids found) p2_deleted
      = Returned () s'
    ∧ getDeletedRecords "posts" s' = Returned [] s'
    ∧ ∀ id d, stored "posts" "id" id p2_deleted = Some d → ¬ is_deleted d →
              stored "posts" "id" id s' = Some d.
Proof.
  apply (destroy_all_deleted "posts" p2_deleted
           (collection "posts" p2_deleted)).
  - by_computing.
  - by_deciding.
  - by_deciding.
Defined.

Lemma batch_stops_at_failure_witness :
  let s2 := outcome_state (batch [("create", "posts", post1')] one_post) in
  (∃ e, batch [("create", "posts", post1); ("create", "posts", post1');
               ("create", "posts", post2)] ready = Thrown e s2)
  ∧ is_Some (stored "posts" "id" "p1" s2)
  ∧ stored "posts" "id" "p2" s2 = None.
Proof.
  intros s2. split; [|split; [by_deciding|by_computing]].
  eexists.
  apply (batch_stops_at_failure [("create", "posts", post1)]
           [("create", "posts", post2)] ("create", "posts", post1')
           ready one_post s2); by_computing.
Defined.

Lemma setLocal_other_keys_witness :
  ∃ s' c',
    setLocal "theme" "dark" ready = Returned () s'
    ∧ same_but_loki ready s'
    ∧ (∀ table, table ≠ "local_storage" →
         loki s' !! table = loki ready !! table)
    ∧ loki s' !! "local_storage" = Some c' ∧ is_local_storage c'
    ∧ getLocal "theme" s' = Returned (Some (VStr "dark")) s'
    ∧ ∀ key', key' ≠ "theme" →
        ∃ local, getLocal key' ready = Returned local ready
                 ∧ getLocal key' s' = Returned local s'.
Proof.
  apply (setLocal_other_keys "theme" "dark" ready
           (collection "local_storage" ready)).
  - by_computing.
  - by_deciding.
Defined.

Lemma removeLocal_other_keys_witness :
  ∃ s', removeLocal SCHEMA_VERSION_KEY ready = Returned () s'
        ∧ same_but_loki ready s'
        ∧ (∀ table, table ≠ "local_storage" →
             loki s' !! table = loki ready !! table)
        ∧ (stored "local_storage" "key" SCHEMA_VERSION_KEY ready = None →
           s' = ready)
        ∧ getLocal SCHEMA_VERSION_KEY s' = Returned None s'
        ∧ ∀ key', key' ≠ SCHEMA_VERSION_KEY →
            ∃ local, getLocal key' ready = Returned local ready
                     ∧ getLocal key' s' = Returned local s'.
Proof.
  apply (removeLocal_other_keys SCHEMA_VERSION_KEY ready
           (collection "local_storage" ready)).
  - by_computing.
  - by_deciding.
Defined.

Lemma local_storage_missing_witness :
  getLocal "theme" fresh = Returned None fresh
  ∧ removeLocal "theme" fresh = Returned () fresh
  ∧ ∃ msg, setLocal "theme" "dark" fresh = Thrown (TypeError msg) fresh.
Proof.
  apply (local_storage_missing "theme" "dark" fresh). by_computing.
Defined.

Lemma unsafeResetDatabase_returns_witness :
  ∃ s', unsafeResetDatabase two_posts = Returned () s'
        ∧ schema s' = schema two_posts
        ∧ persisted s' = ∅ ∧ cachedRecords s' = ∅
        ∧ maintained s'
        ∧ (∀ table, is_Some (loki s' !! table)
                    ↔ table = "local_storage"
                      ∨ table ∈ table_name
                                  <$> (snd <$> tables (schema two_posts)))
        ∧ (∀ table c, table ≠ "local_storage" → loki s' !! table = Some c →
             Loki.is_table c ∧ Loki.data c = [])
        ∧ getLocal SCHEMA_VERSION_KEY s' = Returned (Some (VStr "1")) s'
        ∧ (JS.isSafeInteger 1 → get_databaseVersion s' = Returned 1 s')
        ∧ ∀ key, key ≠ SCHEMA_VERSION_KEY → getLocal key s' = Returned None s'.
Proof.
  apply (unsafeResetDatabase_returns two_posts). by_deciding.
Defined.

Lemma setUp_up_to_date_witness :
  setUp stepsForMigration sanitizedValue reopened
  = Returned () (with_loki (persisted reopened) reopened).
Proof.
  apply (setUp_up_to_date stepsForMigration sanitizedValue reopened).
  by_computing.
Defined.

Lemma setUp_reset_wipes_witness :
  ∃ s', setUp stepsForMigration sanitizedValue downgrading = Returned () s'
        ∧ cachedRecords s' = ∅
        ∧ (∀ table, is_Some (loki s' !! table)
                    ↔ table = "local_storage"
                      ∨ table ∈ table_name
                                  <$> (snd <$> tables (schema downgrading)))
        ∧ (∀ table c, table ≠ "local_storage" → loki s' !! table = Some c →
             Loki.is_table c ∧ Loki.data c = [])
        ∧ getLocal SCHEMA_VERSION_KEY s' = Returned (Some (VStr "1")) s'
        ∧ (JS.isSafeInteger 1 → get_databaseVersion s' = Returned 1 s').
Proof.
  apply (setUp_reset_wipes stepsForMigration sanitizedValue downgrading 2).
  - by_computing.
  - by_deciding.
  - right; left. by_computing.
  - by_deciding.
Defined.

Lemma setUp_migrates_witness :
  setUp stepsForMigration sanitizedValue upgrading
  = _migrate sanitizedValue [addPostColumns]
      (with_loki (persisted upgrading) upgrading)
  ∧ cachedRecords
      (outcome_state (setUp stepsForMigration sanitizedValue upgrading))
    = cachedRecords upgrading
  ∧ ∀ table, table ≠ "local_storage" →
      Forall (λ step, supported step → step_collection step ≠ table)
             [addPostColumns] →
      loki (outcome_state (setUp stepsForMigration sanitizedValue upgrading))
        !! table
      = persisted upgrading !! table.
Proof.
  apply (setUp_migrates stepsForMigration sanitizedValue upgrading 1
           [addPostColumns]).
  - by_computing.
  - split; by_computing.
  - by_computing.
Defined.

Lemma migrate_missing_table_witness :
  let s0 := outcome_state
              (_executeAddColumnsMigration sanitizedValue addPostColumns
                 opened_for_upgrade) in
  ∃ msg, _executeAddColumnsMigration sanitizedValue
           (mkStep "add_columns" "" "comments" [body]) s0
         = Thrown (TypeError msg) s0
         ∧ _migrate sanitizedValue steps_on_missing_table opened_for_upgrade
           = Thrown (TypeError msg) s0.
Proof.
  intros s0.
  apply (migrate_missing_table sanitizedValue [addPostColumns] []
           (mkStep "add_columns" "" "comments" [body]) opened_for_upgrade s0);
    by_computing.
Defined.


End MoreWitnesses.
